(** * Metal Dispersion Analyzer: a shallow embedding of metal_dispersion.cpp

    The program loads (wavelength, n, k) rows, derives the permittivity and
    the angular frequency of every sample, and fits a Drude model by an
    exhaustive grid search. Everything it computes is [double] arithmetic.

    The code is embedded once, over an interface [Scalar] of the operations
    the C++ text applies to a [double], and read at two instances:
    - [float_scalar]: IEEE 754 binary64 (Rocq's primitive floats), the
      arithmetic the compiled program executes; it runs by [vm_compute];
    - [R_scalar]: exact real arithmetic, in which the physical formulas of the
      program are stated. *)

From Stdlib Require Import ZArith Bool Ascii String List Sorted Permutation Lia.
From Stdlib Require Import Reals Lra Psatz.
From Stdlib Require Import Floats.
Import ListNotations.

Set Warnings "-inexact-float".

(** ** The arithmetic of a [double] *)

Declare Scope dbl_scope.
Delimit Scope dbl_scope with dbl.

Class Scalar (T : Type) : Type := {
  dec : Z -> Z -> T;      (* the decimal literal m * 10^e *)
  add : T -> T -> T;
  sub : T -> T -> T;
  mul : T -> T -> T;
  div : T -> T -> T;
  opp : T -> T;
  ltb : T -> T -> bool    (* the comparison x < y; x > y is [ltb y x] *)
}.

Infix "+" := add : dbl_scope.
Infix "-" := sub : dbl_scope.
Infix "*" := mul : dbl_scope.
Infix "/" := div : dbl_scope.
Notation "- x" := (opp x) : dbl_scope.
Infix "<?" := ltb : dbl_scope.
Notation "x >? y" := (ltb y x) (only parsing) : dbl_scope.

(** *** binary64 *)

(** The double nearest to an integer (round to nearest, ties to even). *)
Definition float_of_Z (z : Z) : float :=
  SF2Prim (binary_normalize prec emax z 0 false).

(** The double denoted by the decimal literal [m]e[e]. For a negative
    exponent the quotient of two exactly represented integers is rounded
    once, which is the literal's value as long as |m| < 2^53 and
    10^(-e) <= 10^22; every literal of the program is in that range. *)
Definition float_dec (m e : Z) : float :=
  if (0 <=? e)%Z then float_of_Z (m * 10 ^ e)
  else PrimFloat.div (float_of_Z m) (float_of_Z (10 ^ (- e))).

#[export] Instance float_scalar : Scalar float := {
  dec := float_dec;
  add := PrimFloat.add;
  sub := PrimFloat.sub;
  mul := PrimFloat.mul;
  div := PrimFloat.div;
  opp := PrimFloat.opp;
  ltb := PrimFloat.ltb
}.

(** *** exact reals *)

Definition R_dec (m e : Z) : R :=
  if (0 <=? e)%Z then IZR (m * 10 ^ e) else (IZR m / IZR (10 ^ (- e)))%R.

Definition Rltb (x y : R) : bool := if Rlt_dec x y then true else false.

#[export] Instance R_scalar : Scalar R := {
  dec := R_dec;
  add := Rplus;
  sub := Rminus;
  mul := Rmult;
  div := Rdiv;
  opp := Ropp;
  ltb := Rltb
}.

(** The laws of [<] that the search relies on. Both instances have them
    (binary64 too: NaN is below nothing and nothing is below NaN). *)
Class ScalarOrder (T : Type) `{Scalar T} : Prop := {
  ltb_irrefl : forall x : T, (x <? x)%dbl = false;
  ltb_trans : forall x y z : T,
      (x <? y)%dbl = true -> (y <? z)%dbl = true -> (x <? z)%dbl = true;
  ltb_zero_huge : (dec 0 0 <? dec 1 300)%dbl = true
}.

(** ** The program *)

Section Program.

Context {T : Type} `{Scalar T}.
Local Open Scope dbl_scope.

(** constexpr double c = 2.99792458e8;  constexpr double pi = 3.1415; *)
Definition c : T := dec 299792458 0.
Definition pi : T := dec 31415 (-4).

(** The tunable globals of the program: the high-frequency permittivity,
    the window in which the Drude model is fitted, the search ranges and the
    grid steps. *)
Record Config : Type := {
  eps_inf : T;
  omega_min : T;
  omega_max : T;
  omega_p_min : T;
  omega_p_max : T;
  gamma_min : T;
  gamma_max : T;
  domega_p : T;
  dgamma : T
}.

(** The values the source gives them. *)
Definition default_config : Config := {|
  eps_inf := dec 43 (-1);          (* 4.3 *)
  omega_min := dec 15 14;          (* 1.5e15 *)
  omega_max := dec 4 15;           (* 4.0e15 *)
  omega_p_min := dec 1 15;         (* 1.0e15 *)
  omega_p_max := dec 3 16;         (* 3.0e16 *)
  gamma_min := dec 1 13;           (* 1.0e13 *)
  gamma_max := dec 15 13;          (* 1.5e14 *)
  domega_p := dec 5 13;            (* 0.05e15 *)
  dgamma := dec 1 12               (* 0.1e13 *)
|}.

(** *** class Material *)

Record Material : Type := {
  name_ : string;
  wavelength_ : list T;
  n_ : list T;
  k_ : list T
}.

(** Material(const std::string& name) *)
Definition mkMaterial (name : string) : Material :=
  {| name_ := name; wavelength_ := []; n_ := []; k_ := [] |}.

Definition getName (m : Material) : string := name_ m.
Definition getWavelength (m : Material) : list T := wavelength_ m.
Definition getN (m : Material) : list T := n_ m.
Definition getK (m : Material) : list T := k_ m.

(** [v[i]] for an index in range; the source never indexes out of range on
    a well-formed material, and the default is not observed there. *)
Definition at_ (v : list T) (i : nat) : T := nth i v (dec 0 0).

(** getOmega: for (i = 0; i < wavelength_.size(); i++) omega.push_back(...).
    [todo] is the number of iterations still to run. *)
Fixpoint getOmega_loop (wl : list T) (todo i : nat) (omega : list T) : list T :=
  match todo with
  | O => omega
  | S todo' =>
      getOmega_loop wl todo' (S i)
        (omega ++ [(dec 2 0 * pi * c) / (at_ wl i * dec 1 (-9))])
  end.

Definition getOmega (m : Material) : list T :=
  getOmega_loop (wavelength_ m) (length (wavelength_ m)) 0 [].

Fixpoint getEnergy_loop (wl : list T) (todo i : nat) (energy : list T) : list T :=
  match todo with
  | O => energy
  | S todo' =>
      getEnergy_loop wl todo' (S i) (energy ++ [dec 1240 0 / at_ wl i])
  end.

Definition getEnergy (m : Material) : list T :=
  getEnergy_loop (wavelength_ m) (length (wavelength_ m)) 0 [].

(** computeEpsilon: the pair (e_real, e_imag). *)
Fixpoint computeEpsilon_loop (n k : list T) (todo i : nat)
    (e_real e_imag : list T) : list T * list T :=
  match todo with
  | O => (e_real, e_imag)
  | S todo' =>
      let eps_real := at_ n i * at_ n i - at_ k i * at_ k i in
      let eps_imag := dec 2 0 * at_ n i * at_ k i in
      computeEpsilon_loop n k todo' (S i) (e_real ++ [eps_real]) (e_imag ++ [eps_imag])
  end.

Definition computeEpsilon (m : Material) : list T * list T :=
  computeEpsilon_loop (n_ m) (k_ m) (length (wavelength_ m)) 0 [] [].

(** *** std::complex<double>

    The class comes from the C++ standard library. The program builds a
    complex number from its two parts, divides a real by a complex number,
    subtracts a complex number from a real and reads the two parts back;
    the operators are given by the formulas that define them. *)

Record complex : Type := { real : T; imag : T }.

(** (a + bi) / (c + di), by the formula that defines the quotient. The
    compiled program calls the division routine of the compiler's runtime
    library, which returns this quotient in exact arithmetic for a divisor
    that is not zero; in binary64 it scales by the larger part of the
    divisor and repairs a result NaN + i NaN, so that its result can differ
    from the formula's in the last bits, where the formula overflows and at
    a zero divisor. *)
Definition cdiv (x y : complex) : complex :=
  let denom := real y * real y + imag y * imag y in
  {| real := (real x * real y + imag x * imag y) / denom;
     imag := (imag x * real y - real x * imag y) / denom |}.

(** operator/(const T&, const complex<T>&): the real is converted first. *)
Definition rdivc (x : T) (y : complex) : complex :=
  cdiv {| real := x; imag := dec 0 0 |} y.

(** operator-(const T&, const complex<T>&) *)
Definition rsubc (x : T) (y : complex) : complex :=
  {| real := x - real y; imag := - imag y |}.

(** *** The Drude model: eps(omega) = eps_inf - omega_p^2 / (omega^2 + i gamma omega) *)

Definition drude_eps (omega eps_inf omega_p gamma : T) : complex :=
  let denom := {| real := omega * omega; imag := gamma * omega |} in
  rsubc eps_inf (rdivc (omega_p * omega_p) denom).

(** *** computeError: the error of the data against the Drude model *)

Fixpoint computeError_loop (cfg : Config) (omega : list T)
    (eps_inf omega_p gamma : T) (eps1_data eps2_data : list T)
    (todo i : nat) (error : T) : T :=
  match todo with
  | O => error
  | S todo' =>
      if (at_ omega i <? omega_min cfg) || (at_ omega i >? omega_max cfg)
      then (* continue *)
        computeError_loop cfg omega eps_inf omega_p gamma eps1_data eps2_data
          todo' (S i) error
      else
        let eps_model := drude_eps (at_ omega i) eps_inf omega_p gamma in
        let real_error := real eps_model - at_ eps1_data i in
        let img_error := imag eps_model - at_ eps2_data i in
        let norm := at_ eps1_data i * at_ eps1_data i
                    + at_ eps2_data i * at_ eps2_data i + dec 1 (-12) in
        computeError_loop cfg omega eps_inf omega_p gamma eps1_data eps2_data
          todo' (S i)
          (error + (real_error * real_error + img_error * img_error) / norm)
  end.

Definition computeError (cfg : Config) (omega : list T)
    (eps_inf omega_p gamma : T) (eps1_data eps2_data : list T) : T :=
  computeError_loop cfg omega eps_inf omega_p gamma eps1_data eps2_data
    (length omega) 0 (dec 0 0).

(** *** The grid search of main *)

(** for (double x = init; x < bound; x += step) body. A loop over doubles
    need not end (a step of zero, or one absorbed by rounding), so the loop
    runs on [fuel] and answers [None] when the fuel does not suffice. *)
Fixpoint for_double {S : Type} (fuel : nat) (x bound step : T)
    (body : T -> S -> option S) (s : S) : option S :=
  match fuel with
  | O => None
  | Datatypes.S fuel' =>
      if x <? bound then
        match body x s with
        | Some s' => for_double fuel' (x + step) bound step body s'
        | None => None
        end
      else Some s
  end.

(** The three variables the search updates. *)
Record FitResult : Type := {
  best_error : T;
  best_omega_p : T;
  best_gamma : T
}.

(** best_error = 1e300, best_omega_p = 0.0, best_gamma = 0.0 *)
Definition no_fit_yet : FitResult :=
  {| best_error := dec 1 300; best_omega_p := dec 0 0; best_gamma := dec 0 0 |}.

(** The body of the inner loop. *)
Definition try_point (cfg : Config) (omega eps1_data eps2_data : list T)
    (omega_p gamma : T) (best : FitResult) : FitResult :=
  let err := computeError cfg omega (eps_inf cfg) omega_p gamma eps1_data eps2_data in
  if err <? best_error best
  then {| best_error := err; best_omega_p := omega_p; best_gamma := gamma |}
  else best.

Definition grid_search (cfg : Config) (fuel : nat)
    (omega eps1_data eps2_data : list T) : option FitResult :=
  for_double fuel (omega_p_min cfg) (omega_p_max cfg) (domega_p cfg)
    (fun omega_p best =>
       for_double fuel (gamma_min cfg) (gamma_max cfg) (dgamma cfg)
         (fun gamma best => Some (try_point cfg omega eps1_data eps2_data omega_p gamma best))
         best)
    no_fit_yet.

(** The fit of a loaded material, as main runs it. *)
Definition fit (cfg : Config) (fuel : nat) (Ag : Material) : option FitResult :=
  let omega := getOmega Ag in
  let eps := computeEpsilon Ag in
  let eps1_data := fst eps in
  let eps2_data := snd eps in
  grid_search cfg fuel omega eps1_data eps2_data.

(** *** loadData

    The input file is seen through the loop condition
    [file >> lambda >> comma >> n_real >> comma >> n_imag]: every evaluation
    either extracts three numbers or fails, and a failure ends the loop. An
    element of the list below is one evaluation of that condition, not one
    row of the file: the extraction is not by lines (see [scan], which gives
    the evaluations for the text of a file). [Malformed] is an evaluation
    that fails; the end of the list is the end of the file. *)

Inductive Extraction : Type :=
  | Row (lambda n_real n_imag : T)
  | Malformed.

(** How a call ends: it returns, it throws std::runtime_error, or it runs
    into undefined behaviour. *)
Inductive Outcome (A : Type) : Type :=
  | Returned (a : A)
  | Thrown (what : string)
  | Undefined.

(** The line printed after loading:
    Loaded <size> data points for <name> between <front> and <back> nm *)
Record Summary : Type := {
  points : nat;
  material : string;
  front_nm : T;
  back_nm : T
}.

Definition push_back (m : Material) (lambda n_real n_imag : T) : Material :=
  {| name_ := name_ m;
     wavelength_ := wavelength_ m ++ [lambda];
     n_ := n_ m ++ [n_real];
     k_ := k_ m ++ [n_imag] |}.

Fixpoint loadData_loop (file : list Extraction) (m : Material) : Material :=
  match file with
  | Row lambda n_real n_imag :: rest =>
      loadData_loop rest (push_back m lambda n_real n_imag)
  | Malformed :: _ => m
  | [] => m
  end.

(** [file] is [None] when the file could not be opened. front() and back()
    of an empty vector are undefined. *)
Definition loadData (filename : string) (file : option (list Extraction))
    (m : Material) : Outcome (Material * Summary) :=
  match file with
  | None => Thrown _ ("Error: Could not open file " ++ filename)
  | Some rows =>
      let m' := loadData_loop rows m in
      match wavelength_ m' with
      | [] => Undefined _
      | front :: rest =>
          Returned _ (m', {| points := length (wavelength_ m');
                             material := name_ m';
                             front_nm := front;
                             back_nm := last rest front |})
      end
  end.

(** main, up to the report of the fit: load the file into the material
    Silver and search the grid. Nothing is returned when the search does not
    end within the fuel. *)
Definition main (cfg : Config) (fuel : nat) (file : option (list Extraction))
    : Outcome (option FitResult) :=
  match loadData "data/Ag_Palik_400-900nm.txt" file (mkMaterial "Silver") with
  | Returned _ (Ag, _) => Returned _ (fit cfg fuel Ag)
  | Thrown _ what => Thrown _ what
  | Undefined _ => Undefined _
  end.

End Program.

Arguments Config T : clear implicits.
Arguments Material T : clear implicits.
Arguments complex T : clear implicits.
Arguments FitResult T : clear implicits.
Arguments Extraction T : clear implicits.
Arguments Summary T : clear implicits.
Arguments Returned {A} a.
Arguments Thrown {A} what.
Arguments Undefined {A}.

(** ** Definitions used to state the properties *)

Section Statements.

Context {T : Type} `{Scalar T}.
Local Open Scope dbl_scope.

(** The values a loop [for (x = init; x < bound; x += step)] visits, in
    order: each one is below the bound, and the value that follows the last
    one is not. *)
Inductive Enumerates (bound step : T) : T -> list T -> Prop :=
  | Enumerates_stop : forall x,
      (x <? bound) = false -> Enumerates bound step x []
  | Enumerates_next : forall x l,
      (x <? bound) = true -> Enumerates bound step (x + step) l ->
      Enumerates bound step x (x :: l).

(** The same values, computed. *)
Fixpoint frange (fuel : nat) (x bound step : T) : option (list T) :=
  match fuel with
  | O => None
  | S fuel' =>
      if x <? bound then
        match frange fuel' (x + step) bound step with
        | Some l => Some (x :: l)
        | None => None
        end
      else Some []
  end.

(** The grid points in the order of the search: plasma frequency outside,
    damping rate inside. *)
Definition grid (ps gs : list T) : list (T * T) := list_prod ps gs.

(** The error of the data at a grid point. *)
Definition point_error (cfg : Config T) (omega eps1_data eps2_data : list T)
    (pg : T * T) : T :=
  computeError cfg omega (eps_inf cfg) (fst pg) (snd pg) eps1_data eps2_data.

(** The search as one pass over the grid points. *)
Definition search_over (cfg : Config T) (omega eps1_data eps2_data : list T)
    (points : list (T * T)) (best : FitResult T) : FitResult T :=
  fold_left (fun best pg => try_point cfg omega eps1_data eps2_data (fst pg) (snd pg) best)
    points best.

(** What the search leaves in its three variables after the points: either
    they were never written, and no point has an error below 1e300; or they
    hold a point whose error no point undercuts, and which comes before
    every other point of the same error. *)
Definition first_minimum (cfg : Config T) (omega eps1_data eps2_data : list T)
    (points : list (T * T)) (r : FitResult T) : Prop :=
  let err := point_error cfg omega eps1_data eps2_data in
  (r = no_fit_yet /\ forall q, In q points -> (err q <? dec 1 300) = false)
  \/
  (exists pre pg post,
      points = pre ++ pg :: post
      /\ r = {| best_error := err pg; best_omega_p := fst pg; best_gamma := snd pg |}
      /\ (err pg <? dec 1 300) = true
      /\ (forall q, In q points -> (err q <? err pg) = false)
      /\ (forall q, In q pre -> err q <> err pg)).

(** The test of computeError that lets a sample contribute. *)
Definition contributes (cfg : Config T) (w : T) : bool :=
  negb ((w <? omega_min cfg) || (w >? omega_max cfg)).

(** What one sample inside the window adds to the error. *)
Definition sample_error (eps_inf omega_p gamma w e1 e2 : T) : T :=
  let eps_model := drude_eps w eps_inf omega_p gamma in
  let real_error := real eps_model - e1 in
  let img_error := imag eps_model - e2 in
  (real_error * real_error + img_error * img_error)
  / (e1 * e1 + e2 * e2 + dec 1 (-12)).

(** One turn of the loop of computeError on sample i. *)
Definition accumulate (cfg : Config T) (omega : list T) (eps_inf omega_p gamma : T)
    (eps1_data eps2_data : list T) (error : T) (i : nat) : T :=
  if contributes cfg (at_ omega i)
  then error + sample_error eps_inf omega_p gamma (at_ omega i)
                 (at_ eps1_data i) (at_ eps2_data i)
  else error.

(** Evaluations of the loop condition that all succeed, with the samples
    they extract. *)
Definition parsed (rows : list (T * T * T)) : list (Extraction T) :=
  map (fun r => Row (fst (fst r)) (snd (fst r)) (snd r)) rows.

(** The material that holds exactly the given samples. *)
Definition material_of (name : string) (rows : list (T * T * T)) : Material T :=
  {| name_ := name;
     wavelength_ := map (fun r => fst (fst r)) rows;
     n_ := map (fun r => snd (fst r)) rows;
     k_ := map (fun r => snd r) rows |}.

(** The three vectors of a material grow together. *)
Definition well_formed (m : Material T) : Prop :=
  length (n_ m) = length (wavelength_ m) /\ length (k_ m) = length (wavelength_ m).

End Statements.

(** Exact arithmetic: the product of two complex numbers, the validity
    window and the error as the sum the specification describes. *)

Definition cmul (x y : complex R) : complex R :=
  {| real := real x * real y - imag x * imag y;
     imag := real x * imag y + imag x * real y |}%R.

(** The order of the grid: plasma frequency first, then damping rate. *)
Definition grid_lt (a b : R * R) : Prop :=
  (fst a < fst b \/ (fst a = fst b /\ snd a < snd b))%R.

Definition in_window (cfg : Config R) (w : R) : Prop :=
  (omega_min cfg <= w <= omega_max cfg)%R.

Definition in_windowb (cfg : Config R) (w : R) : bool :=
  if Rle_dec (omega_min cfg) w then (if Rle_dec w (omega_max cfg) then true else false)
  else false.

(** The term of index i:
    ((Re model - eps1[i])^2 + (Im model - eps2[i])^2) / (eps1[i]^2 + eps2[i]^2 + 1e-12). *)
Definition error_term (omegas : list R) (epsInf omegaP gamma : R)
    (eps1Data eps2Data : list R) (i : nat) : R :=
  let model := drude_eps (nth i omegas 0%R) epsInf omegaP gamma in
  (((real model - nth i eps1Data 0) * (real model - nth i eps1Data 0)
    + (imag model - nth i eps2Data 0) * (imag model - nth i eps2Data 0))
   / (nth i eps1Data 0 * nth i eps1Data 0 + nth i eps2Data 0 * nth i eps2Data 0
      + 1e-12))%R.

(** The sum of the terms over exactly the indices i whose omegas[i] lies in
    the window. *)
Definition windowed_error_sum (cfg : Config R) (omegas : list R)
    (epsInf omegaP gamma : R) (eps1Data eps2Data : list R) : R :=
  fold_right Rplus 0%R
    (map (error_term omegas epsInf omegaP gamma eps1Data eps2Data)
         (filter (fun i => in_windowb cfg (nth i omegas 0%R))
                 (seq 0 (length omegas)))).

(** binary64 values that are a zero or not a number. *)
Definition zero_or_nan (x : spec_float) : Prop :=
  match x with
  | S754_zero _ | S754_nan => True
  | _ => False
  end.

(** binary64 values whose sign bit is clear, or that are not a number. *)
Definition sign_clear (x : spec_float) : Prop :=
  match x with
  | S754_nan => True
  | S754_zero s | S754_infinity s | S754_finite s _ _ => s = false
  end.

(** binary64: |x - y| <= tol *)
Definition within (tol x y : float) : bool :=
  PrimFloat.leb (PrimFloat.abs (PrimFloat.sub x y)) tol.

(** The values the two loops of main visit with the constants of the
    source: 580 plasma frequencies and 140 damping rates. *)
Definition default_plasma_grid : list float :=
  Eval vm_compute in
    match frange 600 (omega_p_min default_config) (omega_p_max default_config)
            (domega_p default_config) with
    | Some l => l
    | None => []
    end.

Definition default_damping_grid : list float :=
  Eval vm_compute in
    match frange 600 (gamma_min default_config) (gamma_max default_config)
            (dgamma default_config) with
    | Some l => l
    | None => []
    end.

(** Three rows of optical constants of silver, and one row in the
    ultraviolet, whose angular frequency is above the window. *)
Definition three_rows : list (float * float * float) :=
  [(400, 0.05, 2.1); (620, 0.06, 4.0); (900, 0.04, 6.3)]%float.

Definition ultraviolet_row : list (float * float * float) :=
  [(100, 0.05, 2.1)]%float.

(** Silver with one sample at the given wavelength. *)
Definition one_sample (lambda : float) : Material float :=
  material_of "Silver" [(lambda, 0.06, 4.0)]%float.

(** What loadData prints about a material that holds the given rows. *)
Definition summary_of {T : Type} (name : string) (row : T * T * T)
    (rows : list (T * T * T)) : Summary T :=
  {| points := S (length rows);
     material := name;
     front_nm := fst (fst row);
     back_nm := last (map (fun r => fst (fst r)) rows) (fst (fst row)) |}.

(** The program's constants with a plasma-frequency step of 0.05 rad/s. *)
Definition fine_step_config : Config float := {|
  eps_inf := eps_inf default_config;
  omega_min := omega_min default_config;
  omega_max := omega_max default_config;
  omega_p_min := omega_p_min default_config;
  omega_p_max := omega_p_max default_config;
  gamma_min := gamma_min default_config;
  gamma_max := gamma_max default_config;
  domega_p := 0.05%float;
  dgamma := dgamma default_config
|}.

(** The program's constants with both steps ten times as wide. *)
Definition coarse_config : Config float := {|
  eps_inf := eps_inf default_config;
  omega_min := omega_min default_config;
  omega_max := omega_max default_config;
  omega_p_min := omega_p_min default_config;
  omega_p_max := omega_p_max default_config;
  gamma_min := gamma_min default_config;
  gamma_max := gamma_max default_config;
  domega_p := 5e14%float;
  dgamma := 1e13%float
|}.

(** ** The rest of main: the fitted curves and the plots *)

(** enum class PlotLevel *)
Inductive PlotLevel : Type :=
  | Basic      (* v1-style plots (n, k, eps vs wavelength) *)
  | Advanced.  (* v2 plots (eps vs energy + Drude fit) *)

Section Presentation.

Context {T : Type} `{Scalar T}.
Local Open Scope dbl_scope.

(** The calls into matplotlibcpp, in the order the program makes them. The
    format of a curve is [None] where the call leaves it out. *)
Inductive PltCall : Type :=
  | plt_figure (number : Z)
  | plt_named_plot (name : string) (x y : list T) (format : option string)
  | plt_title (s : string)
  | plt_xlabel (s : string)
  | plt_ylabel (s : string)
  | plt_legend
  | plt_show.

(** Plot::dispersionPlot of version 2.0. *)
Definition dispersionPlot (number : Z) (x y1 y2 : list T)
    (title labelx labely legend1 legend2 linestyle : string) : list PltCall :=
  [plt_figure number;
   plt_named_plot legend1 x y1 (Some linestyle);
   plt_named_plot legend2 x y2 (Some linestyle);
   plt_title title;
   plt_xlabel labelx;
   plt_ylabel labely;
   plt_legend].

(** Plot::dispersionPlot of version 1.0. *)
Definition dispersionPlot_v1 (number : Z) (wavelength n k : list T)
    (title labelx labely legend1 legend2 : string) : list PltCall :=
  [plt_figure number;
   plt_named_plot legend1 wavelength n None;
   plt_named_plot legend2 wavelength k None;
   plt_title title;
   plt_xlabel labelx;
   plt_ylabel labely;
   plt_legend].

(** [v[i] = x] on a vector; the program only assigns inside the vector. *)
Fixpoint assign {A : Type} (v : list A) (i : nat) (x : A) : list A :=
  match v, i with
  | [], _ => []
  | _ :: v', O => x :: v'
  | a :: v', S i' => a :: assign v' i' x
  end.

(** std::complex<double>(): 0 + 0i *)
Definition czero : complex T := {| real := dec 0 0; imag := dec 0 0 |}.

(** for (i = 0; i < omega.size(); i++)
      eps_model[i] = drude_eps(omega[i], eps_inf, best_omega_p, best_gamma); *)
Fixpoint eps_model_loop (omega : list T) (eps_inf best_omega_p best_gamma : T)
    (todo i : nat) (eps_model : list (complex T)) : list (complex T) :=
  match todo with
  | O => eps_model
  | S todo' =>
      eps_model_loop omega eps_inf best_omega_p best_gamma todo' (S i)
        (assign eps_model i (drude_eps (at_ omega i) eps_inf best_omega_p best_gamma))
  end.

(** for (i = 0; i < omega.size(); i++) {
      eps1_model[i] = eps_model[i].real(); eps2_model[i] = eps_model[i].imag(); } *)
Fixpoint model_parts_loop (eps_model : list (complex T)) (todo i : nat)
    (eps1_model eps2_model : list T) : list T * list T :=
  match todo with
  | O => (eps1_model, eps2_model)
  | S todo' =>
      model_parts_loop eps_model todo' (S i)
        (assign eps1_model i (real (nth i eps_model czero)))
        (assign eps2_model i (imag (nth i eps_model czero)))
  end.

(** What a run of version 2.0 leaves: the fit, the two fitted curves and the
    calls to the plotting library. The lines it prints are not modelled. *)
Record Report : Type := {
  fitted : FitResult T;
  eps1_model : list T;
  eps2_model : list T;
  plots : list PltCall
}.

(** main of version 2.0, whole. [plotLevel] is the local variable of that
    name, which the source sets to Advanced. *)
Definition main_v2 (plotLevel : PlotLevel) (cfg : Config T) (fuel : nat)
    (file : option (list (Extraction T))) : Outcome (option Report) :=
  match loadData "data/Ag_Palik_400-900nm.txt" file (mkMaterial "Silver") with
  | Returned (Ag, _) =>
      let name := getName Ag in
      let wl := getWavelength Ag in
      let n := getN Ag in
      let k := getK Ag in
      let energy := getEnergy Ag in
      let omega := getOmega Ag in
      let eps := computeEpsilon Ag in
      let eps1_data := fst eps in
      let eps2_data := snd eps in
      match grid_search cfg fuel omega eps1_data eps2_data with
      | None => Returned None
      | Some best =>
          let eps_model :=
            eps_model_loop omega (eps_inf cfg) (best_omega_p best) (best_gamma best)
              (length omega) 0 (repeat czero (length omega)) in
          let model_parts :=
            model_parts_loop eps_model (length omega) 0
              (repeat (dec 0 0) (length eps_model))
              (repeat (dec 0 0) (length eps_model)) in
          let eps1_model := fst model_parts in
          let eps2_model := snd model_parts in
          let advanced :=
            match plotLevel with
            | Advanced =>
                dispersionPlot 1 energy eps1_model eps2_model
                  ((("Drude Fit vs Palik Data (" ++ name) ++ ")") ++ " ")
                  "energy  (eV)" "Permittivity (ε)"
                  "ε₁ Drude fit" "ε₂ Drude fit" "--"
                ++ dispersionPlot 1 energy eps1_data eps2_data
                     ((("Drude Fit vs Palik Data (" ++ name) ++ ")") ++ " ")
                     "energy  (eV)" "Permittivity (ε)"
                     "ε₁ data" "ε₂ data" "-"
            | Basic => []
            end in
          let basic :=
            match plotLevel with
            | Basic =>
                dispersionPlot 1 wl n k
                  (("Refractive Index of " ++ name) ++ " (Palik, 400–900 nm)")
                  "Wavelength λ (nm)" "Refractive index (n)"
                  "n data" "k data" "-"
                ++ dispersionPlot 2 wl eps1_data eps2_data
                     (("Complex Permittivity of " ++ name) ++ " (Palik, 400–900 nm)")
                     "Wavelength λ (nm)" "Permittivity (ε)"
                     "ε₁ data" "ε₂ data" "-"
            | Advanced => []
            end in
          Returned (Some {| fitted := best;
                            eps1_model := eps1_model;
                            eps2_model := eps2_model;
                            plots := advanced ++ basic ++ [plt_show] |})
      end
  | Thrown what => Thrown what
  | Undefined => Undefined
  end.

(** main of version 1.0 (the second program of the file): its Material is
    the one of version 2.0 without getOmega and getEnergy. *)
Definition main_v1 (file : option (list (Extraction T))) : Outcome (list PltCall) :=
  match loadData "data/Ag_Palik_400-900nm.txt" file (mkMaterial "Silver") with
  | Returned (Ag, _) =>
      let name := getName Ag in
      let wl := getWavelength Ag in
      let n := getN Ag in
      let k := getK Ag in
      let plot1 :=
        dispersionPlot_v1 1 wl n k
          (("Refractive Index of " ++ name) ++ " (Palik, 400–900 nm)")
          "Wavelength λ (nm)" "Refractive index (n)"
          "n (real part)" "k (imag part)" in
      let eps := computeEpsilon Ag in
      let eps1 := fst eps in
      let eps2 := snd eps in
      let plot2 :=
        dispersionPlot_v1 2 wl eps1 eps2
          (("Complex Permittivity of " ++ name) ++ " (Palik, 400–900 nm)")
          "Wavelength λ (nm)" "Permittivity (ε)"
          "ε₁ (real part)" "ε₂ (imag part)" in
      Returned (plot1 ++ plot2 ++ [plt_show])
  | Thrown what => Thrown what
  | Undefined => Undefined
  end.

(** Two calls that draw the same thing: the same call, or two curves with
    the same points (whatever their names in the legend and their formats). *)
Definition same_drawing (a b : PltCall) : Prop :=
  match a, b with
  | plt_named_plot _ x y _, plt_named_plot _ x' y' _ => x = x' /\ y = y'
  | _, _ => a = b
  end.

(** A curve has as many ordinates as abscissas. *)
Definition well_sized (call : PltCall) : Prop :=
  match call with
  | plt_named_plot _ x y _ => length y = length x
  | _ => True
  end.

(** The three columns of a list of samples (omega, eps1, eps2), and the
    error of the model on them. *)
Definition omegas_of (samples : list (T * T * T)) : list T :=
  map (fun r => fst (fst r)) samples.

Definition eps1_of (samples : list (T * T * T)) : list T :=
  map (fun r => snd (fst r)) samples.

Definition eps2_of (samples : list (T * T * T)) : list T :=
  map (fun r => snd r) samples.

Definition error_of_samples (cfg : Config T) (eps_inf omega_p gamma : T)
    (samples : list (T * T * T)) : T :=
  computeError cfg (omegas_of samples) eps_inf omega_p gamma
    (eps1_of samples) (eps2_of samples).

(** One turn of the loop of computeError, on a sample. *)
Definition add_sample (cfg : Config T) (eps_inf omega_p gamma : T)
    (error : T) (sample : T * T * T) : T :=
  if contributes cfg (fst (fst sample))
  then error + sample_error eps_inf omega_p gamma
                 (fst (fst sample)) (snd (fst sample)) (snd sample)
  else error.

(** The samples that pass the window test of computeError. *)
Definition in_window_samples (cfg : Config T) (samples : list (T * T * T))
    : list (T * T * T) :=
  filter (fun sample => contributes cfg (fst (fst sample))) samples.

End Presentation.

Arguments PltCall T : clear implicits.
Arguments Report T : clear implicits.

(** The error as computeError accumulates it: the errors of the samples
    that pass its test, added one after the other to 0 in the order of the
    indices. *)
Definition error_in_order {T : Type} `{Scalar T} (cfg : Config T) (omegas : list T)
    (epsInf omegaP gamma : T) (eps1Data eps2Data : list T) : T :=
  fold_left
    (fun error i =>
       (error + sample_error epsInf omegaP gamma
                  (at_ omegas i) (at_ eps1Data i) (at_ eps2Data i))%dbl)
    (filter (fun i => contributes cfg (at_ omegas i)) (seq 0 (length omegas)))
    (dec 0 0).

(** binary64: omega_min <= w <= omega_max *)
Definition in_window64 (cfg : Config float) (w : float) : bool :=
  PrimFloat.leb (omega_min cfg) w && PrimFloat.leb w (omega_max cfg).

(** ** The file as text

    loadData reads the file through the extraction operators of the C++
    standard library. They are library code, modelled here as the GNU C++
    library implements them in the "C" locale:
    - white space (isspace) is skipped before every extraction;
    - a [char] takes the next character, whatever it is;
    - a [double] takes the longest run of characters that can continue a
      decimal numeral (num_get's _M_extract_float: a sign, digits, one
      point, one exponent with its sign), hands them to strtod, and fails
      unless strtod accepts all of them and their value does not overflow.
    An extraction that fails sets the stream's failbit, which ends the
    chain of extractions and with it the loop of loadData. *)

(** What strtod makes of the numeral (-1)^negative * m * 10^e, for a
    natural number m: [None] when the value overflows. *)
Class Strtod (T : Type) : Type := {
  strtod : bool -> Z -> Z -> option T
}.

(** binary64: the double nearest to the value, ties to even; a zero keeps
    the sign of the numeral. *)
Definition SF_of_decimal (negative : bool) (m e : Z) : spec_float :=
  match m with
  | Z0 => S754_zero negative
  | Zpos _ =>
      if (0 <=? e)%Z then
        match (m * 10 ^ e)%Z with
        | Zpos p => binary_round prec emax negative p 0
        | _ => S754_nan
        end
      else
        let '(mz, ez, lz) := SFdiv_core_binary prec emax m 0 (10 ^ (- e)) 0 in
        binary_round_aux prec emax negative mz ez lz
  | Zneg _ => S754_nan
  end.

Definition float_strtod (negative : bool) (m e : Z) : option float :=
  match SF_of_decimal negative m e with
  | S754_infinity _ | S754_nan => None
  | x => Some (SF2Prim x)
  end.

#[export] Instance float_Strtod : Strtod float := { strtod := float_strtod }.

Definition R_strtod (negative : bool) (m e : Z) : option R :=
  Some (if negative then Ropp (R_dec m e) else R_dec m e).

#[export] Instance R_Strtod : Strtod R := { strtod := R_strtod }.

(** The characters. *)
Definition isspace (c : ascii) : bool :=
  let n := N_of_ascii c in ((9 <=? n) && (n <=? 13) || (n =? 32))%N.

Definition isdigit (c : ascii) : bool :=
  let n := N_of_ascii c in ((48 <=? n) && (n <=? 57))%N.

Definition digit (c : ascii) : Z := Z.of_N (N_of_ascii c) - 48.

Definition is_sign (c : ascii) : bool := (c =? "+")%char || (c =? "-")%char.

Definition is_point (c : ascii) : bool := (c =? ".")%char.

Definition is_exponent (c : ascii) : bool := (c =? "e")%char || (c =? "E")%char.

Definition is_zero (c : ascii) : bool := (c =? "0")%char.

(** The sentry of an extraction: skip the white space. *)
Fixpoint skipws (s : string) : string :=
  match s with
  | String c rest => if isspace c then skipws rest else s
  | EmptyString => s
  end.

(** _M_extract_float, in its three steps. Each returns the characters it
    accumulates for strtod and what it leaves in the stream. *)

(** First check for sign. *)
Definition extract_sign (s : string) : string * string :=
  match s with
  | String c rest => if is_sign c then (String c EmptyString, rest) else (EmptyString, s)
  | EmptyString => (EmptyString, s)
  end.

(** Next, look for leading zeros: they count as one. *)
Fixpoint skip_zeros (s : string) : string :=
  match s with
  | String c rest => if is_zero c then skip_zeros rest else s
  | EmptyString => s
  end.

Definition starts_with_zero (s : string) : bool :=
  match s with
  | String c _ => is_zero c
  | EmptyString => false
  end.

(** Then the digits, one point before any exponent, and one exponent after
    a digit of the mantissa, with its sign if the next character is one. *)
Fixpoint extract_digits (found_mantissa found_dec found_sci : bool) (s : string)
    : string * string :=
  match s with
  | EmptyString => (EmptyString, s)
  | String c rest =>
      if isdigit c then
        let (xtrc, remains) := extract_digits true found_dec found_sci rest in
        (String c xtrc, remains)
      else if is_point c && negb found_dec && negb found_sci then
        let (xtrc, remains) := extract_digits found_mantissa true found_sci rest in
        (String "." xtrc, remains)
      else if is_exponent c && negb found_sci && found_mantissa then
        match rest with
        | EmptyString => (String "e" EmptyString, rest)
        | String c' rest' =>
            if is_sign c' then
              let (xtrc, remains) := extract_digits found_mantissa found_dec true rest' in
              (String "e" (String c' xtrc), remains)
            else
              let (xtrc, remains) := extract_digits found_mantissa found_dec true rest in
              (String "e" xtrc, remains)
        end
      else (EmptyString, s)
  end.

Definition extract_float (s : string) : string * string :=
  let (sign, s1) := extract_sign s in
  let zero := starts_with_zero s1 in
  let (digits, remains) := extract_digits zero false false (skip_zeros s1) in
  ((sign ++ (if zero then "0" else "") ++ digits)%string, remains).

(** strtod on the accumulated characters: the digits read so far as a
    number, how many they are, and what follows them. *)
Fixpoint read_digits (s : string) (value count : Z) : Z * Z * string :=
  match s with
  | String c rest =>
      if isdigit c then read_digits rest (10 * value + digit c) (count + 1)
      else (value, count, s)
  | EmptyString => (value, count, s)
  end.

Definition is_minus (sign : string) : bool :=
  match sign with
  | String c _ => (c =? "-")%char
  | EmptyString => false
  end.

(** The numeral strtod reads, if it reads all the characters (the test of
    __convert_to_v): a mantissa needs a digit, before or after its point,
    and an exponent needs one too. The result is the sign, the digits m of
    the mantissa and the exponent e of the value m * 10^e. *)
Definition numeral (xtrc : string) : option (bool * Z * Z) :=
  let (sign, s1) := extract_sign xtrc in
  let '(units, n_units, s2) := read_digits s1 0 0 in
  let '(m, n_decimals, s3) :=
    match s2 with
    | String c s2' => if is_point c then read_digits s2' units 0 else (units, 0%Z, s2)
    | EmptyString => (units, 0%Z, s2)
    end in
  if (n_units + n_decimals =? 0)%Z then None
  else
    match s3 with
    | EmptyString => Some (is_minus sign, m, (- n_decimals)%Z)
    | String c s4 =>
        if is_exponent c then
          let (esign, s5) := extract_sign s4 in
          let '(e, n_e, s6) := read_digits s5 0 0 in
          if (n_e =? 0)%Z then None
          else
            match s6 with
            | EmptyString =>
                Some (is_minus sign, m, ((if is_minus esign then - e else e) - n_decimals)%Z)
            | String _ _ => None
            end
        else None
    end.

Section Text.

Context {T : Type} `{Scalar T} `{Strtod T}.

(** file >> x, for a double x: the value and what remains of the stream,
    or a failure. *)
Definition get_double (s : string) : option (T * string) :=
  let (xtrc, remains) := extract_float (skipws s) in
  match numeral xtrc with
  | Some (negative, m, e) =>
      match strtod negative m e with
      | Some x => Some (x, remains)
      | None => None
      end
  | None => None
  end.

(** file >> comma, for the char comma. *)
Definition get_char (s : string) : option (ascii * string) :=
  match skipws s with
  | String c rest => Some (c, rest)
  | EmptyString => None
  end.

(** The loop condition file >> lambda >> comma >> n_real >> comma >> n_imag:
    the three numbers and what remains of the stream, or a failure. *)
Definition read_sample (s : string) : option (T * T * T * string) :=
  match get_double s with
  | Some (lambda, s1) =>
      match get_char s1 with
      | Some (_, s2) =>
          match get_double s2 with
          | Some (n_real, s3) =>
              match get_char s3 with
              | Some (_, s4) =>
                  match get_double s4 with
                  | Some (n_imag, s5) => Some (lambda, n_real, n_imag, s5)
                  | None => None
                  end
              | None => None
              end
          | None => None
          end
      | None => None
      end
  | None => None
  end.

(** The samples the loop of loadData extracts from a text, up to the first
    evaluation of its condition that fails. Every turn takes characters
    from the stream, so the loop has at most as many turns as the text has
    characters. *)
Fixpoint scan_loop (fuel : nat) (s : string) : list (T * T * T) :=
  match fuel with
  | O => []
  | S fuel' =>
      match read_sample s with
      | Some (lambda, n_real, n_imag, remains) =>
          (lambda, n_real, n_imag) :: scan_loop fuel' remains
      | None => []
      end
  end.

Definition scan (text : string) : list (T * T * T) :=
  scan_loop (String.length text) text.

(** The evaluations of the loop condition on a text. *)
Definition extractions (text : string) : list (Extraction T) := parsed (scan text).

(** loadData and the three programs on the text of the file; [None] is a
    file that cannot be opened. *)
Definition loadData_text (filename : string) (text : option string) (m : Material T)
    : Outcome (Material T * Summary T) :=
  loadData filename (option_map extractions text) m.

Definition main_text (cfg : Config T) (fuel : nat) (text : option string)
    : Outcome (option (FitResult T)) :=
  main cfg fuel (option_map extractions text).

Definition main_v2_text (plotLevel : PlotLevel) (cfg : Config T) (fuel : nat)
    (text : option string) : Outcome (option (Report T)) :=
  main_v2 plotLevel cfg fuel (option_map extractions text).

Definition main_v1_text (text : option string) : Outcome (list (PltCall T)) :=
  main_v1 (option_map extractions text).

End Text.

(** A text with every white-space character, line ends included, replaced
    by a space. *)
Fixpoint one_line (s : string) : string :=
  match s with
  | String c rest => String (if isspace c then " "%char else c) (one_line rest)
  | EmptyString => EmptyString
  end.

(** The end of a line. *)
Definition newline : string := String "010" EmptyString.



(** Exact arithmetic: the conjugate of a complex number, and the model
    matching a sample. *)
Definition cconj (z : complex R) : complex R :=
  {| real := real z; imag := (- imag z)%R |}.

(** The sum of the errors of the samples that pass the window test. *)
Definition sample_total (cfg : Config R) (eps_inf omega_p gamma : R)
    (samples : list (R * R * R)) : R :=
  fold_right Rplus 0%R
    (map (fun sample => sample_error eps_inf omega_p gamma
                          (fst (fst sample)) (snd (fst sample)) (snd sample))
         (in_window_samples cfg samples)).

Definition matches (eps_inf omega_p gamma : R) (sample : R * R * R) : Prop :=
  real (drude_eps (fst (fst sample)) eps_inf omega_p gamma) = snd (fst sample)
  /\ imag (drude_eps (fst (fst sample)) eps_inf omega_p gamma) = snd sample.

(** A search in exact arithmetic over two plasma frequencies and one
    damping rate, in units where the window is [0, 2]. *)
Definition small_config : Config R := {|
  eps_inf := 1%R;
  omega_min := 0%R;
  omega_max := 2%R;
  omega_p_min := 1%R;
  omega_p_max := 3%R;
  gamma_min := 1%R;
  gamma_max := 2%R;
  domega_p := 1%R;
  dgamma := 1%R
|}.

(** ** The order laws at the two instances *)

Lemma Rltb_true (x y : R) : Rltb x y = true <-> (x < y)%R.
Proof. unfold Rltb. destruct (Rlt_dec x y); split; intros; try lra; discriminate. Qed.

Lemma Rltb_false (x y : R) : Rltb x y = false <-> (y <= x)%R.
Proof. unfold Rltb. destruct (Rlt_dec x y); split; intros; try lra; try discriminate; reflexivity. Qed.

#[export] Instance R_order : ScalarOrder R.
Proof.
  split.
  - intros x. apply Rltb_false. lra.
  - intros x y z Hxy Hyz. cbn in *. apply Rltb_true in Hxy, Hyz. apply Rltb_true. lra.
  - change ((dec 0 0 <? dec 1 300)%dbl) with (Rltb (R_dec 0 0) (R_dec 1 300)).
    apply Rltb_true. unfold R_dec.
    change (0 <=? 0)%Z with true. change (0 <=? 300)%Z with true. cbv iota.
    apply IZR_lt. apply Z.ltb_lt. vm_compute. reflexivity.
Qed.

(** The comparison of binary64 values, on their specification. *)
Lemma SFltb_irrefl (x : spec_float) : SFltb x x = false.
Proof.
  unfold SFltb, SFcompare.
  destruct x as [s | s | | s m e]; try destruct s; try reflexivity;
    rewrite Z.compare_refl, Pos.compare_cont_refl; reflexivity.
Qed.

Lemma Pos_compare_cont_Eq_Lt_trans (p q r : positive) :
  Pos.compare_cont Eq p q = Lt -> Pos.compare_cont Eq q r = Lt ->
  Pos.compare_cont Eq p r = Lt.
Proof.
  change (Pos.compare_cont Eq p q) with (p ?= q)%positive.
  change (Pos.compare_cont Eq q r) with (q ?= r)%positive.
  change (Pos.compare_cont Eq p r) with (p ?= r)%positive.
  rewrite !Pos.compare_lt_iff. lia.
Qed.

Lemma Pos_compare_cont_Eq_Gt_trans (p q r : positive) :
  Pos.compare_cont Eq p q = Gt -> Pos.compare_cont Eq q r = Gt ->
  Pos.compare_cont Eq p r = Gt.
Proof.
  change (Pos.compare_cont Eq p q) with (p ?= q)%positive.
  change (Pos.compare_cont Eq q r) with (q ?= r)%positive.
  change (Pos.compare_cont Eq p r) with (p ?= r)%positive.
  rewrite !Pos.compare_gt_iff. lia.
Qed.

Lemma SFltb_trans (x y z : spec_float) :
  SFltb x y = true -> SFltb y z = true -> SFltb x z = true.
Proof.
  unfold SFltb, SFcompare.
  destruct x as [sx | sx | | sx mx ex], y as [sy | sy | | sy my ey],
           z as [sz | sz | | sz mz ez];
    try destruct sx; try destruct sy; try destruct sz;
    try discriminate; try reflexivity.
  - (* three negative finite numbers *)
    destruct (Z.compare_spec ex ey), (Z.compare_spec ey ez), (Z.compare_spec ex ez);
      subst; try discriminate; try reflexivity; try lia;
      rewrite ?Z.compare_refl in *.
    intros Hxy Hyz.
    destruct (Pos.compare_cont Eq mx my) eqn:E1; try discriminate.
    destruct (Pos.compare_cont Eq my mz) eqn:E2; try discriminate.
    rewrite (Pos_compare_cont_Eq_Gt_trans _ _ _ E1 E2). reflexivity.
  - (* three positive finite numbers *)
    destruct (Z.compare_spec ex ey), (Z.compare_spec ey ez), (Z.compare_spec ex ez);
      subst; try discriminate; try reflexivity; try lia;
      rewrite ?Z.compare_refl in *.
    intros Hxy Hyz.
    destruct (Pos.compare_cont Eq mx my) eqn:E1; try discriminate.
    destruct (Pos.compare_cont Eq my mz) eqn:E2; try discriminate.
    rewrite (Pos_compare_cont_Eq_Lt_trans _ _ _ E1 E2). reflexivity.
Qed.

#[export] Instance float_order : ScalarOrder float.
Proof.
  split.
  - intros x. cbn. rewrite ltb_spec. apply SFltb_irrefl.
  - intros x y z. cbn. rewrite !ltb_spec. apply SFltb_trans.
  - vm_compute. reflexivity.
Qed.

(** ** The literals of the source *)

(** In binary64 [dec] yields the doubles that the literals of the source
    denote. *)
Lemma binary64_literals :
  c = 2.99792458e8%float
  /\ pi = 3.1415%float
  /\ default_config
     = {| eps_inf := 4.3; omega_min := 1.5e15; omega_max := 4.0e15;
          omega_p_min := 1.0e15; omega_p_max := 3.0e16;
          gamma_min := 1.0e13; gamma_max := 1.5e14;
          domega_p := 0.05e15; dgamma := 0.1e13 |}%float
  /\ dec 0 0 = 0%float /\ dec 2 0 = 2%float /\ dec 1240 0 = 1240%float
  /\ dec 1 (-9) = 1e-9%float /\ dec 1 (-12) = 1e-12%float
  /\ dec 1 300 = 1e300%float.
Proof. repeat split; vm_compute; reflexivity. Qed.

(** In exact arithmetic it yields their decimal values. *)
Lemma exact_literals :
  c = 2.99792458e8%R
  /\ pi = 3.1415%R
  /\ default_config
     = {| eps_inf := 4.3; omega_min := 1.5e15; omega_max := 4.0e15;
          omega_p_min := 1.0e15; omega_p_max := 3.0e16;
          gamma_min := 1.0e13; gamma_max := 1.5e14;
          domega_p := 0.05e15; dgamma := 0.1e13 |}%R
  /\ dec 0 0 = 0%R /\ dec 2 0 = 2%R /\ dec 1240 0 = 1240%R
  /\ dec 1 (-9) = 1e-9%R /\ dec 1 (-12) = 1e-12%R.
Proof.
  unfold c, pi, default_config.
  apply conj; [| apply conj; [| apply conj; [f_equal | repeat apply conj]]];
    vm_compute; lra.
Qed.

Lemma dec_0_R : dec 0 0 = 0%R.
Proof. reflexivity. Qed.

Lemma dec_2_R : dec 2 0 = 2%R.
Proof. reflexivity. Qed.

Lemma dec_tiny_R : dec 1 (-12) = 1e-12%R.
Proof. vm_compute. lra. Qed.

(** ** The index loops of Material *)

Section IndexLoops.

Context {T : Type} `{Scalar T}.
Local Open Scope dbl_scope.

Lemma skipn_at (v : list T) (i : nat) :
  (i < length v)%nat -> skipn i v = at_ v i :: skipn (S i) v.
Proof.
  revert i. induction v as [| a v IH]; intros [| i] Hi; simpl in *; try lia.
  - reflexivity.
  - rewrite (IH i) by lia. reflexivity.
Qed.

Lemma skipn_combine_at (u v : list T) (i : nat) :
  (i < length u)%nat -> (i < length v)%nat ->
  skipn i (combine u v) = (at_ u i, at_ v i) :: skipn (S i) (combine u v).
Proof.
  revert v i. induction u as [| a u IH]; intros [| b v] [| i] Hu Hv;
    simpl in *; try lia.
  - reflexivity.
  - rewrite (IH v i) by lia. reflexivity.
Qed.

Lemma getOmega_loop_map (wl : list T) (todo i : nat) (omega : list T) :
  (i + todo = length wl)%nat ->
  getOmega_loop wl todo i omega
  = omega ++ map (fun lambda => (dec 2 0 * pi * c) / (lambda * dec 1 (-9))) (skipn i wl).
Proof.
  revert i omega. induction todo as [| todo IH]; intros i omega Hlen; simpl.
  - rewrite skipn_all2 by lia. simpl. now rewrite app_nil_r.
  - rewrite IH by lia. rewrite (skipn_at wl i) by lia. simpl.
    now rewrite <- app_assoc.
Qed.

Lemma getOmega_map (m : Material T) :
  getOmega m
  = map (fun lambda => (dec 2 0 * pi * c) / (lambda * dec 1 (-9))) (wavelength_ m).
Proof. unfold getOmega. now rewrite getOmega_loop_map. Qed.

Lemma getEnergy_loop_map (wl : list T) (todo i : nat) (energy : list T) :
  (i + todo = length wl)%nat ->
  getEnergy_loop wl todo i energy
  = energy ++ map (fun lambda => dec 1240 0 / lambda) (skipn i wl).
Proof.
  revert i energy. induction todo as [| todo IH]; intros i energy Hlen; simpl.
  - rewrite skipn_all2 by lia. simpl. now rewrite app_nil_r.
  - rewrite IH by lia. rewrite (skipn_at wl i) by lia. simpl.
    now rewrite <- app_assoc.
Qed.

Lemma getEnergy_map (m : Material T) :
  getEnergy m = map (fun lambda => dec 1240 0 / lambda) (wavelength_ m).
Proof. unfold getEnergy. now rewrite getEnergy_loop_map. Qed.

Lemma computeEpsilon_loop_map (n k : list T) (todo i : nat) (e_real e_imag : list T) :
  (i + todo = length n)%nat -> (i + todo = length k)%nat ->
  computeEpsilon_loop n k todo i e_real e_imag
  = (e_real ++ map (fun nk => fst nk * fst nk - snd nk * snd nk) (skipn i (combine n k)),
     e_imag ++ map (fun nk => dec 2 0 * fst nk * snd nk) (skipn i (combine n k))).
Proof.
  revert i e_real e_imag.
  induction todo as [| todo IH]; intros i e_real e_imag Hn Hk; simpl.
  - rewrite skipn_all2 by (rewrite length_combine; lia). simpl.
    now rewrite !app_nil_r.
  - rewrite IH by lia. rewrite (skipn_combine_at n k i) by lia. simpl.
    now rewrite <- !app_assoc.
Qed.

Lemma computeEpsilon_map (m : Material T) :
  well_formed m ->
  computeEpsilon m
  = (map (fun nk => fst nk * fst nk - snd nk * snd nk) (combine (n_ m) (k_ m)),
     map (fun nk => dec 2 0 * fst nk * snd nk) (combine (n_ m) (k_ m))).
Proof.
  intros [Hn Hk]. unfold computeEpsilon.
  rewrite computeEpsilon_loop_map by (simpl; lia). reflexivity.
Qed.

(** *** loadData *)

Lemma push_back_well_formed (m : Material T) (lambda n_real n_imag : T) :
  well_formed m -> well_formed (push_back m lambda n_real n_imag).
Proof.
  intros [Hn Hk]. split; simpl; rewrite !length_app; simpl; lia.
Qed.

Lemma loadData_loop_well_formed (file : list (Extraction T)) (m : Material T) :
  well_formed m -> well_formed (loadData_loop file m).
Proof.
  revert m. induction file as [| [lambda n_real n_imag |] rest IH]; intros m Hm; simpl.
  - exact Hm.
  - apply IH, push_back_well_formed, Hm.
  - exact Hm.
Qed.

Lemma mkMaterial_well_formed (name : string) : well_formed (mkMaterial (T:=T) name).
Proof. split; reflexivity. Qed.

(** Loading rows that all parse appends them, in order. *)
Lemma loadData_loop_parsed (rows : list (T * T * T)) (rest : list (Extraction T))
    (m : Material T) :
  loadData_loop (parsed rows ++ rest) m
  = loadData_loop rest
      {| name_ := name_ m;
         wavelength_ := wavelength_ m ++ map (fun r => fst (fst r)) rows;
         n_ := n_ m ++ map (fun r => snd (fst r)) rows;
         k_ := k_ m ++ map (fun r => snd r) rows |}.
Proof.
  revert m. induction rows as [| [[lambda n] k] rows IH]; intros m; simpl.
  - rewrite !app_nil_r. now destruct m.
  - rewrite IH. simpl. now rewrite <- !app_assoc.
Qed.

Lemma loadData_loop_fresh (name : string) (rows : list (T * T * T))
    (rest : list (Extraction T)) :
  loadData_loop (parsed rows ++ rest) (mkMaterial name)
  = loadData_loop rest (material_of name rows).
Proof. now rewrite loadData_loop_parsed. Qed.

(** Every file is a run of rows that parse, followed by nothing or by a
    malformed row and whatever comes after it. *)
Lemma file_shape (file : list (Extraction T)) :
  exists rows, file = parsed rows \/ exists rest, file = parsed rows ++ Malformed :: rest.
Proof.
  induction file as [| [lambda n k |] file [rows [IH | [rest IH]]]].
  - exists []. now left.
  - exists ((lambda, n, k) :: rows). left. now rewrite IH.
  - exists ((lambda, n, k) :: rows). right. exists rest. now rewrite IH.
  - exists []. right. now exists file.
  - exists []. right. now exists file.
Qed.

End IndexLoops.

(** ** The entries of the permittivity *)

Lemma computeEpsilon_at {T : Type} `{Scalar T} (m : Material T) (i : nat) :
  well_formed m -> (i < length (wavelength_ m))%nat ->
  at_ (fst (computeEpsilon m)) i
  = (at_ (n_ m) i * at_ (n_ m) i - at_ (k_ m) i * at_ (k_ m) i)%dbl
  /\ at_ (snd (computeEpsilon m)) i
     = (dec 2 0 * at_ (n_ m) i * at_ (k_ m) i)%dbl.
Proof.
  intros Hm Hi. rewrite (computeEpsilon_map m Hm). destruct Hm as [Hn Hk].
  assert (Hc : (i < length (combine (n_ m) (k_ m)))%nat)
    by (rewrite length_combine; lia).
  unfold at_. simpl fst. simpl snd. split.
  - set (f := fun nk : T * T => (fst nk * fst nk - snd nk * snd nk)%dbl).
    rewrite (nth_indep _ _ (f (dec 0 0, dec 0 0)))
      by (rewrite length_map; exact Hc).
    rewrite (map_nth f), combine_nth by lia. reflexivity.
  - set (f := fun nk : T * T => (dec 2 0 * fst nk * snd nk)%dbl).
    rewrite (nth_indep _ _ (f (dec 0 0, dec 0 0)))
      by (rewrite length_map; exact Hc).
    rewrite (map_nth f), combine_nth by lia. reflexivity.
Qed.

Lemma computeEpsilon_length {T : Type} `{Scalar T} (m : Material T) :
  well_formed m ->
  length (fst (computeEpsilon m)) = length (wavelength_ m)
  /\ length (snd (computeEpsilon m)) = length (wavelength_ m).
Proof.
  intros Hm. rewrite (computeEpsilon_map m Hm). destruct Hm as [Hn Hk].
  simpl. rewrite !length_map, length_combine. lia.
Qed.

(** ** The conversions (claim C7) *)

(** C7, as claimed, fails: with the program's pi = 3.1415 the angular
    frequency of a sample at 620 nm is 3038058086474193.5 rad/s, which is
    not 3.0377e15 to the digits given: it is more than 3e11 away. *)
Lemma getOmega_620_counterexample :
  getOmega (one_sample 620) = [3038058086474193.5%float]
  /\ within 5e10 3038058086474193.5 3.0377e15 = false
  /\ within 3e11 3038058086474193.5 3.0377e15 = false.
Proof. repeat split; vm_compute; reflexivity. Qed.

(** C7 (amended). For every material, the photon energies are 1240/lambda
    and the angular frequencies are 2 pi c / (lambda 1e-9) with the program's
    constants pi = 3.1415 and c = 2.99792458e8, one per sample and in order.
    In binary64, a sample at 620 nm has energy 2.0 eV exactly and angular
    frequency 3038058086474193.5 rad/s, which is 3.0381e15 to five digits;
    in exact arithmetic its angular frequency lies between 3.03805e15 and
    3.03806e15. *)
Theorem conversions_with_program_constants :
  (forall (T : Type) (ops : Scalar T) (m : Material T),
      getEnergy m = map (fun lambda => dec 1240 0 / lambda)%dbl (wavelength_ m)
      /\ getOmega m
         = map (fun lambda =>
                  (dec 2 0 * dec 31415 (-4) * dec 299792458 0) / (lambda * dec 1 (-9)))%dbl
               (wavelength_ m))
  /\ getEnergy (one_sample 620) = [2%float]
  /\ getOmega (one_sample 620) = [3038058086474193.5%float]
  /\ within 5e10 3038058086474193.5 3.0381e15 = true
  /\ (forall w : R,
         getOmega (material_of "Silver" [(620, 0.06, 4)]%R) = [w] ->
         (3.03805e15 < w < 3.03806e15)%R).
Proof.
  split; [| split; [| split; [| split]]]; try (vm_compute; reflexivity).
  - intros T ops m. split.
    + apply getEnergy_map.
    + apply getOmega_map.
  - intros w. rewrite getOmega_map. simpl. intros [= <-].
    unfold pi, c. cbn [dec add sub mul div R_scalar]. unfold R_dec. simpl.
    split; lra.
Qed.

(** ** The file as text: the loop over the stream *)

(** White space is no part of a numeral. *)
Lemma isspace_other (c : ascii) :
  isspace c = true ->
  isdigit c = false /\ is_sign c = false /\ is_point c = false
  /\ is_exponent c = false /\ is_zero c = false.
Proof.
  destruct c as [b0 b1 b2 b3 b4 b5 b6 b7].
  destruct b0, b1, b2, b3, b4, b5, b6, b7; vm_compute; intros Hc;
    try discriminate Hc; repeat split.
Qed.


Lemma skipws_head (s : string) (c : ascii) (rest : string) :
  skipws s = String c rest -> isspace c = false.
Proof.
  induction s as [| a s IH]; simpl; [discriminate |].
  destruct (isspace a) eqn:Ha; [exact IH |]. now intros [= <- _].
Qed.





(** The conversion of numerals to binary64 rounds to nearest, ties to even,
    keeps the sign of a zero, and fails on overflow only. *)
Lemma float_strtod_examples :
  map (fun s => option_map fst (get_double (T:=float) s))
    ["0.05"; "0.06"; "2.1"; "6.3"; "1e200"; "1E308"; "4.9e-324"; "2e-324";
     "9007199254740993"; "-0"; "+.5"; "007."; "1e309"; "-1e309"; "1e"; "."; "inf";
     "nan"; "0x10"; ""]%string
  = [Some 0.05; Some 0.06; Some 2.1; Some 6.3; Some 1e200; Some 1e308;
     Some 4.9e-324; Some 0; Some 9007199254740992; Some neg_zero; Some 0.5; Some 7;
     None; None; None; None; None; None; Some 0; None]%float.
Proof. vm_compute. reflexivity. Qed.

Section TextLoop.

Context {T : Type} `{Scalar T} `{Strtod T}.




Lemma read_sample_empty : read_sample EmptyString = None.
Proof. reflexivity. Qed.



End TextLoop.

(** *** Line ends are white space like any other *)

Lemma one_line_length (s : string) : String.length (one_line s) = String.length s.
Proof. induction s as [| c s IH]; simpl; [reflexivity | now rewrite IH]. Qed.

Lemma one_line_cons (c : ascii) (s : string) :
  isspace c = false -> one_line (String c s) = String c (one_line s).
Proof. intros Hc. simpl. now rewrite Hc. Qed.

Lemma one_line_space (c : ascii) (s : string) :
  isspace c = true -> one_line (String c s) = String " " (one_line s).
Proof. intros Hc. simpl. now rewrite Hc. Qed.

Lemma skipws_one_line (s : string) : skipws (one_line s) = one_line (skipws s).
Proof.
  induction s as [| c s IH]; [reflexivity |].
  destruct (isspace c) eqn:Hc.
  - rewrite one_line_space by exact Hc. cbn [skipws]. rewrite Hc.
    change (isspace " ") with true. cbv iota. exact IH.
  - rewrite one_line_cons by exact Hc. cbn [skipws]. rewrite Hc.
    now rewrite one_line_cons.
Qed.

Lemma extract_sign_one_line (s : string) :
  extract_sign (one_line s)
  = (fst (extract_sign s), one_line (snd (extract_sign s))).
Proof.
  destruct s as [| c s]; [reflexivity |].
  destruct (isspace c) eqn:Hc.
  - destruct (isspace_other c Hc) as (_ & Hsign & _).
    rewrite one_line_space by exact Hc. cbn [extract_sign]. rewrite Hsign.
    change (is_sign " ") with false. cbv iota. cbn [fst snd].
    now rewrite one_line_space.
  - rewrite one_line_cons by exact Hc. cbn [extract_sign].
    destruct (is_sign c); cbn [fst snd]; [reflexivity | now rewrite one_line_cons].
Qed.

Lemma skip_zeros_one_line (s : string) : skip_zeros (one_line s) = one_line (skip_zeros s).
Proof.
  induction s as [| c s IH]; [reflexivity |].
  destruct (isspace c) eqn:Hc.
  - destruct (isspace_other c Hc) as (_ & _ & _ & _ & Hzero).
    rewrite one_line_space by exact Hc. cbn [skip_zeros]. rewrite Hzero.
    change (is_zero " ") with false. cbv iota. now rewrite one_line_space.
  - rewrite one_line_cons by exact Hc. cbn [skip_zeros].
    destruct (is_zero c); [exact IH | now rewrite one_line_cons].
Qed.

Lemma starts_with_zero_one_line (s : string) :
  starts_with_zero (one_line s) = starts_with_zero s.
Proof.
  destruct s as [| c s]; [reflexivity |].
  destruct (isspace c) eqn:Hc.
  - destruct (isspace_other c Hc) as (_ & _ & _ & _ & Hzero).
    rewrite one_line_space by exact Hc. cbn [starts_with_zero]. now rewrite Hzero.
  - now rewrite one_line_cons.
Qed.

Lemma extract_digits_stops (found_mantissa found_dec found_sci : bool)
    (c : ascii) (s : string) :
  isspace c = true ->
  extract_digits found_mantissa found_dec found_sci (String c s)
  = (EmptyString, String c s).
Proof.
  intros Hc. destruct (isspace_other c Hc) as (Hdigit & _ & Hpoint & Hexp & _).
  cbn [extract_digits]. now rewrite Hdigit, Hpoint, Hexp.
Qed.

Lemma extract_digits_one_line (n : nat) :
  forall (s : string) (found_mantissa found_dec found_sci : bool),
    (String.length s <= n)%nat ->
    extract_digits found_mantissa found_dec found_sci (one_line s)
    = (fst (extract_digits found_mantissa found_dec found_sci s),
       one_line (snd (extract_digits found_mantissa found_dec found_sci s))).
Proof.
  induction n as [| n IH]; intros s fm fd fs Hn.
  - destruct s; [reflexivity | simpl in Hn; lia].
  - destruct s as [| c rest]; [reflexivity |]. simpl in Hn.
    destruct (isspace c) eqn:Hc.
    { rewrite one_line_space by exact Hc.
      rewrite !extract_digits_stops by (exact Hc || reflexivity).
      cbn [fst snd]. now rewrite one_line_space. }
    rewrite one_line_cons by exact Hc. cbn [extract_digits].
    destruct (isdigit c).
    { rewrite (IH rest) by lia.
      destruct (extract_digits true fd fs rest). reflexivity. }
    destruct (is_point c && negb fd && negb fs).
    { rewrite (IH rest) by lia.
      destruct (extract_digits fm true fs rest). reflexivity. }
    destruct (is_exponent c && negb fs && fm).
    2:{ cbn [fst snd]. now rewrite one_line_cons. }
    destruct rest as [| c' rest']; [reflexivity |].
    destruct (isspace c') eqn:Hc'.
    + destruct (isspace_other c' Hc') as (_ & Hsign & _).
      rewrite one_line_space by exact Hc'.
      rewrite Hsign. change (is_sign " ") with false. cbv iota.
      rewrite !extract_digits_stops by (exact Hc' || reflexivity).
      cbn [fst snd]. now rewrite one_line_space.
    + rewrite one_line_cons by exact Hc'.
      destruct (is_sign c').
      * simpl in Hn. rewrite (IH rest') by lia.
        destruct (extract_digits fm fd true rest'). reflexivity.
      * rewrite <- (one_line_cons c' rest') by exact Hc'.
        rewrite (IH (String c' rest')) by lia.
        destruct (extract_digits fm fd true (String c' rest')). reflexivity.
Qed.

Lemma extract_float_one_line (s : string) :
  extract_float (one_line s)
  = (fst (extract_float s), one_line (snd (extract_float s))).
Proof.
  unfold extract_float. rewrite extract_sign_one_line.
  destruct (extract_sign s) as [sign s1]. cbn [fst snd].
  rewrite starts_with_zero_one_line, skip_zeros_one_line.
  rewrite (extract_digits_one_line _ _ _ _ _ (Nat.le_refl _)).
  destruct (extract_digits (starts_with_zero s1) false false (skip_zeros s1)).
  reflexivity.
Qed.

Section OneLine.

Context {T : Type} `{Scalar T} `{Strtod T}.

Lemma get_double_one_line (s : string) :
  get_double (one_line s)
  = match get_double s with
    | Some (x, remains) => Some (x, one_line remains)
    | None => None
    end.
Proof.
  unfold get_double. rewrite skipws_one_line, extract_float_one_line.
  destruct (extract_float (skipws s)) as [xtrc remains]. cbn [fst snd].
  destruct (numeral xtrc) as [[[negative m] e] |]; [| reflexivity].
  destruct (strtod negative m e); reflexivity.
Qed.

Lemma get_char_one_line (s : string) :
  get_char (one_line s)
  = match get_char s with
    | Some (c, remains) => Some (c, one_line remains)
    | None => None
    end.
Proof.
  unfold get_char. rewrite skipws_one_line.
  destruct (skipws s) as [| c rest] eqn:Hs; [reflexivity |].
  apply skipws_head in Hs. now rewrite one_line_cons.
Qed.

Lemma read_sample_one_line (s : string) :
  read_sample (one_line s)
  = match read_sample s with
    | Some (lambda, n_real, n_imag, remains) =>
        Some (lambda, n_real, n_imag, one_line remains)
    | None => None
    end.
Proof.
  unfold read_sample. rewrite get_double_one_line.
  destruct (get_double s) as [[x1 s1] |]; [| reflexivity].
  rewrite get_char_one_line.
  destruct (get_char s1) as [[c2 s2] |]; [| reflexivity].
  rewrite get_double_one_line.
  destruct (get_double s2) as [[x3 s3] |]; [| reflexivity].
  rewrite get_char_one_line.
  destruct (get_char s3) as [[c4 s4] |]; [| reflexivity].
  rewrite get_double_one_line.
  destruct (get_double s4) as [[x5 s5] |]; reflexivity.
Qed.

Lemma scan_loop_one_line (fuel : nat) (s : string) :
  scan_loop fuel (one_line s) = scan_loop fuel s.
Proof.
  revert s. induction fuel as [| fuel IH]; intros s; [reflexivity |].
  cbn [scan_loop]. rewrite read_sample_one_line.
  destruct (read_sample s) as [[[[lambda n_real] n_imag] remains] |]; [| reflexivity].
  now rewrite IH.
Qed.

Lemma scan_one_line (text : string) : scan (one_line text) = scan text.
Proof. unfold scan. now rewrite one_line_length, scan_loop_one_line. Qed.

End OneLine.

(** ** loadData (claims C8, C9 and C10) *)

Lemma loadData_fresh {T : Type} `{Scalar T} (filename name : string)
    (row : T * T * T) (rows : list (T * T * T)) (rest : list (Extraction T)) :
  loadData_loop rest (material_of name (row :: rows)) = material_of name (row :: rows) ->
  loadData filename (Some (parsed (row :: rows) ++ rest)) (mkMaterial name)
  = Returned (material_of name (row :: rows), summary_of name row rows).
Proof.
  intros Hrest. unfold loadData. rewrite loadData_loop_fresh, Hrest.
  unfold summary_of. simpl. now rewrite length_map.
Qed.

(** loadData on a text stores the samples its loop extracts. *)
Lemma loadData_text_scan {T : Type} `{Scalar T} `{Strtod T} (filename name : string)
    (text : string) :
  loadData_text filename (Some text) (mkMaterial name)
  = match scan text with
    | [] => Undefined
    | row :: rows => Returned (material_of name (row :: rows), summary_of name row rows)
    end.
Proof.
  unfold loadData_text, extractions. cbn [option_map].
  destruct (scan text) as [| row rows]; [reflexivity |].
  rewrite <- (app_nil_r (parsed (row :: rows))). now apply loadData_fresh.
Qed.

(** C8, as claimed, fails: a row with wavelength zero is loaded, and so is
    one with a negative wavelength; the energy and the angular frequency of
    the former are then infinite. *)
Lemma loadData_zero_wavelength_counterexample :
  loadData_text "data/Ag_Palik_400-900nm.txt" (Some "0,0.06,4.0"%string)
    (mkMaterial "Silver")
  = Returned (one_sample 0,
              {| points := 1; material := "Silver"; front_nm := 0%float;
                 back_nm := 0%float |})
  /\ getEnergy (one_sample 0) = [infinity]
  /\ getOmega (one_sample 0) = [infinity]
  /\ loadData_text "data/Ag_Palik_400-900nm.txt" (Some "-620,0.06,4.0"%string)
       (mkMaterial "Silver")
     = Returned (one_sample (-620),
                 {| points := 1; material := "Silver"; front_nm := (-620)%float;
                    back_nm := (-620)%float |}).
Proof. repeat split; vm_compute; reflexivity. Qed.

(** C8 (amended). loadData does not look at the wavelength: the samples its
    loop extracts are all stored as they are, in order, whatever their
    wavelengths (zero and negative ones too), and no error is raised at load
    time. In binary64, a sample of wavelength zero gets an infinite energy
    and angular frequency with the sign of the zero: +Infinity for 0, and
    -Infinity for the -0 that the text -0 gives. *)
Theorem loadData_stores_any_wavelength :
  (forall (T : Type) (ops : Scalar T) (filename name : string)
          (row : T * T * T) (rows : list (T * T * T)),
      loadData filename (Some (parsed (row :: rows))) (mkMaterial name)
      = Returned (material_of name (row :: rows), summary_of name row rows))
  /\ (forall (T : Type) (ops : Scalar T) (conversion : Strtod T)
             (filename name text : string),
         (forall what, loadData_text filename (Some text) (mkMaterial name) <> Thrown what)
         /\ (forall Ag summary,
                loadData_text filename (Some text) (mkMaterial name)
                = Returned (Ag, summary) ->
                Ag = material_of name (scan text)))
  /\ (forall (name : string) (n k : float),
         getEnergy (material_of name [(0%float, n, k)]) = [infinity]
         /\ getOmega (material_of name [(0%float, n, k)]) = [infinity]
         /\ getEnergy (material_of name [(neg_zero, n, k)]) = [neg_infinity]
         /\ getOmega (material_of name [(neg_zero, n, k)]) = [neg_infinity])
  /\ scan "-0,0.06,4.0" = [(neg_zero, 0.06%float, 4.0%float)].
Proof.
  split; [| split; [| split]].
  - intros T ops filename name row rows.
    rewrite <- (app_nil_r (parsed (row :: rows))).
    now apply loadData_fresh.
  - intros T ops conversion filename name text. rewrite loadData_text_scan.
    destruct (scan text) as [| row rows]; split; try discriminate.
    intros Ag summary [= <- _]. reflexivity.
  - intros name n k. repeat split; vm_compute; reflexivity.
  - vm_compute. reflexivity.
Qed.



(** C10. On a file that opens, loadData runs into the undefined front() of
    an empty vector exactly when no row parses (the file is empty, or its
    first row is malformed); it does not throw. When the first row parses,
    it returns, and the summary it prints starts at that row's wavelength. *)
Theorem loadData_without_rows_is_undefined {T : Type} `{Scalar T}
    (filename name : string) (file : list (Extraction T)) :
  (loadData filename (Some file) (mkMaterial name) = Undefined
   <-> file = [] \/ exists rest, file = Malformed :: rest)
  /\ (forall what, loadData filename (Some file) (mkMaterial name) <> Thrown what)
  /\ (forall lambda n_real n_imag rest,
         file = Row lambda n_real n_imag :: rest ->
         exists Ag summary,
           loadData filename (Some file) (mkMaterial name) = Returned (Ag, summary)
           /\ wavelength_ Ag <> []
           /\ points summary = length (wavelength_ Ag)
           /\ front_nm summary = lambda).
Proof.
  split; [| split].
  - destruct (file_shape file) as [rows [-> | [rest ->]]].
    + destruct rows as [| row rows].
      * split; [now left | reflexivity].
      * rewrite <- (app_nil_r (parsed (row :: rows))).
        rewrite loadData_fresh by reflexivity. rewrite app_nil_r.
        split; [discriminate |]. intros [Hnil | [rest Hmal]]; discriminate.
    + destruct rows as [| row rows].
      * split; [right; now exists rest | reflexivity].
      * rewrite loadData_fresh by reflexivity.
        split; [discriminate |]. intros [Hnil | [rest' Hmal]]; discriminate.
  - intros what. unfold loadData.
    destruct (wavelength_ (loadData_loop file (mkMaterial name))); discriminate.
  - intros lambda n_real n_imag rest ->.
    destruct (file_shape rest) as [rows [-> | [rest' ->]]].
    + change (Row lambda n_real n_imag :: parsed rows)
        with (parsed ((lambda, n_real, n_imag) :: rows)).
      rewrite <- (app_nil_r (parsed _)). rewrite loadData_fresh by reflexivity.
      do 2 eexists. split; [reflexivity |]. simpl. rewrite length_map.
      repeat split. discriminate.
    + change (Row lambda n_real n_imag :: parsed rows ++ Malformed :: rest')
        with (parsed ((lambda, n_real, n_imag) :: rows) ++ Malformed :: rest').
      rewrite loadData_fresh by reflexivity.
      do 2 eexists. split; [reflexivity |]. simpl. rewrite length_map.
      repeat split. discriminate.
Qed.

(** ** The Drude model in exact arithmetic (claim C4) *)

Lemma denominator_nonzero (a b : R) : ~ (a = 0 /\ b = 0)%R -> (a * a + b * b <> 0)%R.
Proof.
  intros Hab Hsum. apply Hab.
  assert (0 <= a * a)%R by nra. assert (0 <= b * b)%R by nra.
  split; nra.
Qed.

(** C4. For real omega, epsInf, omegaP, gamma such that the denominator
    d = omega^2 + i gamma omega is not zero, drude_eps returns
    epsInf - omegaP^2 / d exactly: the quotient q it subtracts is the one
    complex number with q * d = omegaP^2, and the two parts of the result are
    those of the closed formula. *)
Theorem drude_eps_formula (omega epsInf omegaP gamma : R) :
  ~ (omega * omega = 0 /\ gamma * omega = 0)%R ->
  let d := {| real := omega * omega; imag := gamma * omega |}%R in
  let D := (omega * omega * (omega * omega) + gamma * omega * (gamma * omega))%R in
  exists q : complex R,
    cmul q d = {| real := omegaP * omegaP; imag := 0 |}%R
    /\ (forall q', cmul q' d = {| real := omegaP * omegaP; imag := 0 |}%R -> q' = q)
    /\ drude_eps omega epsInf omegaP gamma
       = {| real := epsInf - real q; imag := - imag q |}%R
    /\ real (drude_eps omega epsInf omegaP gamma)
       = (epsInf - omegaP * omegaP * (omega * omega) / D)%R
    /\ imag (drude_eps omega epsInf omegaP gamma)
       = (omegaP * omegaP * (gamma * omega) / D)%R.
Proof.
  intros Hd d D.
  assert (HD : D <> 0%R) by (apply denominator_nonzero, Hd).
  exists (rdivc (omegaP * omegaP)%R d).
  unfold drude_eps, rsubc, cmul, rdivc, cdiv, d. cbn. rewrite ?dec_0_R.
  unfold D in *. clear D.
  split; [| split; [| split; [| split]]].
  - f_equal; field; exact HD.
  - intros [qr qi]. cbn.
    intros [= Hre Him].
    pose proof (f_equal (Rmult (omega * omega)) Hre) as Hre1.
    pose proof (f_equal (Rmult (gamma * omega)) Hre) as Hre2.
    pose proof (f_equal (Rmult (omega * omega)) Him) as Him1.
    pose proof (f_equal (Rmult (gamma * omega)) Him) as Him2.
    f_equal.
    + apply (Rmult_eq_reg_r
               (omega * omega * (omega * omega) + gamma * omega * (gamma * omega))%R);
        [| exact HD].
      transitivity (omegaP * omegaP * (omega * omega))%R; [nra | field; exact HD].
    + apply (Rmult_eq_reg_r
               (omega * omega * (omega * omega) + gamma * omega * (gamma * omega))%R);
        [| exact HD].
      transitivity (- (omegaP * omegaP * (gamma * omega)))%R; [nra | field; exact HD].
  - reflexivity.
  - field; exact HD.
  - field; exact HD.
Qed.

Lemma drude_eps_formula_witness :
  real (drude_eps 2e15%R 4.3%R 1e16%R 1e13%R)
  = (4.3 - 1e16 * 1e16 * (2e15 * 2e15)
           / (2e15 * 2e15 * (2e15 * 2e15) + 1e13 * 2e15 * (1e13 * 2e15)))%R.
Proof.
  destruct (drude_eps_formula 2e15%R 4.3%R 1e16%R 1e13%R)
    as (q & _ & _ & _ & Hreal & _).
  - intros [Hzero _]. lra.
  - exact Hreal.
Defined.

(** ** The Drude model at omega = 0 (claim C5) *)

Lemma SFmul_zero_or_nan (x y : spec_float) :
  zero_or_nan y -> zero_or_nan (SF64mul x y).
Proof. destruct x, y; simpl; tauto. Qed.

Lemma SFadd_zero_or_nan (x y : spec_float) :
  zero_or_nan x -> zero_or_nan y -> zero_or_nan (SF64add x y).
Proof.
  destruct x as [sx | | |], y as [sy | | |]; simpl; try tauto.
  intros _ _. now destruct sx, sy.
Qed.

Lemma SFsub_zero_or_nan (x y : spec_float) :
  zero_or_nan x -> zero_or_nan y -> zero_or_nan (SF64sub x y).
Proof.
  destruct x as [sx | | |], y as [sy | | |]; simpl; try tauto.
  intros _ _. now destruct sx, sy.
Qed.

Lemma SFdiv_zero_or_nan (x y : spec_float) :
  zero_or_nan x -> zero_or_nan y -> SF64div x y = S754_nan.
Proof. destruct x, y; simpl; tauto. Qed.

Lemma is_nan_of_spec (x : float) : Prim2SF x = S754_nan -> is_nan x = true.
Proof.
  intros Hx. rewrite <- (SF2Prim_Prim2SF x), Hx. reflexivity.
Qed.

Lemma zero_spec : zero_or_nan (Prim2SF 0%float).
Proof. vm_compute. exact I. Qed.

(** The quotient of the model at omega = 0: its imaginary part is a zero (or
    NaN) divided by a zero (or NaN). *)
Lemma drude_quotient_at_zero (omega_p gamma : float) :
  Prim2SF (imag (rdivc (omega_p * omega_p)%float
                   {| real := (0 * 0)%float; imag := (gamma * 0)%float |}))
  = S754_nan.
Proof.
  unfold rdivc, cdiv. cbn [real imag add sub mul div dec float_scalar].
  change (float_dec 0 0) with 0%float.
  rewrite div_spec. apply SFdiv_zero_or_nan.
  - rewrite sub_spec. apply SFsub_zero_or_nan.
    + rewrite mul_spec. apply SFmul_zero_or_nan.
      rewrite mul_spec. apply SFmul_zero_or_nan, zero_spec.
    + rewrite mul_spec. apply SFmul_zero_or_nan.
      rewrite mul_spec. apply SFmul_zero_or_nan, zero_spec.
  - rewrite add_spec. apply SFadd_zero_or_nan.
    + rewrite mul_spec. apply SFmul_zero_or_nan.
      rewrite mul_spec. apply SFmul_zero_or_nan, zero_spec.
    + rewrite mul_spec. apply SFmul_zero_or_nan.
      rewrite mul_spec. apply SFmul_zero_or_nan, zero_spec.
Qed.

(** C5, as claimed, fails: at omega = 0 with gamma = 1e13 > 0 the result is
    not eps_inf = 4.3; its imaginary part is not a number. *)
Lemma drude_eps_at_zero_counterexample :
  PrimFloat.ltb 0 1e13 = true
  /\ is_nan (imag (drude_eps 0 4.3 1e16 1e13)%float) = true
  /\ drude_eps 0%float 4.3%float 1e16%float 1e13%float
     <> {| real := 4.3%float; imag := 0%float |}.
Proof.
  split; [vm_compute; reflexivity | split; [vm_compute; reflexivity |]].
  intros Heq. apply (f_equal (fun z => is_nan (imag z))) in Heq.
  vm_compute in Heq. discriminate.
Qed.

(** C5 (amended). drude_eps has no case for omega = 0: it divides
    omega_p^2 by the complex zero there as everywhere else. In binary64
    the imaginary part of the result is then not a number, for every
    eps_inf, omega_p and gamma; so the result is never eps_inf. *)
Theorem drude_eps_at_zero_is_nan (eps_inf omega_p gamma : float) :
  is_nan (imag (drude_eps 0%float eps_inf omega_p gamma)) = true
  /\ drude_eps 0%float eps_inf omega_p gamma
     <> {| real := eps_inf; imag := 0%float |}.
Proof.
  assert (Hnan : is_nan (imag (drude_eps 0%float eps_inf omega_p gamma)) = true).
  { apply is_nan_of_spec. unfold drude_eps, rsubc.
    cbn [real imag opp mul float_scalar].
    rewrite opp_spec.
    pose proof (drude_quotient_at_zero omega_p gamma) as Hq.
    cbn [mul float_scalar] in Hq. rewrite Hq. reflexivity. }
  split; [exact Hnan |].
  intros Heq. rewrite Heq in Hnan. simpl in Hnan. vm_compute in Hnan. discriminate.
Qed.

(** ** computeError outside the window *)

Section NoContribution.

Context {T : Type} `{Scalar T}.
Local Open Scope dbl_scope.

Lemma at_In (v : list T) (i : nat) : (i < length v)%nat -> In (at_ v i) v.
Proof. intros Hi. unfold at_. now apply nth_In. Qed.

(** A sample that fails the test of the loop is skipped. *)
Lemma computeError_loop_skips (cfg : Config T) (omega : list T)
    (eps_inf omega_p gamma : T) (eps1_data eps2_data : list T) (todo i : nat) (error : T) :
  (forall w, In w omega -> contributes cfg w = false) ->
  (i + todo <= length omega)%nat ->
  computeError_loop cfg omega eps_inf omega_p gamma eps1_data eps2_data todo i error
  = error.
Proof.
  intros Hout. revert i error.
  induction todo as [| todo IH]; intros i error Hlen; simpl; [reflexivity |].
  assert (Hi : contributes cfg (at_ omega i) = false) by (apply Hout, at_In; lia).
  unfold contributes in Hi. apply negb_false_iff in Hi. rewrite Hi.
  apply IH. lia.
Qed.

Lemma computeError_outside_window (cfg : Config T) (omega : list T)
    (eps_inf omega_p gamma : T) (eps1_data eps2_data : list T) :
  (forall w, In w omega -> contributes cfg w = false) ->
  computeError cfg omega eps_inf omega_p gamma eps1_data eps2_data = dec 0 0.
Proof. intros Hout. unfold computeError. apply computeError_loop_skips; auto. Qed.

Context `{!ScalarOrder T}.

(** Once the incumbent has error 0, points of error 0 do not replace it. *)
Lemma search_over_all_zero (cfg : Config T) (omega eps1_data eps2_data : list T)
    (points : list (T * T)) (best : FitResult T) :
  (forall q, point_error cfg omega eps1_data eps2_data q = dec 0 0) ->
  best_error best = dec 0 0 ->
  search_over cfg omega eps1_data eps2_data points best = best.
Proof.
  intros Hzero. revert best. induction points as [| q points IH]; intros best Hbest.
  - reflexivity.
  - unfold search_over in *. simpl. unfold try_point at 2.
    fold (point_error cfg omega eps1_data eps2_data q).
    rewrite Hzero, Hbest, ltb_irrefl. now apply IH.
Qed.

Lemma search_over_zero_window (cfg : Config T) (omega eps1_data eps2_data : list T)
    (points : list (T * T)) :
  (forall q, point_error cfg omega eps1_data eps2_data q = dec 0 0) ->
  search_over cfg omega eps1_data eps2_data points no_fit_yet
  = match points with
    | [] => no_fit_yet
    | pg :: _ => {| best_error := dec 0 0; best_omega_p := fst pg; best_gamma := snd pg |}
    end.
Proof.
  intros Hzero. destruct points as [| pg points]; [reflexivity |].
  unfold search_over. simpl. unfold try_point at 2.
  fold (point_error cfg omega eps1_data eps2_data pg).
  rewrite Hzero. simpl best_error. rewrite ltb_zero_huge.
  now apply search_over_all_zero.
Qed.

End NoContribution.

(** ** computeError in exact arithmetic *)

Section ExactError.

Local Open Scope R_scope.

Lemma contributes_in_windowb (cfg : Config R) (w : R) :
  contributes cfg w = in_windowb cfg w.
Proof.
  unfold contributes, in_windowb. cbn. unfold Rltb.
  destruct (Rlt_dec w (omega_min cfg)), (Rlt_dec (omega_max cfg) w),
           (Rle_dec (omega_min cfg) w), (Rle_dec w (omega_max cfg));
    simpl; try reflexivity; lra.
Qed.

Lemma in_windowb_true (cfg : Config R) (w : R) :
  in_windowb cfg w = true <-> in_window cfg w.
Proof.
  unfold in_windowb, in_window.
  destruct (Rle_dec (omega_min cfg) w), (Rle_dec w (omega_max cfg));
    split; intros; try lra; try discriminate; reflexivity.
Qed.

Lemma error_term_nonneg (omegas : list R) (epsInf omegaP gamma : R)
    (eps1Data eps2Data : list R) (i : nat) :
  0 <= error_term omegas epsInf omegaP gamma eps1Data eps2Data i.
Proof.
  unfold error_term.
  set (a := real _ - _). set (b := imag _ - _).
  set (e1 := nth i eps1Data 0). set (e2 := nth i eps2Data 0).
  apply Rmult_le_pos.
  - nra.
  - apply Rlt_le, Rinv_0_lt_compat. nra.
Qed.

Lemma computeError_loop_sum (cfg : Config R) (omega : list R)
    (eps_inf omega_p gamma : R) (eps1_data eps2_data : list R)
    (todo i : nat) (error : R) :
  computeError_loop cfg omega eps_inf omega_p gamma eps1_data eps2_data todo i error
  = error
    + fold_right Rplus 0
        (map (error_term omega eps_inf omega_p gamma eps1_data eps2_data)
             (filter (fun i => in_windowb cfg (nth i omega 0)) (seq i todo))).
Proof.
  revert i error. induction todo as [| todo IH]; intros i error.
  - simpl. lra.
  - cbn [computeError_loop seq filter].
    change (at_ omega i) with (nth i omega 0).
    pose proof (contributes_in_windowb cfg (nth i omega 0)) as Hc.
    unfold contributes in Hc.
    destruct (in_windowb cfg (nth i omega 0)).
    + apply negb_true_iff in Hc. rewrite Hc. rewrite IH.
      cbn [map fold_right]. unfold error_term at 2.
      change (at_ eps1_data i) with (nth i eps1_data 0).
      change (at_ eps2_data i) with (nth i eps2_data 0).
      rewrite dec_tiny_R. cbn [add sub mul div R_scalar]. lra.
    + apply negb_false_iff in Hc. rewrite Hc. apply IH.
Qed.

Lemma computeError_windowed_sum (cfg : Config R) (omega : list R)
    (eps_inf omega_p gamma : R) (eps1_data eps2_data : list R) :
  computeError cfg omega eps_inf omega_p gamma eps1_data eps2_data
  = windowed_error_sum cfg omega eps_inf omega_p gamma eps1_data eps2_data.
Proof.
  unfold computeError. rewrite computeError_loop_sum, dec_0_R.
  unfold windowed_error_sum. lra.
Qed.

Lemma sum_nonneg (f : nat -> R) (l : list nat) :
  (forall i, 0 <= f i) -> 0 <= fold_right Rplus 0 (map f l).
Proof.
  intros Hf. induction l as [| i l IH]; simpl; [lra |].
  specialize (Hf i). lra.
Qed.

Lemma filter_none {A : Type} (f : A -> bool) (l : list A) :
  (forall x, In x l -> f x = false) -> filter f l = [].
Proof.
  induction l as [| x l IH]; intros Hf; simpl; [reflexivity |].
  rewrite (Hf x) by now left. apply IH. intros y Hy. apply Hf. now right.
Qed.

End ExactError.

(** ** computeError in either arithmetic, and its sign in binary64 *)

(** computeError adds, in the order of the indices and starting from 0, the
    error of every sample that passes the window test. *)
Lemma computeError_loop_fold {T : Type} `{Scalar T} (cfg : Config T) (omega : list T)
    (eps_inf omega_p gamma : T) (eps1_data eps2_data : list T)
    (todo i : nat) (error : T) :
  computeError_loop cfg omega eps_inf omega_p gamma eps1_data eps2_data todo i error
  = fold_left (accumulate cfg omega eps_inf omega_p gamma eps1_data eps2_data)
      (seq i todo) error.
Proof.
  revert i error. induction todo as [| todo IH]; intros i error; [reflexivity |].
  cbn [computeError_loop seq fold_left]. unfold accumulate at 2, contributes.
  destruct ((at_ omega i <? omega_min cfg) || (at_ omega i >? omega_max cfg))%dbl;
    cbn [negb]; apply IH.
Qed.

Lemma computeError_fold {T : Type} `{Scalar T} (cfg : Config T) (omega : list T)
    (eps_inf omega_p gamma : T) (eps1_data eps2_data : list T) :
  computeError cfg omega eps_inf omega_p gamma eps1_data eps2_data
  = fold_left (accumulate cfg omega eps_inf omega_p gamma eps1_data eps2_data)
      (seq 0 (length omega)) (dec 0 0).
Proof. apply computeError_loop_fold. Qed.

Section Binary64Sign.

Lemma binary_round_aux_sign (mx ex : Z) (lx : location) :
  sign_clear (binary_round_aux prec emax false mx ex lx).
Proof.
  unfold binary_round_aux.
  destruct (shr_fexp prec emax mx ex lx) as [mrs' e'].
  destruct (shr_fexp prec emax _ e' loc_Exact) as [mrs'' e''].
  destruct (shr_m mrs''); simpl; auto.
  destruct (e'' <=? 971)%Z; reflexivity.
Qed.

Lemma binary_round_sign (mx : positive) (ex : Z) :
  sign_clear (binary_round prec emax false mx ex).
Proof.
  unfold binary_round. destruct (shl_align mx ex _) as [mz ez].
  apply binary_round_aux_sign.
Qed.

Lemma SFmul_square_sign (x : spec_float) : sign_clear (SF64mul x x).
Proof.
  destruct x as [s | s | | s m e]; try destruct s;
    try reflexivity; try exact I; apply binary_round_aux_sign.
Qed.

Lemma SFadd_sign (x y : spec_float) :
  sign_clear x -> sign_clear y -> sign_clear (SF64add x y).
Proof.
  destruct x as [sx | sx | | sx mx ex], y as [sy | sy | | sy my ey];
    simpl; intros Hx Hy; subst; simpl; auto.
  unfold SF64add, SFadd, cond_Zopp. cbn [binary_normalize Z.add].
  apply binary_round_sign.
Qed.

Lemma SFdiv_sign (x y : spec_float) :
  sign_clear x -> sign_clear y -> sign_clear (SF64div x y).
Proof.
  destruct x as [sx | sx | | sx mx ex], y as [sy | sy | | sy my ey];
    simpl; intros Hx Hy; subst; simpl; auto.
  unfold SF64div, SFdiv. destruct (SFdiv_core_binary _ _ _ _ _ _) as [[mz ez] lz].
  apply binary_round_aux_sign.
Qed.

Lemma sign_clear_not_negative (x : float) :
  sign_clear (Prim2SF x) -> PrimFloat.ltb x 0 = false.
Proof.
  rewrite ltb_spec. change (Prim2SF 0) with (S754_zero false).
  destruct (Prim2SF x) as [s | s | | s m e]; simpl; intros Hs; subst; reflexivity.
Qed.

Lemma sample_error_sign (eps_inf omega_p gamma w e1 e2 : float) :
  sign_clear (Prim2SF (sample_error eps_inf omega_p gamma w e1 e2)).
Proof.
  unfold sample_error. cbn [add sub mul div dec float_scalar].
  rewrite div_spec. apply SFdiv_sign.
  - rewrite add_spec. apply SFadd_sign; rewrite mul_spec; apply SFmul_square_sign.
  - rewrite add_spec. apply SFadd_sign.
    + rewrite add_spec. apply SFadd_sign; rewrite mul_spec; apply SFmul_square_sign.
    + vm_compute. reflexivity.
Qed.

(** In binary64 computeError never returns a negative number: the result
    has its sign bit clear, or it is not a number (when the data overflow). *)
Lemma computeError_not_negative (cfg : Config float) (omega : list float)
    (eps_inf omega_p gamma : float) (eps1_data eps2_data : list float) :
  PrimFloat.ltb (computeError cfg omega eps_inf omega_p gamma eps1_data eps2_data) 0
  = false.
Proof.
  apply sign_clear_not_negative. rewrite computeError_fold.
  assert (Hzero : sign_clear (Prim2SF (dec 0 0))) by (vm_compute; reflexivity).
  revert Hzero. generalize (dec 0 0 : float). generalize (seq 0 (length omega)).
  intros l. induction l as [| i l IH]; intros error Herror; simpl; [exact Herror |].
  apply IH. unfold accumulate. destruct (contributes cfg (at_ omega i)); [| exact Herror].
  cbn [add float_scalar]. rewrite add_spec. apply SFadd_sign; [exact Herror |].
  apply sample_error_sign.
Qed.

End Binary64Sign.

(** ** The comparisons of binary64 *)

Section Binary64Order.

Lemma is_nan_spec (x : float) :
  is_nan x = match Prim2SF x with S754_nan => true | _ => false end.
Proof.
  unfold is_nan. rewrite eqb_spec. unfold SFeqb, SFcompare.
  destruct (Prim2SF x) as [s | s | | s m e]; try destruct s; try reflexivity;
    rewrite Z.compare_refl, Pos.compare_cont_refl; reflexivity.
Qed.

Lemma SFcompare_swap (x y : spec_float) :
  SFcompare y x
  = match SFcompare x y with Some c => Some (CompOpp c) | None => None end.
Proof.
  unfold SFcompare.
  destruct x as [sx | sx | | sx mx ex], y as [sy | sy | | sy my ey];
    try destruct sx; try destruct sy; try reflexivity;
    rewrite (Z.compare_antisym ex ey);
    destruct (ex ?= ey)%Z; cbn [CompOpp]; try reflexivity;
    rewrite (Pos.compare_cont_antisym mx my Eq); reflexivity.
Qed.

Lemma SFcompare_none (x y : spec_float) :
  SFcompare x y = None -> x = S754_nan \/ y = S754_nan.
Proof.
  unfold SFcompare.
  destruct x as [sx | sx | | sx mx ex], y as [sy | sy | | sy my ey];
    try destruct sx; try destruct sy; try discriminate; auto.
Qed.

(** NaN is below nothing, and nothing is below it. *)
Lemma ltb_nan (x y : float) :
  is_nan x = true \/ is_nan y = true -> PrimFloat.ltb x y = false.
Proof.
  rewrite !is_nan_spec, ltb_spec. unfold SFltb, SFcompare.
  destruct (Prim2SF x) as [sx | sx | | sx mx ex], (Prim2SF y) as [sy | sy | | sy my ey];
    intros [Hnan | Hnan]; try discriminate Hnan; reflexivity.
Qed.

Lemma leb_nan (x y : float) :
  is_nan x = true \/ is_nan y = true -> PrimFloat.leb x y = false.
Proof.
  rewrite !is_nan_spec, leb_spec. unfold SFleb, SFcompare.
  destruct (Prim2SF x) as [sx | sx | | sx mx ex], (Prim2SF y) as [sy | sy | | sy my ey];
    intros [Hnan | Hnan]; try discriminate Hnan; reflexivity.
Qed.

(** On numbers, x < y is the negation of y <= x. *)
Lemma ltb_negb_leb (x y : float) :
  is_nan x = false -> is_nan y = false ->
  PrimFloat.ltb x y = negb (PrimFloat.leb y x).
Proof.
  rewrite !is_nan_spec, ltb_spec, leb_spec. unfold SFltb, SFleb.
  rewrite (SFcompare_swap (Prim2SF x) (Prim2SF y)). intros Hx Hy.
  destruct (SFcompare (Prim2SF x) (Prim2SF y)) as [[| |] |] eqn:Hc; try reflexivity.
  apply SFcompare_none in Hc. destruct Hc as [Hc | Hc]; rewrite Hc in *; discriminate.
Qed.

(** The test of computeError in binary64: it is passed by the angular
    frequencies of the window and by NaN. *)
Lemma contributes_binary64 (cfg : Config float) (w : float) :
  is_nan (omega_min cfg) = false -> is_nan (omega_max cfg) = false ->
  contributes cfg w = in_window64 cfg w || is_nan w.
Proof.
  intros Hmin Hmax. unfold contributes, in_window64. cbn [ltb float_scalar].
  destruct (is_nan w) eqn:Hw.
  - rewrite !ltb_nan by auto. rewrite orb_true_r. reflexivity.
  - rewrite !ltb_negb_leb by assumption. rewrite orb_false_r.
    destruct (PrimFloat.leb (omega_min cfg) w), (PrimFloat.leb w (omega_max cfg));
      reflexivity.
Qed.

(** A binary64 value that is a number and is not below zero. *)
Lemma leb_zero_spec (x : float) :
  PrimFloat.leb 0 x
  = match Prim2SF x with
    | S754_zero _ => true
    | S754_infinity s | S754_finite s _ _ => negb s
    | S754_nan => false
    end.
Proof.
  rewrite leb_spec. change (Prim2SF 0) with (S754_zero false).
  destruct (Prim2SF x) as [s | s | | s m e]; try destruct s; reflexivity.
Qed.

Lemma binary_round_aux_not_negative (mx ex : Z) (lx : location) :
  match binary_round_aux prec emax false mx ex lx with
  | S754_zero _ | S754_nan => True
  | S754_infinity s | S754_finite s _ _ => s = false
  end.
Proof.
  unfold binary_round_aux.
  destruct (shr_fexp prec emax mx ex lx) as [mrs' e'].
  destruct (shr_fexp prec emax _ e' loc_Exact) as [mrs'' e''].
  destruct (shr_m mrs''); simpl; auto.
  destruct (e'' <=? 971)%Z; reflexivity.
Qed.

(** The product of two numbers that are not below zero is not below zero,
    or it is not a number (zero times infinity). *)
Lemma mul_not_negative (x y : float) :
  PrimFloat.leb 0 x = true -> PrimFloat.leb 0 y = true ->
  PrimFloat.leb 0 (x * y) = true \/ is_nan (x * y) = true.
Proof.
  rewrite !leb_zero_spec, is_nan_spec, mul_spec. unfold SF64mul, SFmul.
  destruct (Prim2SF x) as [sx | sx | | sx mx ex], (Prim2SF y) as [sy | sy | | sy my ey];
    try destruct sx; try destruct sy; try discriminate; intros _ _; auto.
  pose proof (binary_round_aux_not_negative (Z.pos (mx * my)) (ex + ey) loc_Exact) as Hr.
  cbn [xorb].
  destruct (binary_round_aux prec emax false (Z.pos (mx * my)) (ex + ey) loc_Exact)
    as [s | s | | s m e]; try subst s; auto.
Qed.

Lemma not_below_zero (x : float) :
  PrimFloat.leb 0 x = true \/ is_nan x = true -> PrimFloat.ltb x 0 = false.
Proof.
  rewrite leb_zero_spec, is_nan_spec, ltb_spec. change (Prim2SF 0) with (S754_zero false).
  destruct (Prim2SF x) as [s | s | | s m e]; try destruct s;
    intros [Hx | Hx]; try discriminate Hx; reflexivity.
Qed.

End Binary64Order.

(** ** computeError as a sum (claim C2) *)

Lemma fold_left_filter {A B : Type} (p : B -> bool) (g : A -> B -> A) (l : list B) :
  forall a : A,
    fold_left (fun a i => if p i then g a i else a) l a = fold_left g (filter p l) a.
Proof.
  induction l as [| i l IH]; intros a; [reflexivity |].
  cbn [fold_left filter]. destruct (p i); apply IH.
Qed.

Lemma fold_left_ext_in {A B : Type} (f g : A -> B -> A) (l : list B) :
  (forall i, In i l -> forall a, f a i = g a i) ->
  forall a : A, fold_left f l a = fold_left g l a.
Proof.
  induction l as [| i l IH]; intros Hfg a; [reflexivity |].
  cbn [fold_left]. rewrite (Hfg i) by now left.
  apply IH. intros j Hj. apply Hfg. now right.
Qed.

Lemma computeError_in_order {T : Type} `{Scalar T} (cfg : Config T) (omegas : list T)
    (epsInf omegaP gamma : T) (eps1Data eps2Data : list T) :
  computeError cfg omegas epsInf omegaP gamma eps1Data eps2Data
  = error_in_order cfg omegas epsInf omegaP gamma eps1Data eps2Data.
Proof.
  rewrite computeError_fold. unfold error_in_order.
  rewrite <- (fold_left_filter (fun i => contributes cfg (at_ omegas i))).
  reflexivity.
Qed.

Lemma computeError_other_data {T : Type} `{Scalar T} (cfg : Config T) (omegas : list T)
    (epsInf omegaP gamma : T) (eps1Data eps2Data eps1Other eps2Other : list T) :
  (forall i, (i < length omegas)%nat -> contributes cfg (at_ omegas i) = true ->
             at_ eps1Other i = at_ eps1Data i /\ at_ eps2Other i = at_ eps2Data i) ->
  computeError cfg omegas epsInf omegaP gamma eps1Other eps2Other
  = computeError cfg omegas epsInf omegaP gamma eps1Data eps2Data.
Proof.
  intros Hsame. rewrite !computeError_fold. apply fold_left_ext_in.
  intros i Hi error. apply in_seq in Hi. unfold accumulate.
  destruct (contributes cfg (at_ omegas i)) eqn:Hc; [| reflexivity].
  destruct (Hsame i) as [-> ->]; [lia | exact Hc | reflexivity].
Qed.

(** C2, as claimed, fails in binary64. The row 500,1e200,1e200 loads, its
    angular frequency lies in the window, and the error of the data is NaN,
    which is not a non-negative number. And an angular frequency that is NaN
    does not lie in the window but passes the test of computeError: with no
    index in the window the error is then NaN, not 0. *)
Lemma computeError_nan_counterexample :
  let Ag := material_of "Silver" [(500, 1e200, 1e200)]%float in
  let error :=
    computeError default_config (getOmega Ag) 4.3%float 1e16%float 1e13%float
      (fst (computeEpsilon Ag)) (snd (computeEpsilon Ag)) in
  scan "500,1e200,1e200" = [(500, 1e200, 1e200)]%float
  /\ map (in_window64 default_config) (getOmega Ag) = [true]
  /\ is_nan error = true
  /\ PrimFloat.leb 0 error = false
  /\ in_window64 default_config nan = false
  /\ contributes default_config nan = true
  /\ is_nan (computeError default_config [nan] 4.3%float 1e16%float 1e13%float
               [1%float] [1%float]) = true.
Proof. repeat split; vm_compute; reflexivity. Qed.

(** C2 (amended). For angular frequencies with equally long eps1/eps2 data,
    computeError is the sum, taken in the order of the indices and in the
    arithmetic of the program, over exactly the indices that pass its test
    (neither omegas[i] < omega_min nor omegas[i] > omega_max), of the
    normalised squared residual of the model; it is 0 when no index passes
    the test, and the data at the indices that fail it do not matter.
    In exact arithmetic, where no angular frequency of the window is 0, the
    test is passed exactly inside [omega_min, omega_max], so the error is the
    sum over the window, it is not negative, and it is 0 when no index lies
    in the window.
    In binary64 the test is passed inside the window and by NaN; the error
    is never below zero, but it need not be a number. *)
Theorem computeError_is_windowed_sum :
  (forall (T : Type) (ops : Scalar T) (cfg : Config T) (omegas : list T)
          (epsInf omegaP gamma : T) (eps1Data eps2Data : list T),
      length eps1Data = length omegas -> length eps2Data = length omegas ->
      computeError cfg omegas epsInf omegaP gamma eps1Data eps2Data
      = error_in_order cfg omegas epsInf omegaP gamma eps1Data eps2Data
      /\ ((forall i, (i < length omegas)%nat -> contributes cfg (at_ omegas i) = false) ->
          computeError cfg omegas epsInf omegaP gamma eps1Data eps2Data = dec 0 0)
      /\ (forall eps1Other eps2Other : list T,
             length eps1Other = length omegas -> length eps2Other = length omegas ->
             (forall i, (i < length omegas)%nat -> contributes cfg (at_ omegas i) = true ->
                        at_ eps1Other i = at_ eps1Data i
                        /\ at_ eps2Other i = at_ eps2Data i) ->
             computeError cfg omegas epsInf omegaP gamma eps1Other eps2Other
             = computeError cfg omegas epsInf omegaP gamma eps1Data eps2Data))
  /\ (forall (cfg : Config R) (omegas : list R) (epsInf omegaP gamma : R)
             (eps1Data eps2Data : list R),
         length eps1Data = length omegas -> length eps2Data = length omegas ->
         (forall i, (i < length omegas)%nat -> in_window cfg (nth i omegas 0%R) ->
                    nth i omegas 0%R <> 0%R) ->
         (forall w, contributes cfg w = true <-> in_window cfg w)
         /\ computeError cfg omegas epsInf omegaP gamma eps1Data eps2Data
            = windowed_error_sum cfg omegas epsInf omegaP gamma eps1Data eps2Data
         /\ (0 <= computeError cfg omegas epsInf omegaP gamma eps1Data eps2Data)%R
         /\ ((forall i, (i < length omegas)%nat -> ~ in_window cfg (nth i omegas 0%R)) ->
             computeError cfg omegas epsInf omegaP gamma eps1Data eps2Data = 0%R)
         /\ (forall eps1Other eps2Other : list R,
                length eps1Other = length omegas -> length eps2Other = length omegas ->
                (forall i, (i < length omegas)%nat -> in_window cfg (nth i omegas 0%R) ->
                           nth i eps1Other 0%R = nth i eps1Data 0%R
                           /\ nth i eps2Other 0%R = nth i eps2Data 0%R) ->
                computeError cfg omegas epsInf omegaP gamma eps1Other eps2Other
                = computeError cfg omegas epsInf omegaP gamma eps1Data eps2Data))
  /\ (forall (cfg : Config float) (omegas : list float) (epsInf omegaP gamma : float)
             (eps1Data eps2Data : list float),
         length eps1Data = length omegas -> length eps2Data = length omegas ->
         PrimFloat.ltb (computeError cfg omegas epsInf omegaP gamma eps1Data eps2Data) 0
         = false
         /\ (forall w, is_nan (omega_min cfg) = false -> is_nan (omega_max cfg) = false ->
                       contributes cfg w = in_window64 cfg w || is_nan w)).
Proof.
  split; [| split].
  - intros T ops cfg omegas epsInf omegaP gamma eps1Data eps2Data _ _.
    split; [apply computeError_in_order | split].
    + intros Hout. apply computeError_outside_window.
      intros w Hw. destruct (In_nth _ _ (dec 0 0) Hw) as (i & Hi & <-).
      now apply Hout.
    + intros eps1Other eps2Other _ _. apply computeError_other_data.
  - intros cfg omegas epsInf omegaP gamma eps1Data eps2Data Hlen1 Hlen2 _.
    rewrite computeError_windowed_sum.
    split; [| split; [reflexivity | split; [| split]]].
    + intros w. rewrite contributes_in_windowb. apply in_windowb_true.
    + apply sum_nonneg. intros i. apply error_term_nonneg.
    + intros Hout. unfold windowed_error_sum. rewrite filter_none; [reflexivity |].
      intros i Hi. apply in_seq in Hi.
      destruct (in_windowb cfg (nth i omegas 0%R)) eqn:Hw; [| reflexivity].
      apply in_windowb_true in Hw. elim (Hout i); [lia | exact Hw].
    + intros eps1Other eps2Other _ _ Hsame. rewrite computeError_windowed_sum.
      unfold windowed_error_sum. f_equal. apply map_ext_in.
      intros i Hi. apply filter_In in Hi. destruct Hi as [Hi Hw].
      apply in_seq in Hi. apply in_windowb_true in Hw.
      destruct (Hsame i) as [H1 H2]; [lia | exact Hw |].
      unfold error_term. now rewrite H1, H2.
  - intros cfg omegas epsInf omegaP gamma eps1Data eps2Data _ _. split.
    + apply computeError_not_negative.
    + intros w. apply contributes_binary64.
Qed.

Lemma computeError_is_windowed_sum_witness :
  (0 <= computeError default_config [2e15; 5e15] 4.3 1e16 1e13 [-20; -3] [1; 0.5])%R.
Proof.
  destruct computeError_is_windowed_sum as (_ & Hexact & _).
  apply (Hexact default_config [2e15; 5e15]%R 4.3%R 1e16%R 1e13%R [-20; -3]%R [1; 0.5]%R);
    try reflexivity.
  intros [| [| i]] Hi _; simpl in *; try lia; lra.
Defined.

(** ** The permittivity of the loaded samples (claim C6) *)

(** C6, as claimed, fails in binary64. The row 500,1e308,0 loads; its n
    and k are not negative, but 2 n overflows to infinity, and infinity
    times 0 is NaN: eps2 is not a number, so it is not >= 0. *)
Lemma computeEpsilon_overflow_counterexample :
  let Ag := material_of "Silver" [(500, 1e308, 0)]%float in
  scan "500,1e308,0" = [(500, 1e308, 0)]%float
  /\ map (PrimFloat.leb 0) (n_ Ag) = [true]
  /\ map (PrimFloat.leb 0) (k_ Ag) = [true]
  /\ map is_nan (snd (computeEpsilon Ag)) = [true]
  /\ map (PrimFloat.leb 0) (snd (computeEpsilon Ag)) = [false].
Proof. repeat split; vm_compute; reflexivity. Qed.

(** C6 (amended). For the samples loaded from any file, in either
    arithmetic: computeEpsilon returns two sequences with one entry per
    sample, in the order of the samples; entry i of the first is
    n * n - k * k and entry i of the second is (2 * n) * k, computed in the
    arithmetic of the program from the n and k of sample i. In exact
    arithmetic the second is not negative when n and k are not. In binary64,
    when n and k are not below zero, it is not below zero either: it is
    >= 0, or it is NaN. *)
Theorem computeEpsilon_of_loaded_samples :
  (forall (T : Type) (ops : Scalar T) (name : string) (file : list (Extraction T)),
      let Ag := loadData_loop file (mkMaterial name) in
      let eps := computeEpsilon Ag in
      length (fst eps) = length (wavelength_ Ag)
      /\ length (snd eps) = length (wavelength_ Ag)
      /\ length (n_ Ag) = length (wavelength_ Ag)
      /\ length (k_ Ag) = length (wavelength_ Ag)
      /\ forall i, (i < length (wavelength_ Ag))%nat ->
           at_ (fst eps) i
           = (at_ (n_ Ag) i * at_ (n_ Ag) i - at_ (k_ Ag) i * at_ (k_ Ag) i)%dbl
           /\ at_ (snd eps) i = (dec 2 0 * at_ (n_ Ag) i * at_ (k_ Ag) i)%dbl)
  /\ (forall (name : string) (file : list (Extraction R)) (i : nat),
         let Ag := loadData_loop file (mkMaterial name) in
         (i < length (wavelength_ Ag))%nat ->
         (0 <= nth i (n_ Ag) 0)%R -> (0 <= nth i (k_ Ag) 0)%R ->
         nth i (snd (computeEpsilon Ag)) 0%R = (2 * nth i (n_ Ag) 0 * nth i (k_ Ag) 0)%R
         /\ (0 <= nth i (snd (computeEpsilon Ag)) 0)%R)
  /\ (forall (name : string) (file : list (Extraction float)) (i : nat),
         let Ag := loadData_loop file (mkMaterial name) in
         (i < length (wavelength_ Ag))%nat ->
         PrimFloat.leb 0 (at_ (n_ Ag) i) = true ->
         PrimFloat.leb 0 (at_ (k_ Ag) i) = true ->
         (PrimFloat.leb 0 (at_ (snd (computeEpsilon Ag)) i) = true
          \/ is_nan (at_ (snd (computeEpsilon Ag)) i) = true)
         /\ PrimFloat.ltb (at_ (snd (computeEpsilon Ag)) i) 0 = false).
Proof.
  split; [| split].
  - intros T ops name file Ag eps.
    assert (Hm : well_formed Ag)
      by apply loadData_loop_well_formed, mkMaterial_well_formed.
    destruct (computeEpsilon_length Ag Hm) as [H1 H2].
    repeat apply conj; try assumption; try apply Hm.
    intros i Hi. now apply computeEpsilon_at.
  - intros name file i Ag Hi Hn Hk.
    assert (Hm : well_formed Ag)
      by apply loadData_loop_well_formed, mkMaterial_well_formed.
    destruct (computeEpsilon_at Ag i Hm Hi) as [_ Heps].
    unfold at_ in Heps. rewrite dec_0_R in Heps.
    rewrite Heps, dec_2_R. cbn [mul R_scalar]. split; [reflexivity |].
    apply Rmult_le_pos; [apply Rmult_le_pos; [lra | exact Hn] | exact Hk].
  - intros name file i Ag Hi Hn Hk.
    assert (Hm : well_formed Ag)
      by apply loadData_loop_well_formed, mkMaterial_well_formed.
    destruct (computeEpsilon_at Ag i Hm Hi) as [_ Heps]. rewrite Heps.
    cbn [mul float_scalar].
    assert (Htwo : PrimFloat.leb 0 (dec 2 0) = true) by (vm_compute; reflexivity).
    assert (Hsign : PrimFloat.leb 0 (dec 2 0 * at_ (n_ Ag) i * at_ (k_ Ag) i) = true
                    \/ is_nan (dec 2 0 * at_ (n_ Ag) i * at_ (k_ Ag) i) = true).
    { destruct (mul_not_negative (@dec float float_scalar 2 0) (at_ (n_ Ag) i) Htwo Hn)
        as [Hpos | Hnan].
      - exact (mul_not_negative _ (at_ (k_ Ag) i) Hpos Hk).
      - right. rewrite is_nan_spec in *. rewrite mul_spec. unfold SF64mul, SFmul.
        destruct (Prim2SF (dec 2 0 * at_ (n_ Ag) i)); try discriminate Hnan.
        reflexivity. }
    split; [exact Hsign | now apply not_below_zero].
Qed.

Lemma computeEpsilon_of_loaded_samples_witness :
  (0 <= nth 0 (snd (computeEpsilon
                      (loadData_loop [Row 620 0.06 4] (mkMaterial "Silver")))) 0)%R.
Proof.
  destruct computeEpsilon_of_loaded_samples as (_ & Hexact & _).
  apply (Hexact "Silver"%string [Row 620 0.06 4]%R 0%nat); simpl; try lia; lra.
Defined.

(** ** The loops over doubles and the grid search *)

Section Search.

Context {T : Type} `{Scalar T}.
Local Open Scope dbl_scope.

Lemma frange_Enumerates (fuel : nat) (x bound step : T) (l : list T) :
  frange fuel x bound step = Some l -> Enumerates bound step x l.
Proof.
  revert x l. induction fuel as [| fuel IH]; intros x l; simpl; [discriminate |].
  destruct (x <? bound) eqn:Hlt.
  - destruct (frange fuel (x + step) bound step) as [l' |] eqn:Hl'; [| discriminate].
    intros [= <-]. apply Enumerates_next; auto.
  - intros [= <-]. now apply Enumerates_stop.
Qed.

Lemma Enumerates_frange (x bound step : T) (l : list T) :
  Enumerates bound step x l ->
  forall fuel, (length l < fuel)%nat -> frange fuel x bound step = Some l.
Proof.
  induction 1 as [x Hx | x l Hx Hl IH]; intros [| fuel] Hfuel; simpl in *; try lia.
  - now rewrite Hx.
  - rewrite Hx, (IH fuel) by lia. reflexivity.
Qed.

Lemma Enumerates_unique (x bound step : T) (l l' : list T) :
  Enumerates bound step x l -> Enumerates bound step x l' -> l = l'.
Proof.
  intros Hl. revert l'. induction Hl as [x Hx | x l Hx Hl IH]; intros l' Hl';
    inversion Hl'; subst; try congruence.
  f_equal. now apply IH.
Qed.

(** A loop whose body always returns runs its body on the visited values. *)
Lemma for_double_total {S : Type} (f : T -> S -> S) (x bound step : T) (l : list T) :
  Enumerates bound step x l ->
  forall (fuel : nat) (s : S), (length l < fuel)%nat ->
  for_double fuel x bound step (fun v s => Some (f v s)) s
  = Some (fold_left (fun s v => f v s) l s).
Proof.
  induction 1 as [x Hx | x l Hx Hl IH]; intros [| fuel] s Hfuel; simpl in *; try lia.
  - now rewrite Hx.
  - rewrite Hx. apply IH. lia.
Qed.

(** The same for a body that returns on the values the loop visits. *)
Lemma for_double_body {S : Type} (body : T -> S -> option S) (f : T -> S -> S)
    (x bound step : T) (l : list T) :
  (forall v s, body v s = Some (f v s)) ->
  Enumerates bound step x l ->
  forall (fuel : nat) (s : S), (length l < fuel)%nat ->
  for_double fuel x bound step body s = Some (fold_left (fun s v => f v s) l s).
Proof.
  intros Hbody. induction 1 as [x Hx | x l Hx Hl IH]; intros [| fuel] s Hfuel;
    simpl in *; try lia.
  - now rewrite Hx.
  - rewrite Hx, Hbody. apply IH. lia.
Qed.

Lemma fold_left_grid {S : Type} (f : T -> T -> S -> S) (ps gs : list T) (s : S) :
  fold_left (fun s p => fold_left (fun s g => f p g s) gs s) ps s
  = fold_left (fun s pg => f (fst pg) (snd pg) s) (grid ps gs) s.
Proof.
  unfold grid. revert s. induction ps as [| p ps IH]; intros s; simpl.
  - reflexivity.
  - rewrite fold_left_app, <- IH. f_equal.
    clear IH. revert s. induction gs as [| g gs IHg]; intros s; simpl.
    + reflexivity.
    + apply IHg.
Qed.

(** The nested loops of main visit the grid in order. *)
Lemma grid_search_enumerated (cfg : Config T) (omega eps1_data eps2_data : list T)
    (ps gs : list T) (fuel : nat) :
  Enumerates (omega_p_max cfg) (domega_p cfg) (omega_p_min cfg) ps ->
  Enumerates (gamma_max cfg) (dgamma cfg) (gamma_min cfg) gs ->
  (length ps < fuel)%nat -> (length gs < fuel)%nat ->
  grid_search cfg fuel omega eps1_data eps2_data
  = Some (search_over cfg omega eps1_data eps2_data (grid ps gs) no_fit_yet).
Proof.
  intros Hps Hgs Hp Hg. unfold grid_search, search_over.
  rewrite (for_double_body _
             (fun omega_p best =>
                fold_left (fun best gamma =>
                             try_point cfg omega eps1_data eps2_data omega_p gamma best)
                          gs best) _ _ _ ps); auto.
  - f_equal.
    apply (fold_left_grid (fun p g s => try_point cfg omega eps1_data eps2_data p g s)).
  - intros v s. now apply for_double_total.
Qed.

(** An empty outer range: the inner loop never starts. *)
Lemma grid_search_no_plasma_frequency (cfg : Config T)
    (omega eps1_data eps2_data : list T) (fuel : nat) :
  (omega_p_min cfg <? omega_p_max cfg) = false ->
  grid_search cfg (S fuel) omega eps1_data eps2_data = Some no_fit_yet.
Proof. intros Hempty. unfold grid_search. simpl. now rewrite Hempty. Qed.

Lemma search_over_snoc (cfg : Config T) (omega eps1_data eps2_data : list T)
    (points : list (T * T)) (pg : T * T) (best : FitResult T) :
  search_over cfg omega eps1_data eps2_data (points ++ [pg]) best
  = try_point cfg omega eps1_data eps2_data (fst pg) (snd pg)
      (search_over cfg omega eps1_data eps2_data points best).
Proof. unfold search_over. now rewrite fold_left_app. Qed.

Context `{!ScalarOrder T}.

Lemma search_over_first_minimum (cfg : Config T) (omega eps1_data eps2_data : list T)
    (points : list (T * T)) :
  first_minimum cfg omega eps1_data eps2_data points
    (search_over cfg omega eps1_data eps2_data points no_fit_yet).
Proof.
  unfold first_minimum.
  set (err := point_error cfg omega eps1_data eps2_data).
  induction points as [| x points IH] using rev_ind.
  - left. split; [reflexivity | intros q []].
  - rewrite search_over_snoc. unfold try_point.
    fold (point_error cfg omega eps1_data eps2_data x). fold err.
    destruct IH as [[Hr Hnone] | (pre & pg & post & Hpts & Hr & Hpg & Hmin & Hfirst)];
      rewrite Hr; simpl best_error.
    + destruct (err x <? dec 1 300) eqn:Hx.
      * right. exists points, x, []. repeat split; auto.
        -- intros q Hq. apply in_app_or in Hq. destruct Hq as [Hq | [<- | []]].
           ++ destruct (err q <? err x) eqn:Hqx; auto.
              pose proof (ltb_trans _ _ _ Hqx Hx) as Hlt.
              rewrite (Hnone q Hq) in Hlt. discriminate.
           ++ apply ltb_irrefl.
        -- intros q Hq Heq. rewrite <- Heq in Hx. rewrite (Hnone q Hq) in Hx.
           discriminate.
      * left. split; auto. intros q Hq. apply in_app_or in Hq.
        destruct Hq as [Hq | [<- | []]]; auto.
    + destruct (err x <? err pg) eqn:Hx.
      * right. exists points, x, []. repeat split; auto.
        -- exact (ltb_trans _ _ _ Hx Hpg).
        -- intros q Hq. apply in_app_or in Hq. destruct Hq as [Hq | [<- | []]].
           ++ destruct (err q <? err x) eqn:Hqx; auto.
              pose proof (ltb_trans _ _ _ Hqx Hx) as Hlt.
              rewrite (Hmin q Hq) in Hlt. discriminate.
           ++ apply ltb_irrefl.
        -- intros q Hq Heq. rewrite <- Heq in Hx. rewrite (Hmin q Hq) in Hx.
           discriminate.
      * right. exists pre, pg, (post ++ [x]). repeat split; auto.
        -- rewrite Hpts, <- app_assoc. reflexivity.
        -- intros q Hq. apply in_app_or in Hq.
           destruct Hq as [Hq | [<- | []]]; auto.
Qed.

End Search.

(** ** The grid search (claims C3 and C1) *)

Lemma default_plasma_grid_enumerated :
  Enumerates (omega_p_max default_config) (domega_p default_config)
    (omega_p_min default_config) default_plasma_grid
  /\ length default_plasma_grid = 580%nat.
Proof.
  split; [| reflexivity].
  apply (frange_Enumerates 600). vm_compute. reflexivity.
Qed.

Lemma default_damping_grid_enumerated :
  Enumerates (gamma_max default_config) (dgamma default_config)
    (gamma_min default_config) default_damping_grid
  /\ length default_damping_grid = 140%nat.
Proof.
  split; [| reflexivity].
  apply (frange_Enumerates 600). vm_compute. reflexivity.
Qed.

(** With the constants of the source the search returns, whatever the data:
    the two loops end after 580 and 140 turns. *)
Lemma grid_search_default_returns (omega eps1_data eps2_data : list float) :
  grid_search default_config 600 omega eps1_data eps2_data
  = Some (search_over default_config omega eps1_data eps2_data
            (grid default_plasma_grid default_damping_grid) no_fit_yet).
Proof.
  apply grid_search_enumerated.
  - apply default_plasma_grid_enumerated.
  - apply default_damping_grid_enumerated.
  - destruct default_plasma_grid_enumerated as [_ ->]. lia.
  - destruct default_damping_grid_enumerated as [_ ->]. lia.
Qed.

Lemma try_point_keeps {T : Type} `{Scalar T} (cfg : Config T)
    (omega eps1_data eps2_data : list T) (omega_p gamma : T) (best : FitResult T) :
  (point_error cfg omega eps1_data eps2_data (omega_p, gamma) <? best_error best)%dbl
  = false ->
  try_point cfg omega eps1_data eps2_data omega_p gamma best = best.
Proof. unfold try_point, point_error. simpl. now intros ->. Qed.

(** C3. The outer loop visits the plasma frequencies from omega_p_min while
    they are below omega_p_max, in steps of domega_p, and for each of them
    the inner loop visits the damping rates likewise; with these values
    [ps] and [gs] the search returns, and what it returns is one pass over
    the grid points, plasma frequency outside and damping rate inside, in
    which a point whose error is not strictly smaller leaves the incumbent
    as it is. So the result is a point of least error, and the first one in
    that order among the points with its error. *)
Theorem grid_search_first_minimum {T : Type} `{ScalarOrder T}
    (cfg : Config T) (omega eps1_data eps2_data : list T)
    (ps gs : list T) (fuel : nat) :
  Enumerates (omega_p_max cfg) (domega_p cfg) (omega_p_min cfg) ps ->
  Enumerates (gamma_max cfg) (dgamma cfg) (gamma_min cfg) gs ->
  (length ps < fuel)%nat -> (length gs < fuel)%nat ->
  (exists r,
      grid_search cfg fuel omega eps1_data eps2_data = Some r
      /\ r = search_over cfg omega eps1_data eps2_data (grid ps gs) no_fit_yet
      /\ first_minimum cfg omega eps1_data eps2_data (grid ps gs) r)
  /\ (forall omega_p gamma best,
         (point_error cfg omega eps1_data eps2_data (omega_p, gamma)
          <? best_error best)%dbl = false ->
         try_point cfg omega eps1_data eps2_data omega_p gamma best = best).
Proof.
  intros Hps Hgs Hp Hg. split; [| apply try_point_keeps].
  exists (search_over cfg omega eps1_data eps2_data (grid ps gs) no_fit_yet).
  split; [| split].
  - apply grid_search_enumerated; assumption.
  - reflexivity.
  - apply search_over_first_minimum.
Qed.

Lemma grid_search_first_minimum_witness :
  let Ag := material_of "Silver" three_rows in
  let omega := getOmega Ag in
  let eps := computeEpsilon Ag in
  exists r,
    grid_search default_config 600 omega (fst eps) (snd eps) = Some r
    /\ r = search_over default_config omega (fst eps) (snd eps)
             (grid default_plasma_grid default_damping_grid) no_fit_yet
    /\ first_minimum default_config omega (fst eps) (snd eps)
         (grid default_plasma_grid default_damping_grid) r.
Proof.
  intros Ag omega eps.
  apply (grid_search_first_minimum default_config omega (fst eps) (snd eps)
           default_plasma_grid default_damping_grid 600).
  - apply (frange_Enumerates 600). vm_compute. reflexivity.
  - apply (frange_Enumerates 600). vm_compute. reflexivity.
  - apply Nat.ltb_lt. vm_compute. reflexivity.
  - apply Nat.ltb_lt. vm_compute. reflexivity.
Defined.

(** A search that returns has run both loops to their end. *)
Lemma for_double_returns {T : Type} `{Scalar T} {S : Type} (body : T -> S -> option S)
    (fuel : nat) (x bound step : T) (s s' : S) :
  for_double fuel x bound step body s = Some s' ->
  exists l, Enumerates bound step x l /\ (length l < fuel)%nat
            /\ (l = [] \/ exists s1, body x s = Some s1).
Proof.
  revert x s. induction fuel as [| fuel IH]; intros x s; simpl; [discriminate |].
  destruct (ltb x bound) eqn:Hx.
  - destruct (body x s) as [s1 |] eqn:Hbody; [| discriminate].
    intros Hrest. destruct (IH _ _ Hrest) as (l & Hl & Hlen & _).
    exists (x :: l). repeat split.
    + now apply Enumerates_next.
    + simpl. lia.
    + right. now exists s1.
  - intros _. exists []. repeat split.
    + now apply Enumerates_stop.
    + simpl. lia.
    + now left.
Qed.

Lemma grid_search_returns_enumerated {T : Type} `{Scalar T}
    (cfg : Config T) (omega eps1_data eps2_data : list T) (fuel : nat) (r : FitResult T) :
  grid_search cfg fuel omega eps1_data eps2_data = Some r ->
  exists ps,
    Enumerates (omega_p_max cfg) (domega_p cfg) (omega_p_min cfg) ps
    /\ (length ps < fuel)%nat
    /\ (ps = [] \/
        exists gs, Enumerates (gamma_max cfg) (dgamma cfg) (gamma_min cfg) gs
                   /\ (length gs < fuel)%nat).
Proof.
  unfold grid_search. intros Hr.
  destruct (for_double_returns _ _ _ _ _ _ _ Hr) as (ps & Hps & Hlen & Hbody).
  exists ps. repeat split; auto.
  destruct Hbody as [-> | [s1 Hs1]]; [now left | right].
  destruct (for_double_returns _ _ _ _ _ _ _ Hs1) as (gs & Hgs & Hglen & _).
  now exists gs.
Qed.

(** An empty inner range: no point is tried. *)
Lemma grid_search_no_damping_rate {T : Type} `{Scalar T} (cfg : Config T)
    (omega eps1_data eps2_data : list T) (ps : list T) (fuel : nat) :
  Enumerates (omega_p_max cfg) (domega_p cfg) (omega_p_min cfg) ps ->
  (length ps < fuel)%nat ->
  (gamma_min cfg <? gamma_max cfg)%dbl = false ->
  grid_search cfg fuel omega eps1_data eps2_data = Some no_fit_yet.
Proof.
  intros Hps Hfuel Hempty.
  rewrite (grid_search_enumerated cfg _ _ _ ps [] fuel); auto.
  - replace (grid ps []) with (@nil (T * T)); [reflexivity |].
    unfold grid. clear. induction ps; auto.
  - now apply Enumerates_stop.
  - simpl. lia.
Qed.

(** C1 (amended). The fit never signals that it found nothing; it always
    returns its three variables. When a range is empty (its minimum is not
    below its maximum) they are as initialised (error 1e300, plasma
    frequency 0, damping rate 0), whatever the data. When neither range is
    empty and no sample passes the window test (no sample at all, or every
    omega outside the window), they hold error 0 at the first grid
    point (omega_p_min, gamma_min). [ps] and [gs] are the values that the
    two loops visit. *)
Theorem fit_without_candidates {T : Type} `{ScalarOrder T}
    (cfg : Config T) (Ag : Material T) :
  (forall fuel, (omega_p_min cfg <? omega_p_max cfg)%dbl = false ->
                fit cfg (S fuel) Ag = Some no_fit_yet)
  /\ (forall ps fuel,
         Enumerates (omega_p_max cfg) (domega_p cfg) (omega_p_min cfg) ps ->
         (length ps < fuel)%nat ->
         (gamma_min cfg <? gamma_max cfg)%dbl = false ->
         fit cfg fuel Ag = Some no_fit_yet)
  /\ (forall ps gs fuel,
         Enumerates (omega_p_max cfg) (domega_p cfg) (omega_p_min cfg) ps ->
         Enumerates (gamma_max cfg) (dgamma cfg) (gamma_min cfg) gs ->
         (length ps < fuel)%nat -> (length gs < fuel)%nat ->
         (omega_p_min cfg <? omega_p_max cfg)%dbl = true ->
         (gamma_min cfg <? gamma_max cfg)%dbl = true ->
         (forall w, In w (getOmega Ag) -> contributes cfg w = false) ->
         fit cfg fuel Ag
         = Some {| best_error := dec 0 0;
                   best_omega_p := omega_p_min cfg;
                   best_gamma := gamma_min cfg |}).
Proof.
  split; [| split].
  - intros fuel Hempty. now apply grid_search_no_plasma_frequency.
  - intros ps fuel Hps Hfuel Hempty. unfold fit.
    now apply (grid_search_no_damping_rate cfg _ _ _ ps).
  - intros ps gs fuel Hps Hgs Hp Hg Hpne Hgne Hout. unfold fit.
    rewrite (grid_search_enumerated cfg _ _ _ ps gs fuel Hps Hgs Hp Hg).
    rewrite search_over_zero_window.
    + destruct Hps as [x Hx | p ps' _ _]; [congruence |].
      destruct Hgs as [x Hx | g gs' _ _]; [congruence |].
      reflexivity.
    + intros q. unfold point_error. now apply computeError_outside_window.
Qed.

Lemma fit_without_candidates_witness :
  fit default_config 600 (material_of "Silver" ultraviolet_row)
  = Some {| best_error := 0%float;
            best_omega_p := 1e15%float;
            best_gamma := 1e13%float |}.
Proof.
  refine (proj2 (proj2 (fit_without_candidates default_config
                          (material_of "Silver" ultraviolet_row)))
            default_plasma_grid default_damping_grid 600 _ _ _ _ _ _ _).
  - apply (frange_Enumerates 600). vm_compute. reflexivity.
  - apply (frange_Enumerates 600). vm_compute. reflexivity.
  - apply Nat.ltb_lt. vm_compute. reflexivity.
  - apply Nat.ltb_lt. vm_compute. reflexivity.
  - vm_compute. reflexivity.
  - vm_compute. reflexivity.
  - intros w [<- | []]. vm_compute. reflexivity.
Defined.

(** C1, as claimed, fails: the window [1.5e15, 4.0e15] excludes the only
    sample (100 nm, omega = 1.88e16 rad/s), and main still reports a fit,
    with error 0; so does the fit of a material without any sample. *)
Lemma fit_empty_window_counterexample :
  (forall w, In w (getOmega (material_of "Silver" ultraviolet_row)) ->
             contributes default_config w = false)
  /\ main default_config 600 (Some (parsed ultraviolet_row))
     = Returned (Some {| best_error := 0%float;
                         best_omega_p := 1e15%float;
                         best_gamma := 1e13%float |})
  /\ getOmega (mkMaterial (T:=float) "Silver") = []
  /\ fit default_config 600 (mkMaterial "Silver")
     = Some {| best_error := 0%float;
               best_omega_p := 1e15%float;
               best_gamma := 1e13%float |}.
Proof.
  split; [| split; [| split]].
  - intros w [<- | []]. vm_compute. reflexivity.
  - vm_compute. reflexivity.
  - reflexivity.
  - vm_compute. reflexivity.
Qed.

(** ** The order of the grid in exact arithmetic *)

Section GridOrder.

Local Open Scope R_scope.

(** A loop that visits a value and ends has a positive step. *)
Lemma Enumerates_step_positive (bound step x : R) (l : list R) :
  Enumerates bound step x l -> l <> [] -> 0 < step.
Proof.
  induction 1 as [x Hx | x l Hx Hl IH]; intros Hne; [congruence |].
  destruct l as [| y l'].
  - inversion Hl as [x' Hstop |]; subst.
    apply Rltb_true in Hx. apply Rltb_false in Hstop. cbn in Hstop. lra.
  - apply IH. discriminate.
Qed.

Lemma Enumerates_increasing (bound step x : R) (l : list R) :
  Enumerates bound step x l ->
  Forall (Rle x) l /\ StronglySorted Rlt l.
Proof.
  intros Hl. induction Hl as [x Hx | x l Hx Hl [IHle IHsorted]].
  - split; constructor.
  - assert (Hstep : 0 < step)
      by (apply (Enumerates_step_positive bound step x (x :: l));
          [now apply Enumerates_next | discriminate]).
    cbn in IHle. split.
    + constructor; [lra |].
      eapply Forall_impl; [| exact IHle]. intros y Hy. simpl in Hy. lra.
    + constructor; [exact IHsorted |].
      eapply Forall_impl; [| exact IHle]. intros y Hy. simpl in Hy. lra.
Qed.

Lemma StronglySorted_app {A : Type} (lt : A -> A -> Prop) (l1 l2 : list A) :
  StronglySorted lt l1 -> StronglySorted lt l2 ->
  (forall a b, In a l1 -> In b l2 -> lt a b) ->
  StronglySorted lt (l1 ++ l2).
Proof.
  induction 1 as [| a l1 Hs IH Ha]; intros Hl2 Hcross; simpl; [exact Hl2 |].
  constructor.
  - apply IH; [exact Hl2 |]. intros x y Hx Hy. apply Hcross; [now right | exact Hy].
  - apply Forall_app. split; [exact Ha |].
    apply Forall_forall. intros y Hy. apply Hcross; [now left | exact Hy].
Qed.

Lemma StronglySorted_after {A : Type} (lt : A -> A -> Prop) (pre post : list A) (x : A) :
  StronglySorted lt (pre ++ x :: post) -> Forall (lt x) post.
Proof.
  induction pre as [| a pre IH]; simpl; intros Hs; inversion Hs; subst; auto.
Qed.

Lemma grid_sorted (ps gs : list R) :
  StronglySorted Rlt ps -> StronglySorted Rlt gs ->
  StronglySorted grid_lt (grid ps gs).
Proof.
  intros Hps Hgs. unfold grid. induction Hps as [| p ps Hps IH Hp]; simpl.
  - constructor.
  - apply StronglySorted_app.
    + clear IH Hp Hps. induction Hgs as [| g gs Hgs IHg Hg]; simpl; constructor; auto.
      apply Forall_forall. intros q Hq. apply in_map_iff in Hq.
      destruct Hq as (g' & <- & Hg'). right. simpl. split; [reflexivity |].
      rewrite Forall_forall in Hg. now apply Hg.
    + exact IH.
    + intros a b Ha Hb. apply in_map_iff in Ha. destruct Ha as (g & <- & _).
      destruct b as [p' g']. apply in_prod_iff in Hb. destruct Hb as [Hp' _].
      left. simpl. rewrite Forall_forall in Hp. now apply Hp.
Qed.

(** X24. In exact arithmetic the first point in the order of the search is the
    one of lowest plasma frequency and, for that plasma frequency, of lowest
    damping rate: a search that found a point returns a point of least
    error, and every other grid point with that error has a higher plasma
    frequency, or the same one and a higher damping rate. *)
Corollary grid_search_lowest_of_ties (cfg : Config R)
    (omega eps1_data eps2_data : list R) (ps gs : list R) (fuel : nat) (r : FitResult R) :
  Enumerates (omega_p_max cfg) (domega_p cfg) (omega_p_min cfg) ps ->
  Enumerates (gamma_max cfg) (dgamma cfg) (gamma_min cfg) gs ->
  (length ps < fuel)%nat -> (length gs < fuel)%nat ->
  grid_search cfg fuel omega eps1_data eps2_data = Some r ->
  r <> no_fit_yet ->
  let err := point_error cfg omega eps1_data eps2_data in
  In (best_omega_p r, best_gamma r) (grid ps gs)
  /\ best_error r = err (best_omega_p r, best_gamma r)
  /\ (forall q, In q (grid ps gs) -> best_error r <= err q)
  /\ (forall q, In q (grid ps gs) -> err q = best_error r ->
                q = (best_omega_p r, best_gamma r)
                \/ grid_lt (best_omega_p r, best_gamma r) q).
Proof.
  intros Hps Hgs Hp Hg Hr Hfound err.
  rewrite (grid_search_enumerated cfg _ _ _ ps gs fuel Hps Hgs Hp Hg) in Hr.
  injection Hr as <-.
  pose proof (search_over_first_minimum cfg omega eps1_data eps2_data (grid ps gs))
    as [[Hnone _] | (pre & [p g] & post & Hgrid & Hres & _ & Hmin & Hfirst)];
    [contradiction |].
  fold err in Hres, Hmin, Hfirst. rewrite Hres. simpl.
  assert (Hsorted : StronglySorted grid_lt (grid ps gs))
    by (apply grid_sorted; [apply (Enumerates_increasing _ _ _ _ Hps)
                           | apply (Enumerates_increasing _ _ _ _ Hgs)]).
  rewrite Hgrid in Hsorted. apply StronglySorted_after in Hsorted.
  rewrite Forall_forall in Hsorted.
  repeat split.
  - rewrite Hgrid. apply in_or_app. right. now left.
  - intros q Hq. apply Rltb_false. exact (Hmin q Hq).
  - intros q Hq Heq. rewrite Hgrid in Hq. apply in_app_or in Hq.
    destruct Hq as [Hq | [<- | Hq]].
    + elim (Hfirst q Hq Heq).
    + now left.
    + right. now apply Hsorted.
Qed.

End GridOrder.

(** * Further properties of the program *)

(** ** The material and its derived sequences *)

Lemma dec_1240_R : dec 1240 0 = 1240%R.
Proof. vm_compute. lra. Qed.

Lemma dec_nano_R : dec 1 (-9) = 1e-9%R.
Proof. vm_compute. lra. Qed.

Lemma pi_R : pi = 3.1415%R.
Proof. vm_compute. lra. Qed.

Lemma c_R : c = 299792458%R.
Proof. vm_compute. lra. Qed.

(** The angular frequency of a wavelength, in exact arithmetic. *)
Lemma getOmega_R (m : Material R) :
  getOmega m
  = map (fun lambda => (2 * 3.1415 * 299792458) / (lambda * 1e-9))%R (wavelength_ m).
Proof.
  rewrite getOmega_map. apply map_ext. intros lambda.
  rewrite dec_2_R, pi_R, c_R, dec_nano_R. reflexivity.
Qed.

Lemma getEnergy_R (m : Material R) :
  getEnergy m = map (fun lambda => 1240 / lambda)%R (wavelength_ m).
Proof.
  rewrite getEnergy_map. apply map_ext. intros lambda.
  rewrite dec_1240_R. reflexivity.
Qed.

(** X1. The sequences main derives from a material whose three vectors
    have one length (as loadData leaves them) all have that length: the
    angular frequencies, the photon energies and both parts of the
    permittivity. So computeError is called on three sequences of one
    length. *)
Theorem derived_sequences_same_length {T : Type} `{Scalar T} (m : Material T) :
  well_formed m ->
  length (getOmega m) = length (wavelength_ m)
  /\ length (getEnergy m) = length (wavelength_ m)
  /\ length (fst (computeEpsilon m)) = length (getOmega m)
  /\ length (snd (computeEpsilon m)) = length (getOmega m).
Proof.
  intros Hm. rewrite getOmega_map, getEnergy_map, !length_map.
  destruct (computeEpsilon_length m Hm) as [H1 H2]. auto.
Qed.

Lemma derived_sequences_same_length_witness :
  length (fst (computeEpsilon (material_of "Silver" three_rows)))
  = length (getOmega (material_of "Silver" three_rows)).
Proof.
  apply (derived_sequences_same_length (material_of "Silver" three_rows)).
  split; reflexivity.
Defined.

(** X2. loadData appends: on a file that opens it never throws and never
    touches the samples the material already holds; it adds the samples its
    loop extracts from the text, in order, to the three vectors alike, and
    keeps the name. The count it prints is the new total, and the first
    wavelength it prints is the first of the material, old samples
    included. *)
Theorem loadData_appends {T : Type} `{Scalar T} `{Strtod T} (filename text : string)
    (m : Material T) :
  well_formed m ->
  let rows := scan text in
  let m' := {| name_ := name_ m;
               wavelength_ := wavelength_ m ++ map (fun r => fst (fst r)) rows;
               n_ := n_ m ++ map (fun r => snd (fst r)) rows;
               k_ := k_ m ++ map (fun r => snd r) rows |} in
  well_formed m'
  /\ loadData_text filename (Some text) m
     = match wavelength_ m' with
       | [] => Undefined
       | front :: rest =>
           Returned (m', {| points := length (wavelength_ m) + length rows;
                            material := name_ m;
                            front_nm := front;
                            back_nm := last rest front |})
       end.
Proof.
  intros [Hn Hk] rows m'. split.
  - split; simpl; rewrite !length_app, !length_map; lia.
  - unfold loadData_text, extractions, loadData. cbn [option_map]. fold rows.
    rewrite <- (app_nil_r (parsed rows)), loadData_loop_parsed.
    cbn [loadData_loop]. fold m'. cbn [wavelength_ name_ m'].
    destruct (wavelength_ m ++ map (fun r => fst (fst r)) rows) eqn:Hwl;
      [reflexivity |].
    rewrite <- Hwl, length_app, length_map. reflexivity.
Qed.

Lemma loadData_appends_witness :
  loadData_text "f" (Some ("900,0.04,6.3" ++ newline ++ "end")%string)
    (material_of "Silver" [(400, 0.05, 2.1)]%float)
  = Returned (material_of "Silver" [(400, 0.05, 2.1); (900, 0.04, 6.3)]%float,
              {| points := 2; material := "Silver"; front_nm := 400%float;
                 back_nm := 900%float |}).
Proof.
  refine (proj2 (loadData_appends "f" ("900,0.04,6.3" ++ newline ++ "end")%string
                   (material_of "Silver" [(400, 0.05, 2.1)]%float) _)).
  split; reflexivity.
Defined.

(** X3. In exact arithmetic, where no wavelength is zero, the angular
    frequency of every sample is its photon energy times the constant
    2 pi c / (1240 * 1e-9), with the program's pi and c. *)
Theorem omega_proportional_to_energy (m : Material R) :
  Forall (fun lambda => lambda <> 0%R) (wavelength_ m) ->
  getOmega m
  = map (fun E => (2 * 3.1415 * 299792458) / (1240 * 1e-9) * E)%R (getEnergy m).
Proof.
  intros Hnz. rewrite getOmega_R, getEnergy_R, map_map.
  apply map_ext_in. intros lambda Hin.
  rewrite Forall_forall in Hnz. specialize (Hnz lambda Hin).
  field. exact Hnz.
Qed.

Lemma omega_proportional_to_energy_witness :
  getOmega (material_of "Silver" [(620, 0.06, 4)]%R)
  = map (fun E => (2 * 3.1415 * 299792458) / (1240 * 1e-9) * E)%R
      (getEnergy (material_of "Silver" [(620, 0.06, 4)]%R)).
Proof.
  apply (omega_proportional_to_energy (material_of "Silver" [(620, 0.06, 4)]%R)).
  repeat constructor. simpl. lra.
Defined.

Lemma StronglySorted_map_reverse (f : R -> R) (l : list R) :
  (forall x y, In x l -> In y l -> (x < y)%R -> (f y < f x)%R) ->
  StronglySorted Rlt l -> StronglySorted Rgt (map f l).
Proof.
  intros Hf Hl. induction Hl as [| a l Hl IH Ha]; simpl; constructor.
  - apply IH. intros x y Hx Hy. apply Hf; now right.
  - rewrite Forall_forall in *. intros y Hy. apply in_map_iff in Hy.
    destruct Hy as (x & <- & Hx). apply Hf; [now left | now right | now apply Ha].
Qed.

(** X4. In exact arithmetic the conversions reverse the order: for a
    material whose wavelengths are positive and increase strictly, the
    angular frequencies and the photon energies decrease strictly. *)
Theorem conversions_reverse_order (m : Material R) :
  Forall (fun lambda => 0 < lambda)%R (wavelength_ m) ->
  StronglySorted Rlt (wavelength_ m) ->
  StronglySorted Rgt (getOmega m) /\ StronglySorted Rgt (getEnergy m).
Proof.
  intros Hpos Hsorted. rewrite getOmega_R, getEnergy_R.
  rewrite Forall_forall in Hpos.
  split; apply StronglySorted_map_reverse; auto; intros x y Hx Hy Hxy;
    pose proof (Hpos x Hx); pose proof (Hpos y Hy).
  - unfold Rdiv. apply Rmult_lt_compat_l; [lra |].
    apply Rinv_lt_contravar; nra.
  - unfold Rdiv. apply Rmult_lt_compat_l; [lra |].
    apply Rinv_lt_contravar; nra.
Qed.

Lemma conversions_reverse_order_witness :
  StronglySorted Rgt (getOmega (material_of "Silver" [(400, 0.05, 2); (620, 0.06, 4)]%R))
  /\ StronglySorted Rgt (getEnergy (material_of "Silver" [(400, 0.05, 2); (620, 0.06, 4)]%R)).
Proof.
  apply (conversions_reverse_order
           (material_of "Silver" [(400, 0.05, 2); (620, 0.06, 4)]%R)).
  - repeat constructor; simpl; lra.
  - repeat constructor; simpl; lra.
Defined.

Lemma le_quotient (a b d : R) : (0 < d)%R -> (a <= b / d <-> a * d <= b)%R.
Proof.
  intros Hd. split; intros Hle.
  - apply (Rmult_le_compat_r d) in Hle; [| lra].
    replace (b / d * d)%R with b in Hle by (field; lra). exact Hle.
  - apply (Rmult_le_reg_r d); [exact Hd |].
    replace (b / d * d)%R with b by (field; lra). exact Hle.
Qed.

Lemma quotient_le (a b d : R) : (0 < d)%R -> (b / d <= a <-> b <= a * d)%R.
Proof.
  intros Hd. split; intros Hle.
  - apply (Rmult_le_compat_r d) in Hle; [| lra].
    replace (b / d * d)%R with b in Hle by (field; lra). exact Hle.
  - apply (Rmult_le_reg_r d); [exact Hd |].
    replace (b / d * d)%R with b by (field; lra). exact Hle.
Qed.

Lemma default_window_R :
  omega_min (default_config (T:=R)) = 1.5e15%R
  /\ omega_max (default_config (T:=R)) = 4.0e15%R.
Proof. split; vm_compute; lra. Qed.

(** X5. In exact arithmetic and with the window of the source, a sample of
    positive wavelength passes the test of computeError exactly when its
    wavelength lies between 2 pi c / (4.0e15 * 1e-9) and
    2 pi c / (1.5e15 * 1e-9) nanometres, bounds included: between about
    470.9 nm and 1255.7 nm. *)
Theorem fitted_wavelengths (m : Material R) (i : nat) :
  (i < length (wavelength_ m))%nat ->
  (0 < nth i (wavelength_ m) 0)%R ->
  contributes default_config (nth i (getOmega m) 0%R) = true
  <-> (1883596013.614 / 4.0e6 <= nth i (wavelength_ m) 0
       <= 1883596013.614 / 1.5e6)%R.
Proof.
  intros Hi Hpos. rewrite getOmega_R.
  set (f := fun lambda => (2 * 3.1415 * 299792458 / (lambda * 1e-9))%R).
  rewrite (nth_indep _ 0%R (f 0%R)) by (rewrite length_map; exact Hi).
  rewrite map_nth. unfold f. clear f.
  set (lambda := nth i (wavelength_ m) 0%R) in *.
  rewrite contributes_in_windowb, in_windowb_true. unfold in_window.
  destruct default_window_R as [-> ->].
  assert (Hden : (0 < lambda * 1e-9)%R) by nra.
  rewrite (le_quotient _ _ _ Hden), (quotient_le _ _ _ Hden).
  split; intros [Hlo Hhi]; split; lra.
Qed.

Lemma fitted_wavelengths_witness :
  contributes default_config
    (nth 0 (getOmega (material_of "Silver" [(620, 0.06, 4)]%R)) 0%R) = true
  <-> (1883596013.614 / 4.0e6 <= 620 <= 1883596013.614 / 1.5e6)%R.
Proof.
  apply (fitted_wavelengths (material_of "Silver" [(620, 0.06, 4)]%R) 0).
  - simpl. lia.
  - simpl. lra.
Defined.

(** ** The Drude model in exact arithmetic *)

Lemma square_sum_pos (omega gamma : R) :
  omega <> 0%R -> (0 < omega * omega + gamma * gamma)%R.
Proof.
  intros Homega. destruct (Rtotal_order omega 0) as [Hneg | [Hzero | Hpos]]; nra.
Qed.

Lemma drude_eps_parts (omega eps_inf omega_p gamma : R) :
  omega <> 0%R ->
  real (drude_eps omega eps_inf omega_p gamma)
  = (eps_inf - omega_p * omega_p / (omega * omega + gamma * gamma))%R
  /\ imag (drude_eps omega eps_inf omega_p gamma)
     = (omega_p * omega_p * gamma / (omega * (omega * omega + gamma * gamma)))%R.
Proof.
  intros Homega.
  pose proof (square_sum_pos omega gamma Homega) as Hsq.
  pose proof (square_sum_pos omega 0 Homega) as Hw.
  assert (Hden : (0 < omega * omega * (omega * omega)
                      + gamma * omega * (gamma * omega))%R).
  { replace (omega * omega * (omega * omega) + gamma * omega * (gamma * omega))%R
      with ((omega * omega) * (omega * omega + gamma * gamma))%R by ring.
    apply Rmult_lt_0_compat; lra. }
  unfold drude_eps, rsubc, rdivc, cdiv. cbn. rewrite ?dec_0_R.
  split; field; repeat split; try assumption; try lra.
Qed.

(** X6. In exact arithmetic and for omega <> 0, the two parts of drude_eps
    are the textbook ones: eps_inf - omega_p^2 / (omega^2 + gamma^2) and
    omega_p^2 gamma / (omega (omega^2 + gamma^2)). *)
Theorem drude_eps_textbook (omega eps_inf omega_p gamma : R) :
  omega <> 0%R ->
  drude_eps omega eps_inf omega_p gamma
  = {| real := eps_inf - omega_p * omega_p / (omega * omega + gamma * gamma);
       imag := omega_p * omega_p * gamma
               / (omega * (omega * omega + gamma * gamma)) |}%R.
Proof.
  intros Homega. destruct (drude_eps_parts omega eps_inf omega_p gamma Homega) as [Hre Him].
  destruct (drude_eps omega eps_inf omega_p gamma) as [re im]. simpl in *.
  now rewrite Hre, Him.
Qed.

Lemma drude_eps_textbook_witness :
  drude_eps 2e15%R 4.3%R 1e16%R 1e13%R
  = {| real := 4.3 - 1e16 * 1e16 / (2e15 * 2e15 + 1e13 * 1e13);
       imag := 1e16 * 1e16 * 1e13 / (2e15 * (2e15 * 2e15 + 1e13 * 1e13)) |}%R.
Proof. apply (drude_eps_textbook 2e15%R 4.3%R 1e16%R 1e13%R). lra. Defined.

(** X7. In exact arithmetic, at a positive angular frequency and with a
    damping rate that is not negative, the model absorbs and screens: its
    imaginary part is not negative and its real part is at most eps_inf;
    and both inequalities are strict when the plasma frequency is not zero
    and the damping rate is positive. *)
Theorem drude_eps_passive (omega eps_inf omega_p gamma : R) :
  (0 < omega)%R -> (0 <= gamma)%R ->
  (0 <= imag (drude_eps omega eps_inf omega_p gamma))%R
  /\ (real (drude_eps omega eps_inf omega_p gamma) <= eps_inf)%R
  /\ (omega_p <> 0%R -> (0 < gamma)%R ->
      (0 < imag (drude_eps omega eps_inf omega_p gamma))%R
      /\ (real (drude_eps omega eps_inf omega_p gamma) < eps_inf)%R).
Proof.
  intros Homega Hgamma.
  destruct (drude_eps_parts omega eps_inf omega_p gamma) as [-> ->]; [lra |].
  assert (Hsq : (0 < omega * omega + gamma * gamma)%R) by nra.
  assert (Hden : (0 < omega * (omega * omega + gamma * gamma))%R) by nra.
  assert (Hp : (0 <= omega_p * omega_p)%R) by nra.
  split; [| split].
  - apply Rmult_le_pos; [nra | apply Rlt_le, Rinv_0_lt_compat, Hden].
  - assert (0 <= omega_p * omega_p / (omega * omega + gamma * gamma))%R
      by (apply Rmult_le_pos; [exact Hp | apply Rlt_le, Rinv_0_lt_compat, Hsq]).
    lra.
  - intros Hpne Hgpos.
    assert (Hp' : (0 < omega_p * omega_p)%R) by nra.
    split.
    + apply Rmult_lt_0_compat; [nra | apply Rinv_0_lt_compat, Hden].
    + assert (0 < omega_p * omega_p / (omega * omega + gamma * gamma))%R
        by (apply Rmult_lt_0_compat; [exact Hp' | apply Rinv_0_lt_compat, Hsq]).
      lra.
Qed.

Lemma drude_eps_passive_witness :
  (0 <= imag (drude_eps 2e15%R 4.3%R 1e16%R 1e13%R))%R.
Proof. apply (drude_eps_passive 2e15%R 4.3%R 1e16%R 1e13%R); lra. Defined.

(** X8. In exact arithmetic and for omega <> 0, the model at -omega is the
    complex conjugate of the model at omega. *)
Theorem drude_eps_conjugate (omega eps_inf omega_p gamma : R) :
  omega <> 0%R ->
  drude_eps (- omega)%R eps_inf omega_p gamma
  = cconj (drude_eps omega eps_inf omega_p gamma).
Proof.
  intros Homega.
  assert (Hneg : (- omega <> 0)%R) by lra.
  destruct (drude_eps_parts omega eps_inf omega_p gamma Homega) as [Hre Him].
  destruct (drude_eps_parts (- omega)%R eps_inf omega_p gamma Hneg) as [Hre' Him'].
  pose proof (square_sum_pos omega gamma Homega) as Hsq.
  unfold cconj. rewrite Hre, Him.
  destruct (drude_eps (- omega)%R eps_inf omega_p gamma) as [re im]. simpl in *.
  rewrite Hre', Him'. f_equal; field; repeat split; try assumption; nra.
Qed.

Lemma drude_eps_conjugate_witness :
  drude_eps (Ropp 2e15%R) 4.3%R 1e16%R 1e13%R
  = cconj (drude_eps 2e15%R 4.3%R 1e16%R 1e13%R).
Proof. apply (drude_eps_conjugate 2e15%R 4.3%R 1e16%R 1e13%R). lra. Defined.

(** ** The permittivity determines the optical constants *)

Lemma square_injective (x y : R) :
  (0 <= x)%R -> (0 <= y)%R -> (x * x = y * y)%R -> x = y.
Proof. intros Hx Hy Hsq. apply Rsqr_inj; assumption. Qed.

Lemma permittivity_injective (n k n' k' : R) :
  (0 <= n)%R -> (0 <= k)%R -> (0 <= n')%R -> (0 <= k')%R ->
  (n * n - k * k = n' * n' - k' * k')%R -> (2 * n * k = 2 * n' * k')%R ->
  n = n' /\ k = k'.
Proof.
  intros Hn Hk Hn' Hk' H1 H2.
  assert (Hs : (n * n + k * k = n' * n' + k' * k')%R).
  { apply square_injective; try nra.
    replace ((n * n + k * k) * (n * n + k * k))%R
      with ((n * n - k * k) * (n * n - k * k) + (2 * n * k) * (2 * n * k))%R by ring.
    rewrite H1, H2. ring. }
  split; apply square_injective; auto; lra.
Qed.

Lemma permittivity_lists_injective (n k n' k' : list R) :
  length k = length n -> length n' = length n -> length k' = length n ->
  Forall (Rle 0) n -> Forall (Rle 0) k -> Forall (Rle 0) n' -> Forall (Rle 0) k' ->
  map (fun nk => fst nk * fst nk - snd nk * snd nk)%R (combine n k)
  = map (fun nk => fst nk * fst nk - snd nk * snd nk)%R (combine n' k') ->
  map (fun nk => 2 * fst nk * snd nk)%R (combine n k)
  = map (fun nk => 2 * fst nk * snd nk)%R (combine n' k') ->
  n = n' /\ k = k'.
Proof.
  revert k n' k'.
  induction n as [| a n IH]; intros [| b k] [| a' n'] [| b' k'];
    simpl; try discriminate; auto.
  intros Hk Hn' Hk' Fn Fk Fn' Fk' [= H1 T1] [= H2 T2].
  inversion Fn; inversion Fk; inversion Fn'; inversion Fk'; subst.
  destruct (permittivity_injective a b a' b') as [-> ->]; auto.
  destruct (IH k n' k') as [-> ->]; auto.
Qed.

(** X9. In exact arithmetic the permittivity determines the optical
    constants: two materials with as many samples, whose n and k are not
    negative, and for which computeEpsilon returns the same two sequences,
    have the same n and the same k. *)
Theorem computeEpsilon_injective (m m' : Material R) :
  well_formed m -> well_formed m' ->
  length (wavelength_ m') = length (wavelength_ m) ->
  Forall (Rle 0) (n_ m) -> Forall (Rle 0) (k_ m) ->
  Forall (Rle 0) (n_ m') -> Forall (Rle 0) (k_ m') ->
  computeEpsilon m = computeEpsilon m' ->
  n_ m = n_ m' /\ k_ m = k_ m'.
Proof.
  intros Hm Hm' Hlen Fn Fk Fn' Fk'.
  rewrite (computeEpsilon_map m Hm), (computeEpsilon_map m' Hm').
  destruct Hm as [Hn Hk], Hm' as [Hn' Hk']. intros [= H1 H2].
  apply permittivity_lists_injective; auto; lia.
Qed.

Lemma computeEpsilon_injective_witness :
  n_ (material_of "Silver" [(620, 0.06, 4)]%R)
  = n_ (material_of "Gold" [(700, 0.06, 4)]%R)
  /\ k_ (material_of "Silver" [(620, 0.06, 4)]%R)
     = k_ (material_of "Gold" [(700, 0.06, 4)]%R).
Proof.
  apply (computeEpsilon_injective (material_of "Silver" [(620, 0.06, 4)]%R)
           (material_of "Gold" [(700, 0.06, 4)]%R));
    try (split; reflexivity); try reflexivity;
    repeat constructor; simpl; lra.
Defined.

(** ** computeError on a list of samples *)

Section ErrorOfSamples.

Context {T : Type} `{Scalar T}.
Local Open Scope dbl_scope.

Lemma at_middle (f : T * T * T -> T) (pre s : list (T * T * T)) (r : T * T * T) :
  at_ (map f (pre ++ r :: s)) (length pre) = f r.
Proof.
  unfold at_. rewrite map_app. simpl.
  rewrite app_nth2 by (rewrite length_map; lia).
  rewrite length_map, Nat.sub_diag. reflexivity.
Qed.

Lemma computeError_loop_samples (cfg : Config T) (eps_inf omega_p gamma : T)
    (s pre : list (T * T * T)) (error : T) :
  computeError_loop cfg (omegas_of (pre ++ s)) eps_inf omega_p gamma
    (eps1_of (pre ++ s)) (eps2_of (pre ++ s)) (length s) (length pre) error
  = fold_left (add_sample cfg eps_inf omega_p gamma) s error.
Proof.
  revert pre error. induction s as [| r s IH]; intros pre error; [reflexivity |].
  cbn [length computeError_loop fold_left].
  unfold omegas_of, eps1_of, eps2_of. rewrite !at_middle.
  fold (omegas_of (pre ++ r :: s)) (eps1_of (pre ++ r :: s)) (eps2_of (pre ++ r :: s)).
  replace (pre ++ r :: s) with ((pre ++ [r]) ++ s) by (now rewrite <- app_assoc).
  replace (S (length pre)) with (length (pre ++ [r]))
    by (rewrite length_app; simpl; lia).
  unfold add_sample at 2, contributes, sample_error.
  destruct ((fst (fst r) <? omega_min cfg) || (fst (fst r) >? omega_max cfg));
    cbn [negb]; apply IH.
Qed.

(** computeError is one pass over the samples. *)
Lemma error_of_samples_fold (cfg : Config T) (eps_inf omega_p gamma : T)
    (s : list (T * T * T)) :
  error_of_samples cfg eps_inf omega_p gamma s
  = fold_left (add_sample cfg eps_inf omega_p gamma) s (dec 0 0).
Proof.
  unfold error_of_samples, computeError.
  replace (length (omegas_of s)) with (length s) by (unfold omegas_of; now rewrite length_map).
  exact (computeError_loop_samples cfg eps_inf omega_p gamma s [] (dec 0 0)).
Qed.

Lemma fold_in_window_samples (cfg : Config T) (eps_inf omega_p gamma : T)
    (s : list (T * T * T)) (error : T) :
  fold_left (add_sample cfg eps_inf omega_p gamma) (in_window_samples cfg s) error
  = fold_left (add_sample cfg eps_inf omega_p gamma) s error.
Proof.
  revert error. induction s as [| r s IH]; intros error; [reflexivity |].
  unfold in_window_samples in *. simpl.
  destruct (contributes cfg (fst (fst r))) eqn:Hr; simpl.
  - apply IH.
  - rewrite IH. unfold add_sample at 3. now rewrite Hr.
Qed.

(** X10. In either arithmetic (so bit for bit in binary64), the samples
    that fail the window test can be removed beforehand: computeError on
    all the samples and computeError on those that pass the test return the
    same number. *)
Theorem computeError_on_window_samples (cfg : Config T) (eps_inf omega_p gamma : T)
    (samples : list (T * T * T)) :
  error_of_samples cfg eps_inf omega_p gamma (in_window_samples cfg samples)
  = error_of_samples cfg eps_inf omega_p gamma samples.
Proof. rewrite !error_of_samples_fold. apply fold_in_window_samples. Qed.

End ErrorOfSamples.

Section ExactErrorOfSamples.

Local Open Scope R_scope.

Lemma fold_add_sample_total (cfg : Config R) (eps_inf omega_p gamma : R)
    (s : list (R * R * R)) (error : R) :
  fold_left (add_sample cfg eps_inf omega_p gamma) s error
  = error + sample_total cfg eps_inf omega_p gamma s.
Proof.
  revert error. unfold sample_total, in_window_samples.
  induction s as [| r s IH]; intros error; simpl; [lra |].
  rewrite IH. unfold add_sample.
  destruct (contributes cfg (fst (fst r))); simpl; cbn [add R_scalar]; lra.
Qed.

Lemma error_of_samples_total (cfg : Config R) (eps_inf omega_p gamma : R)
    (s : list (R * R * R)) :
  error_of_samples cfg eps_inf omega_p gamma s
  = sample_total cfg eps_inf omega_p gamma s.
Proof.
  rewrite error_of_samples_fold, fold_add_sample_total, dec_0_R. lra.
Qed.

Lemma sample_error_nonneg (eps_inf omega_p gamma w e1 e2 : R) :
  0 <= sample_error eps_inf omega_p gamma w e1 e2.
Proof.
  unfold sample_error. rewrite dec_tiny_R. cbn [add sub mul div R_scalar].
  set (a := real _ - _). set (b := imag _ - _).
  apply Rmult_le_pos; [nra | apply Rlt_le, Rinv_0_lt_compat; nra].
Qed.

Lemma sample_error_zero (eps_inf omega_p gamma w e1 e2 : R) :
  sample_error eps_inf omega_p gamma w e1 e2 = 0
  <-> real (drude_eps w eps_inf omega_p gamma) = e1
      /\ imag (drude_eps w eps_inf omega_p gamma) = e2.
Proof.
  unfold sample_error. rewrite dec_tiny_R. cbn [add sub mul div R_scalar].
  set (re := real _). set (im := imag _).
  assert (Hnorm : 0 < e1 * e1 + e2 * e2 + 1e-12) by nra.
  split.
  - intros Hzero.
    apply (f_equal (fun x => x * (e1 * e1 + e2 * e2 + 1e-12))) in Hzero.
    cbv beta in Hzero. unfold Rdiv in Hzero.
    rewrite Rmult_assoc, Rinv_l, Rmult_1_r, Rmult_0_l in Hzero by lra.
    clearbody re im.
    pose proof (Rle_0_sqr (re - e1)) as Ha. pose proof (Rle_0_sqr (im - e2)) as Hb.
    unfold Rsqr in Ha, Hb.
    assert (Ha0 : Rsqr (re - e1) = 0) by (unfold Rsqr; lra).
    assert (Hb0 : Rsqr (im - e2) = 0) by (unfold Rsqr; lra).
    apply Rsqr_0_uniq in Ha0, Hb0. split; lra.
  - intros [-> ->]. unfold Rdiv.
    replace ((e1 - e1) * (e1 - e1) + (e2 - e2) * (e2 - e2)) with 0 by ring.
    apply Rmult_0_l.
Qed.

Lemma sum_zero_iff {A : Type} (f : A -> R) (l : list A) :
  (forall x, 0 <= f x) ->
  fold_right Rplus 0 (map f l) = 0 <-> forall x, In x l -> f x = 0.
Proof.
  intros Hf. induction l as [| a l IH]; simpl.
  - split; [intros _ x [] | reflexivity].
  - assert (Hsum : 0 <= fold_right Rplus 0 (map f l)).
    { clear IH. induction l as [| b l IHl]; simpl; [lra |]. specialize (Hf b). lra. }
    specialize (Hf a). split.
    + intros Hzero x [<- | Hx]; [lra |]. apply IH; [lra | exact Hx].
    + intros Hall. rewrite (Hall a) by now left.
      rewrite (proj2 IH); [lra |]. intros x Hx. apply Hall. now right.
Qed.

Lemma sample_total_nonneg (cfg : Config R) (eps_inf omega_p gamma : R)
    (s : list (R * R * R)) :
  0 <= sample_total cfg eps_inf omega_p gamma s.
Proof.
  unfold sample_total.
  induction (in_window_samples cfg s) as [| r l IH]; cbn [map fold_right]; [lra |].
  pose proof (sample_error_nonneg eps_inf omega_p gamma
                (fst (fst r)) (snd (fst r)) (snd r)) as Hr.
  apply Rplus_le_le_0_compat; assumption.
Qed.

Lemma error_of_samples_zero_iff (cfg : Config R) (eps_inf omega_p gamma : R)
    (samples : list (R * R * R)) :
  error_of_samples cfg eps_inf omega_p gamma samples = 0
  <-> forall sample, In sample samples -> in_window cfg (fst (fst sample)) ->
                     matches eps_inf omega_p gamma sample.
Proof.
  rewrite error_of_samples_total. unfold sample_total.
  rewrite sum_zero_iff by (intros r; apply sample_error_nonneg).
  unfold in_window_samples, matches. split.
  - intros Hall r Hr Hw. apply sample_error_zero, Hall, filter_In.
    split; [exact Hr |]. rewrite contributes_in_windowb. now apply in_windowb_true.
  - intros Hall r Hr. apply filter_In in Hr. destruct Hr as [Hr Hw].
    apply sample_error_zero, Hall; [exact Hr |].
    rewrite contributes_in_windowb in Hw. now apply in_windowb_true.
Qed.

(** X11. In exact arithmetic computeError is 0 exactly when the fit is
    perfect on the window: for every sample whose omega lies in
    [omega_min, omega_max], the real and the imaginary part of the model
    equal the data. *)
Theorem computeError_zero_iff_perfect (cfg : Config R) (eps_inf omega_p gamma : R)
    (samples : list (R * R * R)) :
  error_of_samples cfg eps_inf omega_p gamma samples = 0
  <-> forall sample, In sample samples -> in_window cfg (fst (fst sample)) ->
                     matches eps_inf omega_p gamma sample.
Proof. apply error_of_samples_zero_iff. Qed.

Lemma sum_app (l l' : list R) :
  fold_right Rplus 0 (l ++ l') = fold_right Rplus 0 l + fold_right Rplus 0 l'.
Proof. induction l as [| x l IH]; simpl; lra. Qed.

(** X12. In exact arithmetic the error of two sets of samples put one after
    the other is the sum of their errors. *)
Theorem computeError_app (cfg : Config R) (eps_inf omega_p gamma : R)
    (samples more : list (R * R * R)) :
  error_of_samples cfg eps_inf omega_p gamma (samples ++ more)
  = error_of_samples cfg eps_inf omega_p gamma samples
    + error_of_samples cfg eps_inf omega_p gamma more.
Proof.
  rewrite !error_of_samples_total. unfold sample_total, in_window_samples.
  rewrite filter_app, map_app. apply sum_app.
Qed.

Lemma filter_permutation {A : Type} (f : A -> bool) (l l' : list A) :
  Permutation l l' -> Permutation (filter f l) (filter f l').
Proof.
  induction 1 as [| x l l' Hp IH | x y l | l l' l'' Hp IH Hp' IH']; simpl.
  - constructor.
  - destruct (f x); [now constructor | exact IH].
  - destruct (f x), (f y); try apply Permutation_refl; apply perm_swap.
  - now apply Permutation_trans with (filter f l').
Qed.

Lemma sum_permutation (l l' : list R) :
  Permutation l l' -> fold_right Rplus 0 l = fold_right Rplus 0 l'.
Proof. induction 1; simpl; lra. Qed.

(** X13. In exact arithmetic the error does not depend on the order of the
    samples: computeError returns the same number on any rearrangement of
    them. *)
Theorem computeError_permutation (cfg : Config R) (eps_inf omega_p gamma : R)
    (samples rearranged : list (R * R * R)) :
  Permutation samples rearranged ->
  error_of_samples cfg eps_inf omega_p gamma samples
  = error_of_samples cfg eps_inf omega_p gamma rearranged.
Proof.
  intros Hperm. rewrite !error_of_samples_total. unfold sample_total, in_window_samples.
  apply sum_permutation, Permutation_map, filter_permutation.
  exact Hperm.
Qed.

End ExactErrorOfSamples.

Lemma computeError_permutation_witness :
  error_of_samples default_config 4.3%R 1e16%R 1e13%R
    [(2e15, -20, 1); (3e15, -8, 0.5)]%R
  = error_of_samples default_config 4.3%R 1e16%R 1e13%R
      [(3e15, -8, 0.5); (2e15, -20, 1)]%R.
Proof.
  apply (computeError_permutation default_config 4.3%R 1e16%R 1e13%R).
  apply perm_swap.
Defined.

(** ** The fitted parameters and the end of the search *)

Lemma Enumerates_below {T : Type} `{Scalar T} (bound step x : T) (l : list T) :
  Enumerates bound step x l -> forall v, In v l -> (v <? bound)%dbl = true.
Proof.
  induction 1 as [x Hx | x l Hx Hl IH]; intros v; simpl; [intros [] |].
  intros [<- | Hv]; auto.
Qed.

Lemma grid_nonempty {T : Type} (ps gs : list T) (q : T * T) :
  In q (grid ps gs) -> In (fst q) ps /\ In (snd q) gs.
Proof. destruct q as [p g]. unfold grid. now rewrite in_prod_iff. Qed.

Lemma grid_search_result_in_grid {T : Type} `{ScalarOrder T}
    (cfg : Config T) (omega eps1_data eps2_data : list T) (fuel : nat) (r : FitResult T) :
  grid_search cfg fuel omega eps1_data eps2_data = Some r ->
  (best_error r <? dec 1 300)%dbl = true ->
  exists ps gs,
    Enumerates (omega_p_max cfg) (domega_p cfg) (omega_p_min cfg) ps
    /\ Enumerates (gamma_max cfg) (dgamma cfg) (gamma_min cfg) gs
    /\ In (best_omega_p r) ps /\ In (best_gamma r) gs
    /\ (best_omega_p r <? omega_p_max cfg)%dbl = true
    /\ (best_gamma r <? gamma_max cfg)%dbl = true
    /\ best_error r
       = computeError cfg omega (eps_inf cfg) (best_omega_p r) (best_gamma r)
           eps1_data eps2_data.
Proof.
  intros Hr Hbelow.
  destruct (grid_search_returns_enumerated cfg _ _ _ _ _ Hr)
    as (ps & Hps & Hplen & Hgs).
  destruct Hgs as [-> | (gs & Hgs & Hglen)].
  - exfalso. unfold grid_search in Hr. destruct fuel as [| fuel]; [discriminate |].
    inversion Hps as [x Hstop |]; subst. simpl in Hr. rewrite Hstop in Hr.
    injection Hr as <-. simpl in Hbelow. now rewrite ltb_irrefl in Hbelow.
  - rewrite (grid_search_enumerated cfg _ _ _ ps gs fuel Hps Hgs Hplen Hglen) in Hr.
    injection Hr as <-.
    pose proof (search_over_first_minimum cfg omega eps1_data eps2_data (grid ps gs))
      as [[Hnone _] | (pre & [p g] & post & Hgrid & Hres & _ & _ & _)].
    + exfalso. rewrite Hnone in Hbelow. simpl in Hbelow.
      now rewrite ltb_irrefl in Hbelow.
    + assert (Hin : In (p, g) (grid ps gs))
        by (rewrite Hgrid; apply in_or_app; right; now left).
      apply grid_nonempty in Hin. destruct Hin as [Hp Hg]. simpl in Hp, Hg.
      exists ps, gs. rewrite Hres. simpl.
      repeat split; auto.
      * exact (Enumerates_below _ _ _ _ Hps p Hp).
      * exact (Enumerates_below _ _ _ _ Hgs g Hg).
Qed.

(** X14. In either arithmetic: when the search returns an error below the
    initial 1e300, the parameters it returns are values that its two loops
    visited, so they are below omega_p_max and gamma_max, and the error
    it returns is the error of the data at these parameters. *)
Theorem fitted_parameters_are_grid_values {T : Type} `{ScalarOrder T}
    (cfg : Config T) (omega eps1_data eps2_data : list T) (fuel : nat) (r : FitResult T) :
  grid_search cfg fuel omega eps1_data eps2_data = Some r ->
  (best_error r <? dec 1 300)%dbl = true ->
  exists ps gs,
    Enumerates (omega_p_max cfg) (domega_p cfg) (omega_p_min cfg) ps
    /\ Enumerates (gamma_max cfg) (dgamma cfg) (gamma_min cfg) gs
    /\ In (best_omega_p r) ps /\ In (best_gamma r) gs
    /\ (best_omega_p r <? omega_p_max cfg)%dbl = true
    /\ (best_gamma r <? gamma_max cfg)%dbl = true
    /\ best_error r
       = computeError cfg omega (eps_inf cfg) (best_omega_p r) (best_gamma r)
           eps1_data eps2_data.
Proof. apply grid_search_result_in_grid. Qed.

Lemma fitted_parameters_are_grid_values_witness :
  exists ps gs,
    Enumerates (omega_p_max default_config) (domega_p default_config)
      (omega_p_min default_config) ps
    /\ Enumerates (gamma_max default_config) (dgamma default_config)
         (gamma_min default_config) gs
    /\ In 1e15%float ps /\ In 1e13%float gs
    /\ PrimFloat.ltb 1e15 (omega_p_max default_config) = true
    /\ PrimFloat.ltb 1e13 (gamma_max default_config) = true
    /\ 0%float
       = computeError default_config (getOmega (material_of "Silver" ultraviolet_row))
           (eps_inf default_config) 1e15%float 1e13%float
           (fst (computeEpsilon (material_of "Silver" ultraviolet_row)))
           (snd (computeEpsilon (material_of "Silver" ultraviolet_row))).
Proof.
  refine (fitted_parameters_are_grid_values default_config
            (getOmega (material_of "Silver" ultraviolet_row))
            (fst (computeEpsilon (material_of "Silver" ultraviolet_row)))
            (snd (computeEpsilon (material_of "Silver" ultraviolet_row)))
            600
            {| best_error := 0%float; best_omega_p := 1e15%float;
               best_gamma := 1e13%float |} _ _).
  - vm_compute. reflexivity.
  - vm_compute. reflexivity.
Defined.

(** *** The visited values in exact arithmetic *)

Section ExactSearch.

Local Open Scope R_scope.

Lemma Enumerates_affine (bound step x : R) (l : list R) :
  Enumerates bound step x l ->
  forall v, In v l -> exists i : nat, v = x + INR i * step /\ x <= v /\ 0 < step.
Proof.
  induction 1 as [x Hx | x l Hx Hl IH]; intros v; [intros [] |].
  assert (Hstep : 0 < step)
    by (apply (Enumerates_step_positive bound step x (x :: l));
        [now apply Enumerates_next | discriminate]).
  intros [<- | Hv].
  - exists 0%nat. simpl. repeat split; lra.
  - destruct (IH v Hv) as (i & Hi & Hle & _). cbn [add R_scalar] in Hi, Hle.
    exists (S i). rewrite S_INR. repeat split; lra.
Qed.

Lemma small_plasma_grid :
  Enumerates (omega_p_max small_config) (domega_p small_config)
    (omega_p_min small_config) [1; 1 + 1].
Proof.
  simpl. apply Enumerates_next; [apply Rltb_true; lra |].
  apply Enumerates_next; [apply Rltb_true; cbn; lra |].
  apply Enumerates_stop. apply Rltb_false. cbn. lra.
Qed.

Lemma small_damping_grid :
  Enumerates (gamma_max small_config) (dgamma small_config)
    (gamma_min small_config) [1].
Proof.
  simpl. apply Enumerates_next; [apply Rltb_true; lra |].
  apply Enumerates_stop. apply Rltb_false. cbn. lra.
Qed.

Lemma small_search :
  grid_search small_config 5 [] [] []
  = Some {| best_error := dec 0 0; best_omega_p := 1; best_gamma := 1 |}.
Proof.
  rewrite (grid_search_enumerated small_config [] [] [] _ _ 5
             small_plasma_grid small_damping_grid) by (simpl; lia).
  unfold search_over, grid. cbn [list_prod map app fold_left fst snd].
  unfold try_point at 2. cbn [computeError computeError_loop length best_error no_fit_yet].
  rewrite ltb_zero_huge.
  unfold try_point. cbn [computeError computeError_loop length best_error].
  now rewrite ltb_irrefl.
Qed.

(** X15. In exact arithmetic: when the search returns an error below the
    initial 1e300, the plasma frequency it returns is omega_p_min plus a
    whole number of steps domega_p and lies in [omega_p_min, omega_p_max),
    the damping rate is gamma_min plus a whole number of steps dgamma and
    lies in [gamma_min, gamma_max), and both steps are positive. *)
Theorem fitted_parameters_on_grid (cfg : Config R)
    (omega eps1_data eps2_data : list R) (fuel : nat) (r : FitResult R) :
  grid_search cfg fuel omega eps1_data eps2_data = Some r ->
  best_error r < dec 1 300 ->
  exists i j : nat,
    best_omega_p r = omega_p_min cfg + INR i * domega_p cfg
    /\ best_gamma r = gamma_min cfg + INR j * dgamma cfg
    /\ omega_p_min cfg <= best_omega_p r < omega_p_max cfg
    /\ gamma_min cfg <= best_gamma r < gamma_max cfg
    /\ 0 < domega_p cfg /\ 0 < dgamma cfg.
Proof.
  intros Hr Hbelow. apply Rltb_true in Hbelow.
  destruct (grid_search_result_in_grid cfg _ _ _ _ _ Hr Hbelow)
    as (ps & gs & Hps & Hgs & Hp & Hg & Hpmax & Hgmax & _).
  destruct (Enumerates_affine _ _ _ _ Hps _ Hp) as (i & Hi & Hpmin & Hdp).
  destruct (Enumerates_affine _ _ _ _ Hgs _ Hg) as (j & Hj & Hgmin & Hdg).
  apply Rltb_true in Hpmax, Hgmax.
  exists i, j. repeat split; assumption.
Qed.

Lemma fitted_parameters_on_grid_witness :
  exists i j : nat,
    1 = omega_p_min small_config + INR i * domega_p small_config
    /\ 1 = gamma_min small_config + INR j * dgamma small_config
    /\ omega_p_min small_config <= 1 < omega_p_max small_config
    /\ gamma_min small_config <= 1 < gamma_max small_config
    /\ 0 < domega_p small_config /\ 0 < dgamma small_config.
Proof.
  refine (fitted_parameters_on_grid small_config [] [] [] 5
            {| best_error := dec 0 0; best_omega_p := 1; best_gamma := 1 |} _ _).
  - exact small_search.
  - apply Rltb_true. exact (@ltb_zero_huge R R_scalar R_order).
Defined.

End ExactSearch.

(** *** When the search ends *)

Lemma for_double_absorbed {T : Type} `{Scalar T} {S : Type}
    (body : T -> S -> option S) (x bound step : T) :
  (x <? bound)%dbl = true -> (x + step)%dbl = x ->
  forall (fuel : nat) (s : S), for_double fuel x bound step body s = None.
Proof.
  intros Hx Hstep fuel. induction fuel as [| fuel IH]; intros s; simpl; [reflexivity |].
  rewrite Hx. destruct (body x s) as [s' |]; [| reflexivity].
  rewrite Hstep. apply IH.
Qed.

Lemma for_double_body_fails {T : Type} `{Scalar T} {S : Type}
    (body : T -> S -> option S) (x bound step : T) (fuel : nat) (s : S) :
  (x <? bound)%dbl = true -> body x s = None ->
  for_double (Datatypes.S fuel) x bound step body s = None.
Proof. intros Hx Hbody. simpl. now rewrite Hx, Hbody. Qed.

Lemma for_double_skips {T : Type} `{Scalar T} {S : Type}
    (body : T -> S -> option S) (x bound step : T) (fuel : nat) (s : S) :
  (x <? bound)%dbl = false ->
  for_double (Datatypes.S fuel) x bound step body s = Some s.
Proof. intros Hx. simpl. now rewrite Hx. Qed.

(** X16. In either arithmetic: when omega_p_min is below omega_p_max and
    adding the step domega_p to omega_p_min gives omega_p_min again (a step
    of zero, or in binary64 one below half the spacing of the doubles
    there), the search never ends; likewise when the inner loop is entered
    and gamma_min + dgamma gives gamma_min. *)
Theorem grid_search_absorbed_step {T : Type} `{Scalar T} (cfg : Config T)
    (fuel : nat) (omega eps1_data eps2_data : list T) :
  (omega_p_min cfg <? omega_p_max cfg)%dbl = true ->
  (omega_p_min cfg + domega_p cfg)%dbl = omega_p_min cfg
  \/ ((gamma_min cfg <? gamma_max cfg)%dbl = true
      /\ (gamma_min cfg + dgamma cfg)%dbl = gamma_min cfg) ->
  grid_search cfg fuel omega eps1_data eps2_data = None.
Proof.
  intros Hp [Hstep | [Hg Hstep]]; unfold grid_search.
  - now apply for_double_absorbed.
  - destruct fuel as [| fuel]; [reflexivity |].
    apply for_double_body_fails; [exact Hp |]. now apply for_double_absorbed.
Qed.

Lemma grid_search_absorbed_step_witness :
  grid_search fine_step_config 600
    (getOmega (material_of "Silver" three_rows))
    (fst (computeEpsilon (material_of "Silver" three_rows)))
    (snd (computeEpsilon (material_of "Silver" three_rows)))
  = None.
Proof.
  apply grid_search_absorbed_step.
  - vm_compute. reflexivity.
  - left. vm_compute. reflexivity.
Defined.

Section ExactTermination.

Local Open Scope R_scope.

Lemma for_double_stuck {S : Type} (body : R -> S -> option S) (bound step : R) :
  step <= 0 ->
  forall (fuel : nat) (x : R) (s : S),
    x < bound -> for_double fuel x bound step body s = None.
Proof.
  intros Hstep fuel. induction fuel as [| fuel IH]; intros x s Hx; simpl; [reflexivity |].
  rewrite (proj2 (Rltb_true x bound) Hx).
  destruct (body x s) as [s' |]; [| reflexivity].
  apply IH. lra.
Qed.

Lemma nat_above (r : R) : exists n : nat, r <= INR n.
Proof.
  destruct (archimed r) as [Hup _].
  destruct (Z_lt_le_dec (up r) 0) as [Hneg | Hpos].
  - exists 0%nat. apply IZR_lt in Hneg. simpl. lra.
  - exists (Z.to_nat (up r)). rewrite INR_IZR_INZ, Z2Nat.id by exact Hpos. lra.
Qed.

Lemma Enumerates_within (bound step : R) (n : nat) :
  forall x, bound <= x + INR n * step -> exists l, Enumerates bound step x l.
Proof.
  induction n as [| n IH]; intros x Hn.
  - exists []. apply Enumerates_stop, Rltb_false. simpl in Hn. lra.
  - destruct (Rlt_dec x bound) as [Hx | Hx].
    + destruct (IH (x + step)) as [l Hl]; [rewrite S_INR in Hn; lra |].
      exists (x :: l). apply Enumerates_next; [now apply Rltb_true | exact Hl].
    + exists []. apply Enumerates_stop, Rltb_false. lra.
Qed.

Lemma Enumerates_exists (bound step x : R) :
  0 < step -> exists l, Enumerates bound step x l.
Proof.
  intros Hstep. destruct (nat_above ((bound - x) / step)) as [n Hn].
  apply (Enumerates_within bound step n).
  apply (Rmult_le_compat_r step) in Hn; [| lra].
  unfold Rdiv in Hn. rewrite Rmult_assoc, Rinv_l, Rmult_1_r in Hn by lra. lra.
Qed.

(** X17. In exact arithmetic the search ends exactly when the outer loop
    is not entered, or its step domega_p is positive and the inner loop is
    not entered or has a positive step dgamma. A step that is zero or
    negative, in a loop that is entered, makes the program run for ever. *)
Theorem grid_search_ends_iff (cfg : Config R) (omega eps1_data eps2_data : list R) :
  (exists fuel r, grid_search cfg fuel omega eps1_data eps2_data = Some r)
  <-> omega_p_max cfg <= omega_p_min cfg
      \/ (0 < domega_p cfg
          /\ (gamma_max cfg <= gamma_min cfg \/ 0 < dgamma cfg)).
Proof.
  split.
  - intros (fuel & r & Hr).
    destruct (Rle_dec (omega_p_max cfg) (omega_p_min cfg)) as [Hp | Hp]; [now left |].
    right. assert (Hp' : omega_p_min cfg < omega_p_max cfg) by lra.
    destruct (Rlt_dec 0 (domega_p cfg)) as [Hdp | Hdp].
    + split; [exact Hdp |].
      destruct (Rle_dec (gamma_max cfg) (gamma_min cfg)) as [Hg | Hg]; [now left |].
      right. destruct (Rlt_dec 0 (dgamma cfg)) as [Hdg | Hdg]; [exact Hdg | exfalso].
      unfold grid_search in Hr. destruct fuel as [| fuel]; [discriminate |].
      rewrite for_double_body_fails in Hr; [discriminate | now apply Rltb_true |].
      apply for_double_stuck; lra.
    + exfalso. unfold grid_search in Hr.
      rewrite (for_double_stuck _ (omega_p_max cfg) (domega_p cfg)) in Hr by lra.
      discriminate.
  - intros [Hp | [Hdp Hg]].
    + exists 1%nat, no_fit_yet. unfold grid_search.
      apply for_double_skips. now apply Rltb_false.
    + destruct (Enumerates_exists (omega_p_max cfg) (domega_p cfg) (omega_p_min cfg) Hdp)
        as [ps Hps].
      assert (Hgs : exists gs, Enumerates (gamma_max cfg) (dgamma cfg) (gamma_min cfg) gs).
      { destruct Hg as [Hg | Hdg].
        - exists []. now apply Enumerates_stop, Rltb_false.
        - now apply Enumerates_exists. }
      destruct Hgs as [gs Hgs].
      exists (S (Nat.max (length ps) (length gs))).
      exists (search_over cfg omega eps1_data eps2_data (grid ps gs) no_fit_yet).
      apply grid_search_enumerated; auto; lia.
Qed.

(** *** Data that the model fits exactly *)

(** X18. In exact arithmetic: when the permittivities in the window are
    those of the Drude model at a plasma frequency and a damping rate that
    the search visits, the search returns the error 0, and its parameters
    reproduce every sample in the window. *)
Theorem fit_recovers_exact_data (cfg : Config R) (samples : list (R * R * R))
    (ps gs : list R) (fuel : nat) (omega_p gamma : R) :
  Enumerates (omega_p_max cfg) (domega_p cfg) (omega_p_min cfg) ps ->
  Enumerates (gamma_max cfg) (dgamma cfg) (gamma_min cfg) gs ->
  (length ps < fuel)%nat -> (length gs < fuel)%nat ->
  In omega_p ps -> In gamma gs ->
  (forall sample, In sample samples -> in_window cfg (fst (fst sample)) ->
                  matches (eps_inf cfg) omega_p gamma sample) ->
  exists r,
    grid_search cfg fuel (omegas_of samples) (eps1_of samples) (eps2_of samples) = Some r
    /\ best_error r = 0
    /\ forall sample, In sample samples -> in_window cfg (fst (fst sample)) ->
                      matches (eps_inf cfg) (best_omega_p r) (best_gamma r) sample.
Proof.
  intros Hps Hgs Hplen Hglen Hp Hg Hexact.
  exists (search_over cfg (omegas_of samples) (eps1_of samples) (eps2_of samples)
            (grid ps gs) no_fit_yet).
  split; [now apply grid_search_enumerated |].
  assert (Herr : forall q,
             point_error cfg (omegas_of samples) (eps1_of samples) (eps2_of samples) q
             = error_of_samples cfg (eps_inf cfg) (fst q) (snd q) samples)
    by reflexivity.
  assert (Hin : In (omega_p, gamma) (grid ps gs))
    by (unfold grid; now apply in_prod).
  apply error_of_samples_zero_iff in Hexact.
  pose proof (search_over_first_minimum cfg (omegas_of samples) (eps1_of samples)
                (eps2_of samples) (grid ps gs))
    as [[_ Hnone] | (pre & [p g] & post & _ & Hres & _ & Hmin & _)].
  - exfalso. specialize (Hnone _ Hin). cbv zeta in Hnone.
    rewrite Herr in Hnone. cbn [fst snd] in Hnone. rewrite Hexact in Hnone.
    rewrite <- dec_0_R in Hnone. rewrite ltb_zero_huge in Hnone. discriminate.
  - rewrite Hres. cbn [best_error best_omega_p best_gamma fst snd].
    specialize (Hmin _ Hin). cbv zeta in Hmin. rewrite !Herr in Hmin.
    cbn [fst snd] in Hmin. rewrite Hexact in Hmin. apply Rltb_false in Hmin.
    rewrite Herr. cbn [fst snd].
    assert (Hzero : error_of_samples cfg (eps_inf cfg) p g samples = 0).
    { pose proof (sample_total_nonneg cfg (eps_inf cfg) p g samples) as Hpos.
      rewrite <- error_of_samples_total in Hpos. lra. }
    split; [exact Hzero |]. now apply error_of_samples_zero_iff.
Qed.

Lemma fit_recovers_exact_data_witness :
  exists r,
    grid_search small_config 5 (omegas_of [(1, 1 / 2, 1 / 2)])
      (eps1_of [(1, 1 / 2, 1 / 2)]) (eps2_of [(1, 1 / 2, 1 / 2)]) = Some r
    /\ best_error r = 0
    /\ forall sample, In sample [(1, 1 / 2, 1 / 2)] ->
                      in_window small_config (fst (fst sample)) ->
                      matches (eps_inf small_config) (best_omega_p r) (best_gamma r) sample.
Proof.
  refine (fit_recovers_exact_data small_config [(1, 1 / 2, 1 / 2)] _ _ 5 1 1
            small_plasma_grid small_damping_grid _ _ _ _ _).
  - simpl. lia.
  - simpl. lia.
  - now left.
  - now left.
  - intros sample [<- | []] _. unfold matches. cbn [fst snd eps_inf small_config].
    destruct (drude_eps_parts 1 1 1 1) as [-> ->]; [lra |]. split; field.
Defined.

End ExactTermination.

(** ** The whole run: fitted curves and plots *)

Section WholeRun.

Context {T : Type} `{Scalar T}.
Local Open Scope dbl_scope.

Lemma skipn_nth {A : Type} (d : A) (v : list A) (i : nat) :
  (i < length v)%nat -> skipn i v = nth i v d :: skipn (S i) v.
Proof.
  revert i. induction v as [| a v IH]; intros [| i] Hi; simpl in *; try lia.
  - reflexivity.
  - rewrite (IH i) by lia. reflexivity.
Qed.

Lemma assign_middle {A : Type} (filled rest : list A) (a x : A) (i : nat) :
  length filled = i -> assign (filled ++ a :: rest) i x = filled ++ x :: rest.
Proof.
  intros <-. induction filled as [| b filled IH]; simpl; [reflexivity | now rewrite IH].
Qed.

Lemma eps_model_loop_map (omega : list T) (eps_inf best_omega_p best_gamma : T)
    (todo : nat) :
  forall (i : nat) (filled rest : list (complex T)),
    length filled = i -> length rest = todo -> (i + todo = length omega)%nat ->
    eps_model_loop omega eps_inf best_omega_p best_gamma todo i (filled ++ rest)
    = filled ++ map (fun w => drude_eps w eps_inf best_omega_p best_gamma) (skipn i omega).
Proof.
  induction todo as [| todo IH]; intros i filled rest Hi Hrest Hlen.
  - destruct rest; [| discriminate]. rewrite skipn_all2 by lia. reflexivity.
  - destruct rest as [| a rest]; [discriminate |]. cbn [eps_model_loop].
    rewrite assign_middle by exact Hi.
    replace (filled ++ drude_eps (at_ omega i) eps_inf best_omega_p best_gamma :: rest)
      with ((filled ++ [drude_eps (at_ omega i) eps_inf best_omega_p best_gamma]) ++ rest)
      by (now rewrite <- app_assoc).
    rewrite IH; [| rewrite length_app; simpl; lia | simpl in Hrest; lia | lia].
    rewrite (skipn_at omega i) by lia.
    now rewrite <- app_assoc.
Qed.

Lemma model_parts_loop_map (eps_model : list (complex T)) (todo : nat) :
  forall (i : nat) (filled1 rest1 filled2 rest2 : list T),
    length filled1 = i -> length rest1 = todo ->
    length filled2 = i -> length rest2 = todo ->
    (i + todo = length eps_model)%nat ->
    model_parts_loop eps_model todo i (filled1 ++ rest1) (filled2 ++ rest2)
    = (filled1 ++ map real (skipn i eps_model), filled2 ++ map imag (skipn i eps_model)).
Proof.
  induction todo as [| todo IH]; intros i filled1 rest1 filled2 rest2 Hi1 Hr1 Hi2 Hr2 Hlen.
  - destruct rest1; [| discriminate]. destruct rest2; [| discriminate].
    rewrite skipn_all2 by lia. reflexivity.
  - destruct rest1 as [| a1 rest1]; [discriminate |].
    destruct rest2 as [| a2 rest2]; [discriminate |]. cbn [model_parts_loop].
    rewrite !assign_middle by assumption.
    replace (filled1 ++ real (nth i eps_model czero) :: rest1)
      with ((filled1 ++ [real (nth i eps_model czero)]) ++ rest1)
      by (now rewrite <- app_assoc).
    replace (filled2 ++ imag (nth i eps_model czero) :: rest2)
      with ((filled2 ++ [imag (nth i eps_model czero)]) ++ rest2)
      by (now rewrite <- app_assoc).
    rewrite IH; try (rewrite length_app; simpl; lia); try (simpl in *; lia).
    rewrite (skipn_nth czero eps_model i) by lia.
    simpl. now rewrite <- !app_assoc.
Qed.

(** The two loops of main that fill the fitted curves. *)
Lemma fitted_curves (omega : list T) (eps_inf best_omega_p best_gamma : T) :
  let eps_model :=
    eps_model_loop omega eps_inf best_omega_p best_gamma
      (length omega) 0 (repeat czero (length omega)) in
  model_parts_loop eps_model (length omega) 0
    (repeat (dec 0 0) (length eps_model)) (repeat (dec 0 0) (length eps_model))
  = (map (fun w => real (drude_eps w eps_inf best_omega_p best_gamma)) omega,
     map (fun w => imag (drude_eps w eps_inf best_omega_p best_gamma)) omega).
Proof.
  intros eps_model.
  assert (Hmodel : eps_model
                   = map (fun w => drude_eps w eps_inf best_omega_p best_gamma) omega).
  { unfold eps_model.
    exact (eps_model_loop_map omega eps_inf best_omega_p best_gamma (length omega) 0
             [] (repeat czero (length omega)) eq_refl (repeat_length _ _) eq_refl). }
  clearbody eps_model.
  assert (Hlen : length eps_model = length omega) by (now rewrite Hmodel, length_map).
  pose proof (model_parts_loop_map eps_model (length omega) 0
                [] (repeat (dec 0 0) (length omega)) [] (repeat (dec 0 0) (length omega))
                eq_refl (repeat_length _ _) eq_refl (repeat_length _ _) (eq_sym Hlen))
    as Hparts.
  cbn [app skipn] in Hparts. rewrite Hlen, Hparts, Hmodel, !map_map. reflexivity.
Qed.

Lemma dispersionPlot_well_sized (number : Z) (x y1 y2 : list T)
    (title labelx labely legend1 legend2 linestyle : string) :
  length y1 = length x -> length y2 = length x ->
  Forall well_sized
    (dispersionPlot number x y1 y2 title labelx labely legend1 legend2 linestyle).
Proof. intros H1 H2. unfold dispersionPlot. repeat constructor; assumption. Qed.

(** X19. A run of version 2.0 whose file holds a first row that parses and
    whose search ends: the first fitted curve is the real part and the
    second the imaginary part of the Drude model at the fitted parameters,
    one value per loaded sample in the order of the samples; and in every
    curve the program plots, at either plot level, the ordinates are as
    many as the abscissas. *)
Theorem main_v2_report (plotLevel : PlotLevel) (cfg : Config T) (fuel : nat)
    (rows : list (Extraction T)) (best : FitResult T) :
  let Ag := loadData_loop rows (mkMaterial "Silver") in
  wavelength_ Ag <> [] ->
  grid_search cfg fuel (getOmega Ag) (fst (computeEpsilon Ag)) (snd (computeEpsilon Ag))
  = Some best ->
  exists report,
    main_v2 plotLevel cfg fuel (Some rows) = Returned (Some report)
    /\ fitted report = best
    /\ eps1_model report
       = map (fun w => real (drude_eps w (eps_inf cfg) (best_omega_p best) (best_gamma best)))
           (getOmega Ag)
    /\ eps2_model report
       = map (fun w => imag (drude_eps w (eps_inf cfg) (best_omega_p best) (best_gamma best)))
           (getOmega Ag)
    /\ Forall well_sized (plots report).
Proof.
  intros Ag Hrows Hbest.
  assert (Hwf : well_formed Ag)
    by (apply loadData_loop_well_formed, mkMaterial_well_formed).
  destruct (computeEpsilon_length Ag Hwf) as [He1 He2].
  assert (Homega : length (getOmega Ag) = length (wavelength_ Ag))
    by (now rewrite getOmega_map, length_map).
  assert (Henergy : length (getEnergy Ag) = length (wavelength_ Ag))
    by (now rewrite getEnergy_map, length_map).
  unfold main_v2, loadData. fold Ag.
  destruct (wavelength_ Ag) as [| front rest] eqn:Hwl; [congruence |].
  cbv beta iota zeta. rewrite Hbest.
  pose proof (fitted_curves (getOmega Ag) (eps_inf cfg) (best_omega_p best)
                (best_gamma best)) as Hcurves.
  cbv zeta in Hcurves. rewrite Hcurves.
  eexists. split; [reflexivity |].
  cbn [fitted eps1_model eps2_model plots fst snd].
  repeat split.
  destruct Hwf as [Hn Hk]. unfold getWavelength, getN, getK.
  rewrite Hwl in *.
  destruct plotLevel; cbn [app];
    repeat (apply Forall_app; split);
    try apply dispersionPlot_well_sized;
    try (repeat constructor);
    rewrite ?length_map; congruence.
Qed.

(** X20. Version 2.0 at the plot level Basic against version 1.0, on any
    file: both throw the same message or both are undefined on the same
    files, and when both return they make the same calls to the plotting
    library in the same order, with the same figures, titles, axis labels
    and points; the curves differ at most in their legend names and line
    formats. Version 2.0 returns only when its search ends. *)
Theorem basic_plots_match_v1 (cfg : Config T) (fuel : nat)
    (file : option (list (Extraction T))) :
  match main_v2 Basic cfg fuel file, main_v1 file with
  | Returned (Some report), Returned calls => Forall2 same_drawing calls (plots report)
  | Returned None, Returned _ =>
      match file with
      | Some rows => fit cfg fuel (loadData_loop rows (mkMaterial "Silver")) = None
      | None => False
      end
  | Thrown what, Thrown what' => what = what'
  | Undefined, Undefined => True
  | _, _ => False
  end.
Proof.
  unfold main_v2, main_v1.
  destruct file as [rows |]; [| reflexivity].
  unfold loadData.
  destruct (wavelength_ (loadData_loop rows (mkMaterial "Silver"))) as [| front rest];
    [exact I |].
  cbv beta iota zeta. unfold fit.
  destruct (grid_search cfg fuel _ _ _) as [best |] eqn:Hbest.
  - cbn [plots app]. unfold dispersionPlot, dispersionPlot_v1. cbn [app].
    repeat constructor.
  - reflexivity.
Qed.

(** X21. The whole run reads tokens, not lines: replacing every white-space
    character of the file, line ends included, by a space changes nothing
    in what version 2.0 (at either plot level) and version 1.0 do. *)
Theorem runs_read_tokens_not_lines `{Strtod T} (plotLevel : PlotLevel)
    (cfg : Config T) (fuel : nat) (text : string) :
  main_v2_text plotLevel cfg fuel (Some (one_line text))
  = main_v2_text plotLevel cfg fuel (Some text)
  /\ main_v1_text (T:=T) (Some (one_line text)) = main_v1_text (Some text)
  /\ main_text cfg fuel (Some (one_line text)) = main_text cfg fuel (Some text).
Proof.
  unfold main_v2_text, main_v1_text, main_text, extractions. cbn [option_map].
  rewrite scan_one_line. repeat split.
Qed.

End WholeRun.

(** ** The search in binary64 *)

Lemma grid_search_result {T : Type} `{ScalarOrder T}
    (cfg : Config T) (omega eps1_data eps2_data : list T) (fuel : nat) (r : FitResult T) :
  grid_search cfg fuel omega eps1_data eps2_data = Some r ->
  r = no_fit_yet
  \/ (best_error r
      = computeError cfg omega (eps_inf cfg) (best_omega_p r) (best_gamma r)
          eps1_data eps2_data
      /\ (best_error r <? dec 1 300)%dbl = true).
Proof.
  intros Hr.
  destruct (grid_search_returns_enumerated cfg _ _ _ _ _ Hr)
    as (ps & Hps & Hplen & Hgs).
  destruct Hgs as [-> | (gs & Hgs & Hglen)].
  - left. unfold grid_search in Hr. destruct fuel as [| fuel]; [discriminate |].
    inversion Hps as [x Hstop |]; subst.
    rewrite for_double_skips in Hr by exact Hstop. now injection Hr as <-.
  - rewrite (grid_search_enumerated cfg _ _ _ ps gs fuel Hps Hgs Hplen Hglen) in Hr.
    injection Hr as <-.
    pose proof (search_over_first_minimum cfg omega eps1_data eps2_data (grid ps gs))
      as [[Hnone _] | (pre & [p g] & post & _ & Hres & Hbelow & _ & _)].
    + now left.
    + right. rewrite Hres. simpl. split; [reflexivity | exact Hbelow].
Qed.

Lemma not_negative_number (x y : float) :
  PrimFloat.ltb x 0 = false -> PrimFloat.ltb x y = true -> PrimFloat.leb 0 x = true.
Proof.
  rewrite !ltb_spec, leb_spec. change (Prim2SF 0) with (S754_zero false).
  destruct (Prim2SF x) as [s | s | | s m e]; try destruct s;
    simpl; intros Hsign Hnumber; try discriminate; reflexivity.
Qed.

Lemma ltb_leb (x y : float) : PrimFloat.ltb x y = true -> PrimFloat.leb x y = true.
Proof.
  rewrite ltb_spec, leb_spec. unfold SFltb, SFleb.
  destruct (SFcompare (Prim2SF x) (Prim2SF y)) as [[| |] |]; intros Hlt;
    try discriminate; reflexivity.
Qed.

(** X22. In binary64, for any constants and any data, infinities and NaN
    included: when the search ends, the best error it reports is a number
    from 0 to 1e300; it is never negative and never NaN. *)
Theorem reported_error_is_a_number (cfg : Config float) (fuel : nat)
    (omega eps1_data eps2_data : list float) (r : FitResult float) :
  grid_search cfg fuel omega eps1_data eps2_data = Some r ->
  PrimFloat.leb 0 (best_error r) = true /\ PrimFloat.leb (best_error r) 1e300 = true.
Proof.
  intros Hr. destruct (grid_search_result cfg _ _ _ _ _ Hr) as [-> | [Herr Hbelow]].
  - split; vm_compute; reflexivity.
  - assert (Hhuge : (dec 1 300 : float) = 1e300%float) by (vm_compute; reflexivity).
    rewrite Hhuge in Hbelow. cbn [ltb float_scalar] in Hbelow. split.
    + apply (not_negative_number _ 1e300); [| exact Hbelow].
      rewrite Herr. apply computeError_not_negative.
    + now apply ltb_leb.
Qed.

Lemma reported_error_is_a_number_witness :
  PrimFloat.leb 0 0.0040019090077075365 = true
  /\ PrimFloat.leb 0.0040019090077075365 1e300 = true.
Proof.
  refine (reported_error_is_a_number coarse_config 600
            (getOmega (material_of "Silver" three_rows))
            (fst (computeEpsilon (material_of "Silver" three_rows)))
            (snd (computeEpsilon (material_of "Silver" three_rows)))
            {| best_error := 0.0040019090077075365%float;
               best_omega_p := 14000000000000000%float;
               best_gamma := 40000000000000%float |} _).
  vm_compute. reflexivity.
Defined.

(** X23. In binary64 with the constants of the source, for any data: the
    outer loop visits the 580 plasma frequencies 1e15 + i * 5e13 and the
    inner loop the 140 damping rates 1e13 + j * 1e12, each of them exactly
    (the repeated additions round nowhere), 2.995e16 and 1.49e14 being the
    last; so the search ends after 81200 evaluations of the error. *)
Theorem default_search_grid (fuel : nat) (omega eps1_data eps2_data : list float) :
  (580 < fuel)%nat ->
  let ps := map (fun i => float_of_Z (10 ^ 15 + Z.of_nat i * (5 * 10 ^ 13))) (seq 0 580) in
  let gs := map (fun j => float_of_Z (10 ^ 13 + Z.of_nat j * 10 ^ 12)) (seq 0 140) in
  Enumerates (omega_p_max default_config) (domega_p default_config)
    (omega_p_min default_config) ps
  /\ Enumerates (gamma_max default_config) (dgamma default_config)
       (gamma_min default_config) gs
  /\ grid_search default_config fuel omega eps1_data eps2_data
     = Some (search_over default_config omega eps1_data eps2_data (grid ps gs) no_fit_yet)
  /\ length (grid ps gs) = (580 * 140)%nat
  /\ last ps 0%float = 2.995e16%float /\ last gs 0%float = 1.49e14%float.
Proof.
  intros Hfuel ps gs.
  assert (Hps : Enumerates (omega_p_max default_config) (domega_p default_config)
                  (omega_p_min default_config) ps)
    by (apply (frange_Enumerates 600); vm_compute; reflexivity).
  assert (Hgs : Enumerates (gamma_max default_config) (dgamma default_config)
                  (gamma_min default_config) gs)
    by (apply (frange_Enumerates 600); vm_compute; reflexivity).
  assert (Hplen : length ps = 580%nat) by (unfold ps; now rewrite length_map, length_seq).
  assert (Hglen : length gs = 140%nat) by (unfold gs; now rewrite length_map, length_seq).
  repeat apply conj; try assumption.
  - apply grid_search_enumerated; try assumption; lia.
  - unfold grid. rewrite length_prod, Hplen, Hglen. reflexivity.
  - vm_compute. reflexivity.
  - vm_compute. reflexivity.
Qed.

Lemma default_search_grid_witness :
  let ps := map (fun i => float_of_Z (10 ^ 15 + Z.of_nat i * (5 * 10 ^ 13))) (seq 0 580) in
  let gs := map (fun j => float_of_Z (10 ^ 13 + Z.of_nat j * 10 ^ 12)) (seq 0 140) in
  Enumerates (omega_p_max default_config) (domega_p default_config)
    (omega_p_min default_config) ps
  /\ Enumerates (gamma_max default_config) (dgamma default_config)
       (gamma_min default_config) gs
  /\ grid_search default_config 600 (getOmega (material_of "Silver" three_rows))
       (fst (computeEpsilon (material_of "Silver" three_rows)))
       (snd (computeEpsilon (material_of "Silver" three_rows)))
     = Some (search_over default_config (getOmega (material_of "Silver" three_rows))
               (fst (computeEpsilon (material_of "Silver" three_rows)))
               (snd (computeEpsilon (material_of "Silver" three_rows)))
               (grid ps gs) no_fit_yet)
  /\ length (grid ps gs) = (580 * 140)%nat
  /\ last ps 0%float = 2.995e16%float /\ last gs 0%float = 1.49e14%float.
Proof.
  apply (default_search_grid 600). lia.
Defined.

(** A run on three rows, for the report of version 2.0. *)
Lemma main_v2_report_witness :
  exists report,
    main_v2 Advanced coarse_config 600 (Some (parsed three_rows))
    = Returned (Some report)
    /\ fitted report
       = {| best_error := 0.0040019090077075365%float;
            best_omega_p := 14000000000000000%float;
            best_gamma := 40000000000000%float |}
    /\ eps1_model report
       = map (fun w => real (drude_eps w (eps_inf coarse_config)
                               14000000000000000%float 40000000000000%float))
           (getOmega (loadData_loop (parsed three_rows) (mkMaterial "Silver")))
    /\ eps2_model report
       = map (fun w => imag (drude_eps w (eps_inf coarse_config)
                               14000000000000000%float 40000000000000%float))
           (getOmega (loadData_loop (parsed three_rows) (mkMaterial "Silver")))
    /\ Forall well_sized (plots report).
Proof.
  refine (main_v2_report Advanced coarse_config 600 (parsed three_rows)
            {| best_error := 0.0040019090077075365%float;
               best_omega_p := 14000000000000000%float;
               best_gamma := 40000000000000%float |} _ _).
  - vm_compute. discriminate.
  - vm_compute. reflexivity.
Defined.

(** Two grid points that tie, for the order of the search. *)
Lemma grid_search_lowest_of_ties_witness :
  let err := point_error small_config [] [] [] in
  In (1%R, 1%R) (grid [1%R; (1 + 1)%R] [1%R])
  /\ dec 0 0 = err (1%R, 1%R)
  /\ (forall q, In q (grid [1%R; (1 + 1)%R] [1%R]) -> (dec 0 0 <= err q)%R)
  /\ (forall q, In q (grid [1%R; (1 + 1)%R] [1%R]) -> err q = dec 0 0 ->
                q = (1%R, 1%R) \/ grid_lt (1%R, 1%R) q).
Proof.
  refine (grid_search_lowest_of_ties small_config [] [] [] [1%R; (1 + 1)%R] [1%R] 5
            {| best_error := dec 0 0; best_omega_p := 1%R; best_gamma := 1%R |}
            small_plasma_grid small_damping_grid _ _ small_search _).
  - simpl. lia.
  - simpl. lia.
  - intros Hsame. apply (f_equal best_omega_p) in Hsame.
    cbn [best_omega_p no_fit_yet] in Hsame. rewrite dec_0_R in Hsame. lra.
Defined.
